(** * brunnermunzel_from_count_data: the Brunner-Munzel test on count data

    A shallow embedding of [brunnermunzel_from_count_data/__init__.py].

    Conventions of the model.
    - A Python [int] is a [Z].
    - A Python [float] is an exact rational ([Qc], canonical fractions, so
      that equal numbers are equal terms).  In the engine rounding is not
      modelled; what is modelled there is which operations raise
      ([float / 0] raises [ZeroDivisionError]) and which return a number.
      What a sum of ranks is worth as a float is settled apart, with
      lines 93 and 174-179 redone in binary64 ([round64]).
    - A [numpy.float64] is an [npfloat]: a rational, an infinity or NaN.
      Division by zero there yields an infinity or NaN and does not raise.
    - A dict is an insertion-ordered association list with distinct keys
      ([dict_wf]); [x.items()] walks it front to back.
    - A raised exception is [Err e]; a returned value is [Ok a].
    - A key is a finite number or the missing-value marker [NaN]
      ([numpy.nan], one object).
    - [sorted] is an insertion sort; on keys that can all be compared
      ([orderable]) every sort returns the same list, and the statements
      that depend on the order of the keys assume it.
    - [np.sqrt] and the cumulative distribution functions of scipy are
      parameters of the engine.

    The file has four parts: the code ([join_count_data],
    [rank_count_data], [brunnermunzel_from_count_data]), the array-based
    procedure the code is meant to agree with ([array_brunnermunzel]),
    the ranks and their sums in binary64 ([fl_rank_count_data],
    [fl_rank_mean]), and the properties. *)

From Stdlib Require Import ZArith QArith Qcanon List String Ascii Bool Lia.
From Stdlib Require Import Permutation Sorted.
Import ListNotations.

Open Scope Z_scope.

(** ** Exceptions and results *)

Inductive exn : Type :=
| ValueError (msg : string)
| ZeroDivisionError
| KeyError.

Inductive result (A : Type) : Type :=
| Ok (a : A)
| Err (e : exn).

Arguments Ok {A} a.
Arguments Err {A} e.

Definition bind {A B : Type} (m : result A) (k : A -> result B) : result B :=
  match m with
  | Ok a => k a
  | Err e => Err e
  end.

Notation "x <- m ;; k" := (bind m (fun x => k))
  (at level 61, m at next level, right associativity).
Notation "' pat <- m ;; k" := (bind m (fun x => match x with pat => k end))
  (at level 61, pat pattern, m at next level, right associativity).

(** ** Numbers *)

Definition Z2Qc (z : Z) : Qc := Q2Qc (inject_Z z).

Definition Qc_eqb (a b : Qc) : bool := Qeq_bool a b.
Definition Qc_ltb (a b : Qc) : bool := negb (Qle_bool b a).

(** [a / b] on Python floats: raises when the divisor is zero. *)
Definition py_div (a b : Qc) : result Qc :=
  if Qc_eqb b (Z2Qc 0) then Err ZeroDivisionError else Ok (a / b)%Qc.

(** ** Keys: value_t = Union[int, float] *)

Inductive value : Type :=
| Num (q : Qc)
| NaN.

Definition isnan (v : value) : bool :=
  match v with
  | NaN => true
  | Num _ => false
  end.

(** Key identity in a dict: numbers by [==], the marker by identity. *)
Definition value_eqb (a b : value) : bool :=
  match a, b with
  | Num p, Num q => Qc_eqb p q
  | NaN, NaN => true
  | _, _ => false
  end.

(** Python's [a < b]: false as soon as one side is NaN. *)
Definition value_ltb (a b : value) : bool :=
  match a, b with
  | Num p, Num q => Qc_ltb p q
  | _, _ => false
  end.

(** ** Dicts *)

Definition dict (V : Type) : Type := list (value * V).

Definition keys {V : Type} (d : dict V) : list value := map fst d.
Definition values {V : Type} (d : dict V) : list V := map snd d.

Fixpoint dict_find {V : Type} (d : dict V) (k : value) : option V :=
  match d with
  | [] => None
  | (k', v) :: d' => if value_eqb k' k then Some v else dict_find d' k
  end.

(** [d[k]] *)
Definition dict_getitem {V : Type} (d : dict V) (k : value) : result V :=
  match dict_find d k with
  | Some v => Ok v
  | None => Err KeyError
  end.

(** [d.get(k, default)] *)
Definition dict_get {V : Type} (d : dict V) (k : value) (default : V) : V :=
  match dict_find d k with
  | Some v => v
  | None => default
  end.

(** [d[k] = v]: overwrite in place, or append a new entry. *)
Fixpoint dict_set {V : Type} (d : dict V) (k : value) (v : V) : dict V :=
  match d with
  | [] => [(k, v)]
  | (k', v') :: d' =>
      if value_eqb k' k then (k', v) :: d' else (k', v') :: dict_set d' k v
  end.

Fixpoint nodupb (l : list value) : bool :=
  match l with
  | [] => true
  | v :: l' => negb (existsb (value_eqb v) l') && nodupb l'
  end.

(** The keys of a dict are pairwise distinct. *)
Definition dict_wf {V : Type} (d : dict V) : Prop := nodupb (keys d) = true.

(** Every key can be compared with every other key: no key is NaN. *)
Definition orderable {V : Type} (d : dict V) : Prop :=
  forallb (fun v => negb (isnan v)) (keys d) = true.

Definition count_data : Type := dict Z.

(** ** sorted(...) : a stable insertion sort that only asks [<] *)

Fixpoint insert_sorted (a : value) (l : list value) : list value :=
  match l with
  | [] => [a]
  | u :: l' => if value_ltb u a then u :: insert_sorted a l' else a :: l
  end.

Definition sorted (l : list value) : list value :=
  fold_right insert_sorted [] l.

(** ** Strings: [s in t] is the substring test *)

Fixpoint str_prefix (s t : string) : bool :=
  match s, t with
  | EmptyString, _ => true
  | String a s', String b t' => Ascii.eqb a b && str_prefix s' t'
  | String _ _, EmptyString => false
  end.

Fixpoint str_in (s t : string) : bool :=
  str_prefix s t ||
  match t with
  | EmptyString => false
  | String _ t' => str_in s t'
  end.

Definition dquote : string := String (ascii_of_nat 34) EmptyString.

(** ** join_count_data (lines 18-47) *)

(** The inner loop of lines 44-45: the entries of [x] added into [ret]. *)
Definition join_into (ret x : count_data) : count_data :=
  fold_left (fun ret '(v, c) => dict_set ret v (dict_get ret v 0 + c)) x ret.

Definition join_count_data (args : list count_data) : count_data :=
  fold_left join_into args [].

(** ** rank_count_data (lines 50-93) *)

(** The loop of lines 89-91, from rank cursor [r] and spans [minmaxranks]. *)
Fixpoint rank_loop (x : count_data) (ks : list value)
    (r : Z) (minmaxranks : dict (Z * Z)) : result (Z * dict (Z * Z)) :=
  match ks with
  | [] => Ok (r, minmaxranks)
  | v :: ks' =>
      c <- dict_getitem x v;;
      rank_loop x ks' (r + c) (dict_set minmaxranks v (r, r + c - 1))
  end.

(** [(minrank + maxrank) / 2] *)
Definition midrank (span : Z * Z) : Qc :=
  (Z2Qc (fst span + snd span) / Z2Qc 2)%Qc.

Definition rank_count_data (x : count_data) (method : string)
  : result (dict Qc) :=
  if negb (str_in method "average") then
    Err (ValueError ("unknown method " ++ dquote ++ method ++ dquote))
  else
    '(_, minmaxranks) <- rank_loop x (sorted (keys x)) 1 [];;
    Ok (map (fun '(v, span) => (v, midrank span)) minmaxranks).

(** ** numpy.float64 values *)

Inductive npfloat : Type :=
| np_fin (q : Qc)
| np_inf
| np_ninf
| np_nan.

Definition np_neg (a : npfloat) : npfloat :=
  match a with
  | np_fin q => np_fin (- q)%Qc
  | np_inf => np_ninf
  | np_ninf => np_inf
  | np_nan => np_nan
  end.

Definition np_add (a b : npfloat) : npfloat :=
  match a, b with
  | np_nan, _ | _, np_nan => np_nan
  | np_fin p, np_fin q => np_fin (p + q)%Qc
  | np_inf, np_ninf | np_ninf, np_inf => np_nan
  | np_inf, _ | _, np_inf => np_inf
  | np_ninf, _ | _, np_ninf => np_ninf
  end.

Definition np_sub (a b : npfloat) : npfloat := np_add a (np_neg b).

(** The infinity of the sign of [q], NaN when [q] is zero. *)
Definition np_signed_inf (q : Qc) : npfloat :=
  if Qc_eqb q (Z2Qc 0) then np_nan
  else if Qc_ltb (Z2Qc 0) q then np_inf else np_ninf.

Definition np_mul (a b : npfloat) : npfloat :=
  match a, b with
  | np_nan, _ | _, np_nan => np_nan
  | np_fin p, np_fin q => np_fin (p * q)%Qc
  | np_fin p, np_inf | np_inf, np_fin p => np_signed_inf p
  | np_fin p, np_ninf | np_ninf, np_fin p => np_signed_inf (- p)%Qc
  | np_inf, np_inf | np_ninf, np_ninf => np_inf
  | np_inf, np_ninf | np_ninf, np_inf => np_ninf
  end.

(** Division never raises: [q / 0] is an infinity, [0 / 0] is NaN. *)
Definition np_div (a b : npfloat) : npfloat :=
  match a, b with
  | np_nan, _ | _, np_nan => np_nan
  | np_fin p, np_fin q =>
      if Qc_eqb q (Z2Qc 0) then np_signed_inf p else np_fin (p / q)%Qc
  | np_fin _, _ => np_fin (Z2Qc 0)
  | np_inf, np_fin q => if Qc_ltb q (Z2Qc 0) then np_ninf else np_inf
  | np_ninf, np_fin q => if Qc_ltb q (Z2Qc 0) then np_inf else np_ninf
  | _, _ => np_nan
  end.

(** [np.min([a, b])]: NaN wins. *)
Definition np_min (a b : npfloat) : npfloat :=
  match a, b with
  | np_nan, _ | _, np_nan => np_nan
  | np_ninf, _ | _, np_ninf => np_ninf
  | np_inf, c | c, np_inf => c
  | np_fin p, np_fin q => if Qc_ltb q p then np_fin q else np_fin p
  end.

(** ** Helpers of the engine *)

Fixpoint mapM {A B : Type} (f : A -> result B) (l : list A) : result (list B) :=
  match l with
  | [] => Ok []
  | a :: l' => b <- f a;; bs <- mapM f l';; Ok (b :: bs)
  end.

(** Python's [sum] of a list of floats, taken exactly ([fl_sum] rounds). *)
Definition sum (l : list Qc) : Qc := fold_right Qcplus (Z2Qc 0) l.

(** [sum(list(x.values()))] *)
Definition sample_size (x : count_data) : Z := fold_right Z.add 0 (values x).

(** [[c for c in x.values() if c < 0]] *)
Definition negative_counts (x : count_data) : list Z :=
  filter (fun c => c <? 0) (values x).

(** [{v: c for v, c in x.items() if not np.isnan(v)}] *)
Definition omit_nan (x : count_data) : count_data :=
  filter (fun '(v, _) => negb (isnan v)) x.

(** Modelled from the spec: scipy's private helper [_contains_nan], which
    this package imports and does not define.  It reports whether the
    missing-value marker occurs in the array, fails under the policy
    [raise] when it does, and hands the policy back.  An unrecognised
    policy is refused by scipy before the array is looked at. *)
Definition _contains_nan (a : list value) (nan_policy : string)
  : result (bool * string) :=
  if negb (existsb (String.eqb nan_policy) ["propagate"; "raise"; "omit"]%string)
  then Err (ValueError "nan_policy must be one of {'propagate', 'raise', 'omit'}")
  else
    let contains_nan := existsb isnan a in
    if contains_nan && String.eqb nan_policy "raise" then
      Err (ValueError "The input contains nan values")
    else Ok (contains_nan, nan_policy).

(** [sum([rank[v] * c for v, c in x.items()]) / n] (lines 174-175, 178-179),
    taken exactly ([fl_weighted_ranks] and [fl_rank_mean] round). *)
Definition weighted_ranks (rank : dict Qc) (x : count_data)
  : result (list Qc) :=
  mapM (fun '(v, c) => r <- dict_getitem rank v;; Ok (r * Z2Qc c)%Qc) x.

Definition rank_mean (rank : dict Qc) (x : count_data) (n : Z) : result Qc :=
  terms <- weighted_ranks rank x;;
  py_div (sum terms) (Z2Qc n).

(** Lines 181-187 and 188-194: the dispersion estimate of one group. *)
Definition dispersion (rankc rank : dict Qc) (rankc_mean rank_mean : Qc)
    (x : count_data) (n : Z) : result Qc :=
  terms <- mapM (fun '(v, c) =>
                   rc <- dict_getitem rankc v;;
                   r <- dict_getitem rank v;;
                   Ok ((rc - r - rankc_mean + rank_mean) ^ 2 * Z2Qc c)%Qc) x;;
  py_div (sum terms) (Z2Qc (n - 1)).

(** What lines 173-194 compute from two samples of sizes [nx] and [ny]. *)
Record moments : Type := Moments {
  rankcx_mean : Qc;
  rankcy_mean : Qc;
  Sx : Qc;
  Sy : Qc
}.

Definition bm_moments (x y : count_data) (nx ny : Z) : result moments :=
  rankc <- rank_count_data (join_count_data [x; y]) "average";;
  rankcx_mean <- rank_mean rankc x nx;;
  rankcy_mean <- rank_mean rankc y ny;;
  rankx <- rank_count_data x "average";;
  ranky <- rank_count_data y "average";;
  rankx_mean <- rank_mean rankx x nx;;
  ranky_mean <- rank_mean ranky y ny;;
  Sx <- dispersion rankc rankx rankcx_mean rankx_mean x nx;;
  Sy <- dispersion rankc ranky rankcy_mean ranky_mean y ny;;
  Ok (Moments rankcx_mean rankcy_mean Sx Sy).

(** [nx * Sx + ny * Sy], the term under the square root of line 197. *)
Definition pooled (nx ny : Z) (m : moments) : Qc :=
  (Z2Qc nx * Sx m + Z2Qc ny * Sy m)%Qc.

(** ** brunnermunzel_from_count_data (lines 96-219) *)

Section Engine.

(** The external collaborators: [np.sqrt] and the two cumulative
    distribution functions of [scipy.stats.distributions]. *)
Variable np_sqrt : Qc -> npfloat.
Variable t_cdf : npfloat -> npfloat -> npfloat.
Variable norm_cdf : npfloat -> npfloat.

(** Lines 196-197. *)
Definition bm_wbfn (nx ny : Z) (m : moments) : npfloat :=
  np_div (np_fin (Z2Qc (nx * ny) * (rankcy_mean m - rankcx_mean m))%Qc)
         (np_mul (np_fin (Z2Qc (nx + ny))) (np_sqrt (pooled nx ny m))).

(** Lines 199-208. *)
Definition bm_pvalue (nx ny : Z) (m : moments) (wbfn : npfloat)
    (distribution : string) : result npfloat :=
  if String.eqb distribution "t" then
    let df_numer := np_fin (pooled nx ny m ^ 2)%Qc in
    let df_denom :=
      np_add (np_div (np_fin ((Z2Qc nx * Sx m) ^ 2)%Qc) (np_fin (Z2Qc (nx - 1))))
             (np_div (np_fin ((Z2Qc ny * Sy m) ^ 2)%Qc) (np_fin (Z2Qc (ny - 1)))) in
    let df := np_div df_numer df_denom in
    Ok (t_cdf wbfn df)
  else if String.eqb distribution "normal" then
    Ok (norm_cdf wbfn)
  else Err (ValueError "distribution should be 't' or 'normal'").

(** Lines 210-217. *)
Definition bm_alternative (p : npfloat) (alternative : string)
  : result npfloat :=
  if String.eqb alternative "greater" then Ok p
  else if String.eqb alternative "less" then Ok (np_sub (np_fin (Z2Qc 1)) p)
  else if String.eqb alternative "two-sided" then
    Ok (np_mul (np_fin (Z2Qc 2)) (np_min p (np_sub (np_fin (Z2Qc 1)) p)))
  else Err (ValueError "alternative should be 'less', 'greater' or 'two-sided'").

(** Lines 169-219, on the maps left after the NaN policy was applied. *)
Definition bm_test (x y : count_data) (alternative distribution : string)
  : result (npfloat * npfloat) :=
  let nx := sample_size x in
  let ny := sample_size y in
  if (nx =? 0) || (ny =? 0) then Ok (np_nan, np_nan)
  else
    m <- bm_moments x y nx ny;;
    let wbfn := bm_wbfn nx ny m in
    p <- bm_pvalue nx ny m wbfn distribution;;
    p <- bm_alternative p alternative;;
    Ok (wbfn, p).

Definition brunnermunzel_from_count_data (x y : count_data)
    (alternative distribution nan_policy : string)
  : result (npfloat * npfloat) :=
  match negative_counts x, negative_counts y with
  | [], [] =>
      '(cnx, npx) <- _contains_nan (keys x) nan_policy;;
      '(cny, npy) <- _contains_nan (keys y) nan_policy;;
      let contains_nan := cnx || cny in
      let nan_policy :=
        if String.eqb npx "omit" || String.eqb npy "omit" then "omit"%string
        else nan_policy in
      if contains_nan && String.eqb nan_policy "propagate" then
        Ok (np_nan, np_nan)
      else
        let omit := contains_nan && String.eqb nan_policy "omit" in
        let x := if omit then omit_nan x else x in
        let y := if omit then omit_nan y else y in
        bm_test x y alternative distribution
  | _, _ => Err (ValueError "The input contains negative counts")
  end.

End Engine.

(** * The array-based procedure

    The reference of the equivalence contract: the maps expanded into
    sequences of observations, ranked by average rank, and the same
    statistic computed from the sequences with numpy arithmetic. *)

(** tests/test_brunnermunzel_from_count_data.py, lines 31-32:
    [[k for k, v in c.items() for _ in range(v)]] *)
Definition count_data_to_array (c : count_data) : list value :=
  flat_map (fun '(k, v) => repeat k (Z.to_nat v)) c.

(** Following the spec (glossary, average rank): the mean of the ranks
    that the tied occurrences of a value receive when the sequence is
    sorted and ranked by position.  [tied_ranks s e i] lists the positions
    of [e] in [s], the head of [s] standing at position [i]. *)
Fixpoint tied_ranks (s : list value) (e : value) (i : Z) : list Z :=
  match s with
  | [] => []
  | u :: s' =>
      if value_eqb u e then i :: tied_ranks s' e (i + 1)
      else tied_ranks s' e (i + 1)
  end.

Definition average_rank (a : list value) (e : value) : Qc :=
  let ties := tied_ranks (sorted a) e 1 in
  Qcdiv (Z2Qc (fold_right Z.add 0 ties)) (Z2Qc (Z.of_nat (List.length ties))).

Definition rankdata (a : list value) : list Qc := map (average_rank a) a.

Definition np_sum (l : list npfloat) : npfloat :=
  fold_right np_add (np_fin (Z2Qc 0)) l.

(** [np.power(a, 2.0)] *)
Definition np_square (a : npfloat) : npfloat :=
  match a with
  | np_fin q => np_fin (q ^ 2)%Qc
  | np_nan => np_nan
  | _ => np_inf
  end.

(** [np.mean(l)] *)
Definition np_mean (l : list Qc) : npfloat :=
  np_div (np_fin (sum l)) (np_fin (Z2Qc (Z.of_nat (List.length l)))).

(** The dispersion estimate of one group (spec 4.3, step 6), from the
    pooled ranks and the within-group ranks of its observations. *)
Definition array_dispersion (rankc rank : list Qc)
    (rankc_mean rank_mean : npfloat) (n : Z) : npfloat :=
  np_div
    (np_sum
       (map (fun '(rc, r) =>
               np_square
                 (np_add (np_sub (np_sub (np_fin rc) (np_fin r)) rankc_mean)
                         rank_mean))
            (combine rankc rank)))
    (np_fin (Z2Qc (n - 1))).

Section ArrayEngine.

Variable np_sqrt : Qc -> npfloat.
Variable t_cdf : npfloat -> npfloat -> npfloat.
Variable norm_cdf : npfloat -> npfloat.

(** [np.sqrt] on a numpy value. *)
Definition np_sqrt_of (a : npfloat) : npfloat :=
  match a with
  | np_fin q => np_sqrt q
  | np_inf => np_inf
  | _ => np_nan
  end.

(** Spec 4.3, steps 3 to 9, on two sequences of observations. *)
Definition array_test (x y : list value) (alternative distribution : string)
  : result (npfloat * npfloat) :=
  let nx := Z.of_nat (List.length x) in
  let ny := Z.of_nat (List.length y) in
  if (nx =? 0) || (ny =? 0) then Ok (np_nan, np_nan)
  else
    let rankc := rankdata (x ++ y) in
    let rankcx := firstn (List.length x) rankc in
    let rankcy := skipn (List.length x) rankc in
    let rankcx_mean := np_mean rankcx in
    let rankcy_mean := np_mean rankcy in
    let rankx := rankdata x in
    let ranky := rankdata y in
    let rankx_mean := np_mean rankx in
    let ranky_mean := np_mean ranky in
    let Sx := array_dispersion rankcx rankx rankcx_mean rankx_mean nx in
    let Sy := array_dispersion rankcy ranky rankcy_mean ranky_mean ny in
    let pooled :=
      np_add (np_mul (np_fin (Z2Qc nx)) Sx) (np_mul (np_fin (Z2Qc ny)) Sy) in
    let wbfn :=
      np_div (np_mul (np_fin (Z2Qc (nx * ny)))
                     (np_sub rankcy_mean rankcx_mean))
             (np_mul (np_fin (Z2Qc (nx + ny))) (np_sqrt_of pooled)) in
    p <- (if String.eqb distribution "t" then
            let df_numer := np_square pooled in
            let df_denom :=
              np_add
                (np_div (np_square (np_mul (np_fin (Z2Qc nx)) Sx))
                        (np_fin (Z2Qc (nx - 1))))
                (np_div (np_square (np_mul (np_fin (Z2Qc ny)) Sy))
                        (np_fin (Z2Qc (ny - 1)))) in
            Ok (t_cdf wbfn (np_div df_numer df_denom))
          else if String.eqb distribution "normal" then Ok (norm_cdf wbfn)
          else Err (ValueError "distribution should be 't' or 'normal'"));;
    p <- bm_alternative p alternative;;
    Ok (wbfn, p).

(** Spec 4.3, step 2, on the sequences, then [array_test]. *)
Definition array_brunnermunzel (x y : list value)
    (alternative distribution nan_policy : string)
  : result (npfloat * npfloat) :=
  '(cnx, npx) <- _contains_nan x nan_policy;;
  '(cny, npy) <- _contains_nan y nan_policy;;
  let contains_nan := cnx || cny in
  let nan_policy :=
    if String.eqb npx "omit" || String.eqb npy "omit" then "omit"%string
    else nan_policy in
  if contains_nan && String.eqb nan_policy "propagate" then
    Ok (np_nan, np_nan)
  else
    let omit := contains_nan && String.eqb nan_policy "omit" in
    let x := if omit then filter (fun v => negb (isnan v)) x else x in
    let y := if omit then filter (fun v => negb (isnan v)) y else y in
    array_test x y alternative distribution.

End ArrayEngine.

(** * Notions used in the statements *)

(** [a] does not come after [b]. *)
Definition value_le (a b : value) : Prop := value_ltb b a = false.

(** The summed counts of the keys [ks] in [x]. *)
Definition counts_of (x : count_data) (ks : list value) : Z :=
  fold_right (fun u acc => dict_get x u 0 + acc) 0 ks.

(** The spans the loop of [rank_count_data] writes for the keys [ks],
    visited in this order from cursor [r]. *)
Fixpoint spans (x : count_data) (ks : list value) (r : Z) : dict (Z * Z) :=
  match ks with
  | [] => []
  | v :: ks' =>
      let c := dict_get x v 0 in
      (v, (r, r + c - 1)) :: spans x ks' (r + c)
  end.

(** The rank map of [x] with the loop unrolled. *)
Definition ranks (x : count_data) : dict Qc :=
  map (fun '(v, span) => (v, midrank span)) (spans x (sorted (keys x)) 1).

(** The summed counts of the entries of [x] whose key is below [v]. *)
Definition below (x : count_data) (v : value) : Z :=
  fold_right (fun '(u, c) acc => (if value_ltb u v then c else 0) + acc) 0 x.

(** The rank cursor when [v] is visited, and the average rank of [v]. *)
Definition cursor_of (x : count_data) (v : value) : Z := 1 + below x v.

Definition rank_of (x : count_data) (v : value) : Qc :=
  midrank (cursor_of x v, cursor_of x v + dict_get x v 0 - 1).

(** The summed counts of all the entries of [x] with key [v]. *)
Definition count_all (x : count_data) (v : value) : Z :=
  fold_right (fun '(u, c) acc => (if value_eqb u v then c else 0) + acc) 0 x.

(** The summed counts of the entries of [x] whose key is above [v]. *)
Definition above (x : count_data) (v : value) : Z :=
  fold_right (fun '(u, c) acc => (if value_ltb v u then c else 0) + acc) 0 x.

(** Keys and ranks of the examples. *)
Definition key (z : Z) : value := Num (Z2Qc z).
Definition half : Qc := Q2Qc (1 # 2).

(** [{0: 1, 2: 2, 3: 1}], the map of the docstring of [rank_count_data]. *)
Definition rank_example : count_data := [(key 0, 1); (key 2, 2); (key 3, 1)].

(** [{0: 0}] and [{0: 0, 1: 2}]: maps with an entry of count 0. *)
Definition zero_only : count_data := [(key 0, 0)].
Definition zero_then_two : count_data := [(key 0, 0); (key 1, 2)].

(** [{0: 0, 1: 0, 2.5: 0}], the all-zero map of the tests. *)
Definition all_zero : count_data :=
  [(key 0, 0); (key 1, 0); (Num (Q2Qc (5 # 2)), 0)].

(** [sum([g(v) * c for v, c in x.items()])] *)
Definition wsum (g : value -> Qc) (x : count_data) : Qc :=
  sum (map (fun '(v, c) => (g v * Z2Qc c)%Qc) x).

(** Lines 173-194 with the rank maps read as functions: [gc] the pooled
    ranks, [gx] and [gy] the ranks within each sample. *)
Definition moments_of (gc gx gy : value -> Qc) (x y : count_data) (nx ny : Z)
  : result moments :=
  rankcx_mean <- py_div (wsum gc x) (Z2Qc nx);;
  rankcy_mean <- py_div (wsum gc y) (Z2Qc ny);;
  rankx_mean <- py_div (wsum gx x) (Z2Qc nx);;
  ranky_mean <- py_div (wsum gy y) (Z2Qc ny);;
  Sx <- py_div (wsum (fun v => (gc v - gx v - rankcx_mean + rankx_mean) ^ 2)%Qc x)
               (Z2Qc (nx - 1));;
  Sy <- py_div (wsum (fun v => (gc v - gy v - rankcy_mean + ranky_mean) ^ 2)%Qc y)
               (Z2Qc (ny - 1));;
  Ok (Moments rankcx_mean rankcy_mean Sx Sy).

(** How many observations of [a] satisfy [f]. *)
Definition count_if (f : value -> bool) (a : list value) : Z :=
  fold_right (fun u acc => (if f u then 1 else 0) + acc) 0 a.

(** The missing-value marker is an observation of [x] or of [y]. *)
Definition array_has_nan (x y : list value) : bool :=
  existsb isnan x || existsb isnan y.

(** The missing-value marker is a key of [x] or of [y]. *)
Definition has_nan (x y : count_data) : bool :=
  existsb isnan (keys x) || existsb isnan (keys y).

Definition valid_policy (nan_policy : string) : bool :=
  existsb (String.eqb nan_policy) ["propagate"; "raise"; "omit"]%string.

(** Computable stand-ins for the external collaborators, to run the
    engine on concrete maps: a square root rounded down to an integer and
    a cumulative distribution function that jumps from 0 to 1 at 0.  The
    theorems hold for every collaborator; the stand-ins appear only where
    a call on concrete maps is evaluated. *)
Definition floor_sqrt (q : Qc) : npfloat :=
  if Qc_ltb q (Z2Qc 0) then np_nan
  else np_fin (Z2Qc (Z.sqrt (Qnum q / Z.pos (Qden q)))).

Definition step_cdf (w : npfloat) : npfloat :=
  match w with
  | np_nan => np_nan
  | np_inf => np_fin (Z2Qc 1)
  | np_ninf => np_fin (Z2Qc 0)
  | np_fin q => if Qc_ltb q (Z2Qc 0) then np_fin (Z2Qc 0) else np_fin (Z2Qc 1)
  end.

Definition step_t_cdf (w df : npfloat) : npfloat :=
  match df with
  | np_nan => np_nan
  | _ => step_cdf w
  end.

(** The samples of the tests and of the spec. *)
Definition negative_x : count_data := [(key 0, -1); (key 1, 2)].
Definition one_two : count_data := [(key 0, 1); (key 1, 2)].
Definition single : count_data := [(key 0, 1)].
Definition nan_once : count_data := [(NaN, 1)].
Definition nan_thrice : count_data := [(NaN, 3)].
Definition nan_zero : count_data := [(NaN, 0); (key 0, 1); (key 1, 1)].
Definition one_two_three : count_data := [(key 0, 1); (key 1, 2); (key 2, 3)].

(** [x1 = {1: 11, 2: 2, 4: 1}] and [x2 = {1: 3, 2: 1, 3: 4, 4: 2, 5: 1}],
    the samples of the docstrings, and the moments lines 173-194 compute
    for them. *)
Definition doc_x1 : count_data := [(key 1, 11); (key 2, 2); (key 4, 1)].
Definition doc_x2 : count_data :=
  [(key 1, 3); (key 2, 1); (key 3, 4); (key 4, 2); (key 5, 1)].
Definition doc_moments : moments :=
  Moments (Q2Qc (275 # 28)) (Q2Qc (375 # 22))
          (Q2Qc (3069 # 728)) (Q2Qc (2843 # 220)).

(** * Notions used in the further properties *)

(** [d == d'] on dicts: the same keys with the same values, in whatever
    order they were inserted. *)
Definition same_map {V : Type} (d d' : dict V) : Prop :=
  forall v, dict_find d v = dict_find d' v.

(** [x1.get(v, 0) + x2.get(v, 0) + ...] over the maps [args]. *)
Definition total_get (args : list count_data) (v : value) : Z :=
  fold_right (fun x acc => dict_get x v 0 + acc) 0 args.

(** The summed sample sizes of the maps [args]. *)
Definition total_size (args : list count_data) : Z :=
  fold_right (fun x acc => sample_size x + acc) 0 args.

(** [v not in d] *)
Definition not_in_keys {V : Type} (d : dict V) (v : value) : bool :=
  negb (existsb (value_eqb v) (keys d)).

(** [{1: 14, 2: 3, 4: 3, 3: 4, 5: 1}], the join of the docstring. *)
Definition doc_join : count_data :=
  [(key 1, 14); (key 2, 3); (key 4, 3); (key 3, 4); (key 5, 1)].

(** The key [v] carried to another scale by [f]; the missing-value
    marker stays what it is. *)
Definition relabel_key (f : Qc -> Qc) (v : value) : value :=
  match v with
  | Num q => Num (f q)
  | NaN => NaN
  end.

(** [{f(v): c for v, c in x.items()}] *)
Definition relabel (f : Qc -> Qc) (x : count_data) : count_data :=
  map (fun '(v, c) => (relabel_key f v, c)) x.

Definition increasing (f : Qc -> Qc) : Prop :=
  forall a b, (a < b)%Qc -> (f a < f b)%Qc.

Definition triple (q : Qc) : Qc := (q * Z2Qc 3)%Qc.

(** * The ranks and their sums in binary64

    Lines 93 and 174-179 once more, with the rounding of Python's floats
    written out: a float is the rational it stands for, and every
    operation returns the exact result rounded to the nearest binary64
    number, ties to the even significand.  The rounding covers the
    normal and the subnormal range; the statements stay far below
    2^1024, where Python would overflow. *)

(** [2 ** e] *)
Definition pow2 (e : Z) : Qc :=
  if 0 <=? e then Z2Qc (2 ^ e) else (/ Z2Qc (2 ^ (- e)))%Qc.

Definition Qc_floor (q : Qc) : Z := Qnum q / Z.pos (Qden q).

Definition Qc_abs (q : Qc) : Qc := if Qc_ltb q (Z2Qc 0) then (- q)%Qc else q.

(** The integer part of the binary logarithm of a positive [q]. *)
Definition floor_log2 (q : Qc) : Z :=
  let n := Qnum q in
  let d := Z.pos (Qden q) in
  if d <=? n then Z.log2 (n / d) else - Z.log2_up ((d + n - 1) / n).

(** The nearest integer, the even one of two that are equally near. *)
Definition round_half_even (q : Qc) : Z :=
  let f := Qc_floor q in
  match (q - Z2Qc f ?= half)%Qc with
  | Lt => f
  | Gt => f + 1
  | Eq => if Z.even f then f else f + 1
  end.

(** The exponent of the last of the 53 bits of the significand of a
    number of the magnitude of [q]; it stops at -1074, where the
    subnormal numbers lie. *)
Definition ulp_exp (q : Qc) : Z := Z.max (floor_log2 (Qc_abs q) - 52) (-1074).

(** The binary64 number nearest to [q]. *)
Definition round64 (q : Qc) : Qc :=
  if Qc_eqb q (Z2Qc 0) then Z2Qc 0
  else
    let e := ulp_exp q in
    (Z2Qc (round_half_even (q / pow2 e)) * pow2 e)%Qc.

(** [float(c)], as done to the int operand of a float operation. *)
Definition fl_of_int (c : Z) : Qc := round64 (Z2Qc c).

Definition fl_add (a b : Qc) : Qc := round64 (a + b).
Definition fl_mul (a b : Qc) : Qc := round64 (a * b).

Definition fl_div (a b : Qc) : result Qc :=
  if Qc_eqb b (Z2Qc 0) then Err ZeroDivisionError else Ok (round64 (a / b)).

(** [(minrank + maxrank) / 2] of line 93: the quotient of two ints,
    rounded once. *)
Definition fl_midrank (span : Z * Z) : Qc := round64 (midrank span).

Definition fl_rank_count_data (x : count_data) (method : string)
  : result (dict Qc) :=
  if negb (str_in method "average") then
    Err (ValueError ("unknown method " ++ dquote ++ method ++ dquote))
  else
    '(_, minmaxranks) <- rank_loop x (sorted (keys x)) 1 [];;
    Ok (map (fun '(v, span) => (v, fl_midrank span)) minmaxranks).

(** [[rank[v] * c for v, c in x.items()]]: the count is made a float and
    the product is rounded. *)
Definition fl_weighted_ranks (rank : dict Qc) (x : count_data)
  : result (list Qc) :=
  mapM (fun '(v, c) => r <- dict_getitem rank v;; Ok (fl_mul r (fl_of_int c))) x.

(** [sum(terms)]: the terms are added one by one, from the left, to the
    start value 0, and every addition is rounded.  (The compensated sum
    of CPython 3.12 returns the same number whenever no addition
    rounds.) *)
Definition fl_sum (l : list Qc) : Qc := fold_left fl_add l (Z2Qc 0).

(** [sum([rank[v] * c for v, c in x.items()]) / n] *)
Definition fl_rank_mean (rank : dict Qc) (x : count_data) (n : Z)
  : result Qc :=
  terms <- fl_weighted_ranks rank x;;
  fl_div (fl_sum terms) (fl_of_int n).

(** [minrank + maxrank] of the span of [v]: twice its average rank. *)
Definition twice_rank (x : count_data) (v : value) : Z :=
  cursor_of x v + (cursor_of x v + dict_get x v 0 - 1).

Definition zsum (l : list Z) : Z := fold_right Z.add 0 l.

(** The integers [g v * c] over the entries of [x]. *)
Definition zterms (g : value -> Z) (x : count_data) : list Z :=
  map (fun '(v, c) => g v * c) x.

Definition half_of (k : Z) : Qc := (Z2Qc k / Z2Qc 2)%Qc.

(** [{0: 94906267, 1: 94906267}]: a map whose weighted rank sum,
    18014399126656845, is not a binary64 number. *)
Definition big_pair : count_data := [(key 0, 94906267); (key 1, 94906267)].

(** * Properties *)

(** ** Numbers and keys *)

Lemma Qc_eqb_eq (a b : Qc) : Qc_eqb a b = true <-> a = b.
Proof.
  unfold Qc_eqb. rewrite Qeq_bool_iff. split.
  - apply Qc_is_canon.
  - intros ->. reflexivity.
Qed.

Lemma Qc_eqb_refl (a : Qc) : Qc_eqb a a = true.
Proof. now apply Qc_eqb_eq. Qed.

Lemma Qc_eqb_neq (a b : Qc) : Qc_eqb a b = false <-> a <> b.
Proof.
  rewrite <- Qc_eqb_eq. destruct (Qc_eqb a b); split; congruence.
Qed.

Lemma Qc_ltb_lt (a b : Qc) : Qc_ltb a b = true <-> (a < b)%Qc.
Proof.
  unfold Qc_ltb, Qclt. rewrite negb_true_iff, <- not_true_iff_false.
  rewrite Qle_bool_iff. split.
  - apply Qnot_le_lt.
  - apply Qlt_not_le.
Qed.

Lemma Qc_ltb_irrefl (a : Qc) : Qc_ltb a a = false.
Proof.
  apply not_true_iff_false. rewrite Qc_ltb_lt. apply (Qlt_irrefl a).
Qed.

Lemma Qc_ltb_trans (a b c : Qc) :
  Qc_ltb a b = true -> Qc_ltb b c = true -> Qc_ltb a c = true.
Proof. rewrite !Qc_ltb_lt. apply Qclt_trans. Qed.

Lemma Qc_ltb_asym (a b : Qc) : Qc_ltb a b = true -> Qc_ltb b a = false.
Proof.
  intros H. apply not_true_iff_false. intros H'.
  pose proof (Qc_ltb_trans _ _ _ H H') as Haa.
  rewrite Qc_ltb_irrefl in Haa. discriminate.
Qed.

Lemma Qc_ltb_total (a b : Qc) :
  Qc_ltb a b = false -> Qc_ltb b a = false -> a = b.
Proof.
  rewrite <- !not_true_iff_false, !Qc_ltb_lt. intros Hab Hba.
  destruct (Q_dec a b) as [[H | H] | H].
  - now elim Hab.
  - now elim Hba.
  - now apply Qc_is_canon.
Qed.

Lemma Z2Qc_add (a b : Z) : Z2Qc (a + b) = (Z2Qc a + Z2Qc b)%Qc.
Proof.
  apply Qc_is_canon. unfold Z2Qc. cbn [this Q2Qc Qcplus].
  rewrite !Qred_correct. now rewrite inject_Z_plus.
Qed.

Lemma Z2Qc_mul (a b : Z) : Z2Qc (a * b) = (Z2Qc a * Z2Qc b)%Qc.
Proof.
  apply Qc_is_canon. unfold Z2Qc. cbn [this Q2Qc Qcmult].
  rewrite !Qred_correct. now rewrite inject_Z_mult.
Qed.

Lemma Z2Qc_opp (a : Z) : Z2Qc (- a) = (- Z2Qc a)%Qc.
Proof.
  apply Qc_is_canon. unfold Z2Qc. cbn [this Q2Qc Qcopp].
  rewrite !Qred_correct. now rewrite inject_Z_opp.
Qed.

Lemma Z2Qc_sub (a b : Z) : Z2Qc (a - b) = (Z2Qc a - Z2Qc b)%Qc.
Proof.
  unfold Z.sub, Qcminus. now rewrite Z2Qc_add, Z2Qc_opp.
Qed.

Lemma Z2Qc_inj (a b : Z) : Z2Qc a = Z2Qc b -> a = b.
Proof.
  intros H. apply (f_equal this) in H. unfold Z2Qc in H. cbn [this Q2Qc] in H.
  assert (Hq : inject_Z a == inject_Z b).
  { rewrite <- (Qred_correct (inject_Z a)), <- (Qred_correct (inject_Z b)).
    now rewrite H. }
  now apply inject_Z_injective.
Qed.

Lemma Z2Qc_eqb (a b : Z) : Qc_eqb (Z2Qc a) (Z2Qc b) = (a =? b).
Proof.
  destruct (Z.eqb_spec a b) as [-> | Hne].
  - apply Qc_eqb_refl.
  - apply Qc_eqb_neq. intros H. now apply Z2Qc_inj in H.
Qed.

Lemma Z2Qc_0 : Z2Qc 0 = 0%Qc.
Proof. now apply Qc_is_canon. Qed.

Lemma Z2Qc_1 : Z2Qc 1 = 1%Qc.
Proof. now apply Qc_is_canon. Qed.

Lemma Z2Qc_2_neq_0 : Z2Qc 2 <> 0%Qc.
Proof. rewrite <- Z2Qc_0. intros H. now apply Z2Qc_inj in H. Qed.

Lemma Z2Qc_2 : Z2Qc 2 = (1 + 1)%Qc.
Proof. now apply Qc_is_canon. Qed.

Lemma Qc_two_neq_0 : (1 + 1)%Qc <> 0%Qc.
Proof. rewrite <- Z2Qc_2. apply Z2Qc_2_neq_0. Qed.

Create Rewrite HintDb z2qc.
#[local] Hint Rewrite Z2Qc_add Z2Qc_mul Z2Qc_sub Z2Qc_opp Z2Qc_0 Z2Qc_1 Z2Qc_2
  : z2qc.

(** Equations between rationals built from injected integers. *)
Ltac qc_field :=
  autorewrite with z2qc; field; try apply Qc_two_neq_0.

Lemma value_eqb_eq (a b : value) : value_eqb a b = true <-> a = b.
Proof.
  destruct a as [p |], b as [q |]; cbn; try (split; congruence).
  rewrite Qc_eqb_eq. split; congruence.
Qed.

Lemma value_eqb_refl (a : value) : value_eqb a a = true.
Proof. now apply value_eqb_eq. Qed.

Lemma value_eqb_neq (a b : value) : value_eqb a b = false <-> a <> b.
Proof.
  rewrite <- value_eqb_eq. destruct (value_eqb a b); split; congruence.
Qed.

Lemma value_ltb_irrefl (a : value) : value_ltb a a = false.
Proof. destruct a; cbn; auto using Qc_ltb_irrefl. Qed.

Lemma value_ltb_trans (a b c : value) :
  value_ltb a b = true -> value_ltb b c = true -> value_ltb a c = true.
Proof.
  destruct a, b, c; cbn; try discriminate. apply Qc_ltb_trans.
Qed.

Lemma value_ltb_asym (a b : value) :
  value_ltb a b = true -> value_ltb b a = false.
Proof. destruct a, b; cbn; try discriminate. apply Qc_ltb_asym. Qed.

Lemma value_ltb_total (a b : value) :
  isnan a = false -> isnan b = false ->
  value_ltb a b = false -> value_ltb b a = false -> a = b.
Proof.
  destruct a, b; cbn; try discriminate. intros _ _ H1 H2.
  f_equal. now apply Qc_ltb_total.
Qed.

(** ** Dicts *)

Lemma existsb_value_eqb (v : value) (l : list value) :
  existsb (value_eqb v) l = true <-> In v l.
Proof.
  rewrite existsb_exists. split.
  - intros [u [Hin Heq]]. apply value_eqb_eq in Heq. now subst.
  - intros Hin. exists v. split; auto using value_eqb_refl.
Qed.

Lemma nodupb_NoDup (l : list value) : nodupb l = true <-> NoDup l.
Proof.
  induction l as [| v l IH]; cbn.
  - split; auto using NoDup_nil.
  - rewrite andb_true_iff, negb_true_iff, IH, <- not_true_iff_false,
      existsb_value_eqb.
    split.
    + intros [Hnin Hnd]. now constructor.
    + intros Hnd. inversion Hnd; subst. now split.
Qed.

Lemma dict_wf_NoDup {V : Type} (d : dict V) : dict_wf d <-> NoDup (keys d).
Proof. apply nodupb_NoDup. Qed.

Lemma orderable_spec {V : Type} (d : dict V) :
  orderable d <-> forall v, In v (keys d) -> isnan v = false.
Proof.
  unfold orderable. rewrite forallb_forall. split; intros H v Hin.
  - apply negb_true_iff. auto.
  - apply negb_true_iff. auto.
Qed.

Lemma in_keys {V : Type} (d : dict V) (k : value) (v : V) :
  In (k, v) d -> In k (keys d).
Proof. intros H. apply (in_map fst) in H. exact H. Qed.

Lemma dict_find_not_in {V : Type} (d : dict V) (k : value) :
  ~ In k (keys d) -> dict_find d k = None.
Proof.
  induction d as [| [k' v'] d IH]; cbn; intros Hnin; [reflexivity |].
  destruct (value_eqb k' k) eqn:E.
  - apply value_eqb_eq in E. tauto.
  - apply IH. tauto.
Qed.

Lemma dict_find_in_keys {V : Type} (d : dict V) (k : value) :
  In k (keys d) -> exists v, dict_find d k = Some v /\ In (k, v) d.
Proof.
  induction d as [| [k' v'] d IH]; cbn; intros Hin; [tauto |].
  destruct (value_eqb k' k) eqn:E.
  - apply value_eqb_eq in E. subst. eauto.
  - apply value_eqb_neq in E. destruct Hin as [Hk | Hin]; [congruence |].
    destruct (IH Hin) as [v [Hf Hv]]. eauto.
Qed.

Lemma dict_find_in {V : Type} (d : dict V) (k : value) (v : V) :
  dict_wf d -> In (k, v) d -> dict_find d k = Some v.
Proof.
  rewrite dict_wf_NoDup.
  induction d as [| [k' v'] d IH]; cbn; intros Hnd Hin; [tauto |].
  inversion Hnd as [| ? ? Hnin Hnd']; subst.
  destruct Hin as [Heq | Hin].
  - inversion Heq; subst. now rewrite value_eqb_refl.
  - destruct (value_eqb k' k) eqn:E.
    + apply value_eqb_eq in E. subst. apply in_keys in Hin. tauto.
    + auto.
Qed.

Lemma dict_get_in (d : count_data) (k : value) (c : Z) :
  dict_wf d -> In (k, c) d -> dict_get d k 0 = c.
Proof.
  intros Hwf Hin. unfold dict_get. now rewrite (dict_find_in d k c).
Qed.

Lemma dict_getitem_get (d : count_data) (k : value) :
  In k (keys d) -> dict_getitem d k = Ok (dict_get d k 0).
Proof.
  intros Hin. destruct (dict_find_in_keys d k Hin) as [c [Hf _]].
  unfold dict_getitem, dict_get. now rewrite Hf.
Qed.

Lemma dict_set_fresh {V : Type} (d : dict V) (k : value) (v : V) :
  ~ In k (keys d) -> dict_set d k v = d ++ [(k, v)].
Proof.
  induction d as [| [k' v'] d IH]; cbn; intros Hnin; [reflexivity |].
  destruct (value_eqb k' k) eqn:E.
  - apply value_eqb_eq in E. tauto.
  - f_equal. apply IH. tauto.
Qed.

Lemma dict_find_map {V W : Type} (f : V -> W) (d : dict V) (k : value) :
  dict_find (map (fun '(v, s) => (v, f s)) d) k = option_map f (dict_find d k).
Proof.
  induction d as [| [k' v'] d IH]; cbn; [reflexivity |].
  now destruct (value_eqb k' k).
Qed.

Lemma keys_map {V W : Type} (f : V -> W) (d : dict V) :
  keys (map (fun '(v, s) => (v, f s)) d) = keys d.
Proof.
  unfold keys. rewrite map_map. apply map_ext. now intros [k v].
Qed.

(** ** sorted *)

Lemma insert_sorted_perm (a : value) (l : list value) :
  Permutation (insert_sorted a l) (a :: l).
Proof.
  induction l as [| u l IH]; cbn; [reflexivity |].
  destruct (value_ltb u a); [| reflexivity].
  rewrite IH. apply perm_swap.
Qed.

Lemma sorted_perm (l : list value) : Permutation (sorted l) l.
Proof.
  induction l as [| a l IH]; cbn; [reflexivity |].
  rewrite insert_sorted_perm. now constructor.
Qed.

Lemma sorted_in (l : list value) (v : value) : In v (sorted l) <-> In v l.
Proof.
  split; apply Permutation_in; [| symmetry]; apply sorted_perm.
Qed.

Lemma sorted_NoDup (l : list value) : NoDup l -> NoDup (sorted l).
Proof.
  apply Permutation_NoDup. symmetry. apply sorted_perm.
Qed.

Lemma insert_sorted_sorted (a : value) (l : list value) :
  isnan a = false -> (forall u, In u l -> isnan u = false) ->
  StronglySorted value_le l -> StronglySorted value_le (insert_sorted a l).
Proof.
  intros Ha. induction l as [| u l IH]; cbn; intros Hl Hs.
  - repeat constructor.
  - inversion Hs as [| ? ? Hs' Hall]; subst.
    destruct (value_ltb u a) eqn:E.
    + constructor.
      * apply IH; auto.
      * rewrite Forall_forall in *. intros w Hw.
        apply (Permutation_in _ (insert_sorted_perm a l)) in Hw.
        destruct Hw as [<- | Hw]; [| auto].
        now apply value_ltb_asym.
    + constructor; [exact Hs |].
      constructor; [exact E |].
      rewrite Forall_forall in *. intros w Hw. unfold value_le.
      destruct (value_ltb w a) eqn:E'; [| reflexivity].
      specialize (Hall w Hw). unfold value_le in Hall.
      assert (Hu : u = w).
      { apply value_ltb_total; auto.
        destruct (value_ltb u w) eqn:E''; [| reflexivity].
        pose proof (value_ltb_trans _ _ _ E'' E'). congruence. }
      subst. congruence.
Qed.

Lemma sorted_sorted (l : list value) :
  (forall u, In u l -> isnan u = false) -> StronglySorted value_le (sorted l).
Proof.
  induction l as [| a l IH]; cbn; intros Hl.
  - constructor.
  - apply insert_sorted_sorted.
    + apply Hl. now left.
    + intros u Hu. apply -> sorted_in in Hu. apply Hl. now right.
    + apply IH. intros u Hu. apply Hl. now right.
Qed.

(** In a sorted list of distinct comparable keys, what stands before a key
    is smaller and what stands after it is not. *)
Lemma sorted_split (l1 l2 : list value) (v : value) :
  (forall u, In u (l1 ++ v :: l2) -> isnan u = false) ->
  NoDup (l1 ++ v :: l2) ->
  StronglySorted value_le (l1 ++ v :: l2) ->
  (forall u, In u l1 -> value_ltb u v = true) /\
  (forall u, In u l2 -> value_ltb u v = false).
Proof.
  induction l1 as [| a l1 IH]; cbn; intros Hnan Hnd Hs.
  - split; [tauto |]. inversion Hs as [| ? ? _ Hall]; subst.
    rewrite Forall_forall in Hall. exact Hall.
  - inversion Hs as [| ? ? Hs' Hall]; subst.
    inversion Hnd as [| ? ? Hnin Hnd']; subst.
    destruct (IH (fun u Hu => Hnan u (or_intror Hu)) Hnd' Hs') as [H1 H2].
    split; [| exact H2].
    intros u [<- | Hu]; [| auto].
    rewrite Forall_forall in Hall.
    assert (Hv : In v (l1 ++ v :: l2)) by (apply in_elt).
    specialize (Hall v Hv). unfold value_le in Hall.
    destruct (value_ltb a v) eqn:E; [reflexivity |].
    exfalso. apply Hnin.
    rewrite (value_ltb_total a v); auto.
Qed.

(** ** The loop of rank_count_data *)

Lemma rank_loop_spans (x : count_data) (ks : list value) :
  forall (r : Z) (mm : dict (Z * Z)),
    (forall v, In v ks -> In v (keys x)) ->
    NoDup ks ->
    (forall v, In v ks -> ~ In v (keys mm)) ->
    rank_loop x ks r mm = Ok (r + counts_of x ks, mm ++ spans x ks r).
Proof.
  induction ks as [| v ks IH]; cbn; intros r mm Hin Hnd Hfresh.
  - now rewrite Z.add_0_r, app_nil_r.
  - inversion Hnd as [| ? ? Hnin Hnd']; subst.
    rewrite dict_getitem_get by auto. cbn.
    rewrite dict_set_fresh by auto.
    rewrite IH; auto.
    + rewrite <- app_assoc. cbn. do 2 f_equal. unfold counts_of. lia.
    + intros u Hu. unfold keys. rewrite map_app, in_app_iff. cbn.
      intros [H | [H | []]].
      * now apply (Hfresh u (or_intror Hu)).
      * congruence.
Qed.

Lemma rank_count_data_spans (x : count_data) :
  dict_wf x -> rank_count_data x "average" = Ok (ranks x).
Proof.
  intros Hwf. unfold rank_count_data. cbn [negb str_in].
  change (str_in "average" "average") with true. cbn [negb].
  rewrite rank_loop_spans.
  - reflexivity.
  - intros v Hv. now apply sorted_in.
  - apply sorted_NoDup. now apply dict_wf_NoDup.
  - intros v _ [].
Qed.

Lemma keys_spans (x : count_data) (ks : list value) (r : Z) :
  keys (spans x ks r) = ks.
Proof.
  revert r. induction ks as [| v ks IH]; cbn; intros r; [reflexivity |].
  f_equal. apply IH.
Qed.

Lemma spans_find (x : count_data) (l1 l2 : list value) (v : value) :
  forall r, NoDup (l1 ++ v :: l2) ->
    dict_find (spans x (l1 ++ v :: l2) r) v =
    Some (r + counts_of x l1, r + counts_of x l1 + dict_get x v 0 - 1).
Proof.
  induction l1 as [| a l1 IH]; cbn; intros r Hnd.
  - rewrite value_eqb_refl, Z.add_0_r. reflexivity.
  - inversion Hnd as [| ? ? Hnin Hnd']; subst.
    destruct (value_eqb a v) eqn:E.
    + apply value_eqb_eq in E. subst. exfalso. apply Hnin. apply in_elt.
    + rewrite IH by assumption. unfold counts_of. do 2 f_equal; lia.
Qed.

Lemma below_counts_of (x : count_data) (v : value) :
  dict_wf x ->
  below x v = counts_of x (filter (fun u => value_ltb u v) (keys x)).
Proof.
  rewrite dict_wf_NoDup.
  assert (H : forall d : count_data, NoDup (keys d) ->
            (forall u c, In (u, c) d -> dict_get x u 0 = c) ->
            below d v = counts_of x (filter (fun u => value_ltb u v) (keys d))).
  { induction d as [| [u c] d IH]; intros Hnd Hget; [reflexivity |].
    inversion Hnd; subst.
    change (below ((u, c) :: d) v)
      with ((if value_ltb u v then c else 0) + below d v).
    rewrite IH by (cbn in Hget; auto).
    change (keys ((u, c) :: d)) with (u :: keys d). cbn [filter].
    destruct (value_ltb u v); [| reflexivity].
    cbn [counts_of fold_right].
    now rewrite (Hget u c) by (now left). }
  intros Hnd. apply H; [exact Hnd |].
  intros u c Hin. apply dict_get_in; [now apply dict_wf_NoDup | exact Hin].
Qed.

Lemma counts_of_perm (x : count_data) (l l' : list value) :
  Permutation l l' -> counts_of x l = counts_of x l'.
Proof.
  induction 1; cbn; unfold counts_of in *; lia.
Qed.

Lemma filter_all {A : Type} (f : A -> bool) (l : list A) :
  (forall a, In a l -> f a = true) -> filter f l = l.
Proof.
  induction l as [| a l IH]; cbn; intros H; [reflexivity |].
  rewrite (H a) by auto. f_equal. auto.
Qed.

Lemma filter_none {A : Type} (f : A -> bool) (l : list A) :
  (forall a, In a l -> f a = false) -> filter f l = [].
Proof.
  induction l as [| a l IH]; cbn; intros H; [reflexivity |].
  rewrite (H a) by auto. auto.
Qed.

Lemma filter_perm {A : Type} (f : A -> bool) (l l' : list A) :
  Permutation l l' -> Permutation (filter f l) (filter f l').
Proof.
  induction 1; cbn.
  - constructor.
  - destruct (f x); auto.
  - destruct (f x), (f y); auto using perm_swap.
  - etransitivity; eauto.
Qed.

(** The cursor at a key is one more than the counts of the smaller keys. *)
Lemma counts_before (x : count_data) (l1 l2 : list value) (v : value) :
  dict_wf x -> orderable x ->
  sorted (keys x) = l1 ++ v :: l2 ->
  counts_of x l1 = below x v.
Proof.
  intros Hwf Hord Hsplit.
  assert (Hnan : forall u, In u (l1 ++ v :: l2) -> isnan u = false).
  { intros u Hu. rewrite <- Hsplit in Hu. apply -> sorted_in in Hu.
    now apply (proj1 (orderable_spec x) Hord). }
  assert (Hnd : NoDup (l1 ++ v :: l2)).
  { rewrite <- Hsplit. apply sorted_NoDup. now apply dict_wf_NoDup. }
  assert (Hs : StronglySorted value_le (l1 ++ v :: l2)).
  { rewrite <- Hsplit. apply sorted_sorted.
    now apply (proj1 (orderable_spec x) Hord). }
  destruct (sorted_split l1 l2 v Hnan Hnd Hs) as [Hlt Hge].
  rewrite below_counts_of by assumption.
  rewrite (counts_of_perm x (filter (fun u => value_ltb u v) (keys x))
             (filter (fun u => value_ltb u v) (l1 ++ v :: l2))).
  - rewrite filter_app. cbn [filter]. rewrite value_ltb_irrefl.
    rewrite (filter_all _ l1) by assumption.
    rewrite (filter_none _ l2) by assumption.
    now rewrite app_nil_r.
  - apply filter_perm. rewrite <- Hsplit. symmetry. apply sorted_perm.
Qed.

(** The closed form of a rank: what [rank_count_data] stores at a key. *)
Lemma ranks_getitem (x : count_data) (v : value) :
  dict_wf x -> orderable x -> In v (keys x) ->
  dict_getitem (ranks x) v = Ok (rank_of x v).
Proof.
  intros Hwf Hord Hin.
  apply sorted_in in Hin. apply in_split in Hin. destruct Hin as [l1 [l2 Hsplit]].
  unfold dict_getitem, ranks. rewrite dict_find_map, Hsplit, spans_find.
  - cbn. unfold rank_of, cursor_of.
    now rewrite (counts_before x l1 l2 v).
  - rewrite <- Hsplit. apply sorted_NoDup. now apply dict_wf_NoDup.
Qed.

Lemma keys_ranks (x : count_data) : keys (ranks x) = sorted (keys x).
Proof. unfold ranks. now rewrite keys_map, keys_spans. Qed.

(** ** Evaluating the model on concrete maps *)

(** Canonical fractions are compared through their numerator and
    denominator. *)
Ltac qc_canon :=
  match goal with
  | |- @eq Qc _ _ => apply Qc_is_canon; vm_compute; reflexivity
  end.

Ltac eval_eq :=
  vm_compute;
  repeat first [ qc_canon | reflexivity | f_equal ].

Lemma half_neq_1 : half <> Z2Qc 1.
Proof. intros H. apply (f_equal this) in H. discriminate H. Qed.

(** ** rank_count_data *)

(** C2. With method "average", the keys are walked in ascending order
    with a rank cursor that starts at 1 and advances by the count of each
    key; a key [v] reached with the cursor at [cursor] gets the midpoint
    [(cursor + (cursor + count(v) - 1)) / 2].  The map [{0:1, 2:2, 3:1}]
    gets [{0: 1.0, 2: 2.5, 3: 4.0}].  (Positivity of the counts is not
    needed.) *)
Theorem rank_count_data_average (x : count_data) :
  dict_wf x -> orderable x ->
  (exists rank,
      rank_count_data x "average" = Ok rank /\
      keys rank = sorted (keys x) /\
      Permutation (sorted (keys x)) (keys x) /\
      StronglySorted value_le (sorted (keys x)) /\
      forall l1 v l2,
        sorted (keys x) = l1 ++ v :: l2 ->
        let cursor := 1 + counts_of x l1 in
        dict_getitem rank v =
        Ok (Qcdiv (Z2Qc (cursor + (cursor + dict_get x v 0 - 1))) (Z2Qc 2))) /\
  rank_count_data rank_example "average" =
  Ok [(key 0, Z2Qc 1); (key 2, Q2Qc (5 # 2)); (key 3, Z2Qc 4)].
Proof.
  intros Hwf Hord. split; [| eval_eq].
  rewrite rank_count_data_spans by assumption.
  eexists. split; [reflexivity |].
  split; [apply keys_ranks |].
  split; [apply sorted_perm |].
  split; [apply sorted_sorted; now apply orderable_spec |].
  intros l1 v l2 Hsplit cursor.
  unfold dict_getitem, ranks. rewrite dict_find_map, Hsplit, spans_find.
  - reflexivity.
  - rewrite <- Hsplit. apply sorted_NoDup. now apply dict_wf_NoDup.
Qed.

Lemma rank_count_data_average_witness :
  dict_wf rank_example /\ orderable rank_example /\
  exists rank, rank_count_data rank_example "average" = Ok rank.
Proof.
  assert (Hwf : dict_wf rank_example) by reflexivity.
  assert (Hord : orderable rank_example) by reflexivity.
  split; [exact Hwf |]. split; [exact Hord |].
  destruct (rank_count_data_average rank_example Hwf Hord) as [[rank [H _]] _].
  exists rank. exact H.
Defined.

(** C6. A method that is a proper substring of "average" is accepted:
    line 84 tests [method not in ("average")], membership in a string,
    so "ave" ranks the map instead of raising. *)
Theorem rank_count_data_substring_method :
  rank_count_data rank_example "ave" =
  Ok [(key 0, Z2Qc 1); (key 2, Q2Qc (5 # 2)); (key 3, Z2Qc 4)] /\
  rank_count_data rank_example "" = rank_count_data rank_example "average" /\
  rank_count_data rank_example "median" =
  Err (ValueError ("unknown method " ++ dquote ++ "median" ++ dquote)).
Proof.
  split; [eval_eq |]. split; [eval_eq | reflexivity].
Qed.

(** ** Entries added to a map *)

Lemma keys_insert {V : Type} (x1 x2 : dict V) (k : value) (c : V) :
  keys (x1 ++ (k, c) :: x2) = keys x1 ++ k :: keys x2.
Proof. unfold keys. now rewrite map_app. Qed.

Lemma keys_app {V : Type} (x1 x2 : dict V) :
  keys (x1 ++ x2) = keys x1 ++ keys x2.
Proof. unfold keys. now rewrite map_app. Qed.

Lemma dict_wf_insert {V : Type} (x1 x2 : dict V) (k : value) (c : V) :
  dict_wf (x1 ++ (k, c) :: x2) <->
  dict_wf (x1 ++ x2) /\ ~ In k (keys (x1 ++ x2)).
Proof.
  rewrite !dict_wf_NoDup, keys_insert, keys_app. split.
  - apply NoDup_remove.
  - intros [Hnd Hnin].
    apply (Permutation_NoDup (Permutation_middle _ _ _)).
    now constructor.
Qed.

Lemma orderable_insert {V : Type} (x1 x2 : dict V) (k : value) (c : V) :
  orderable (x1 ++ (k, c) :: x2) <->
  orderable (x1 ++ x2) /\ isnan k = false.
Proof.
  rewrite !orderable_spec, keys_insert, keys_app. split.
  - intros H. split.
    + intros v Hv. apply H. rewrite in_app_iff in *. cbn. tauto.
    + apply H. apply in_elt.
  - intros [H Hk] v Hv. rewrite in_app_iff in Hv. cbn in Hv.
    destruct Hv as [Hv | [<- | Hv]]; auto; apply H; rewrite in_app_iff; tauto.
Qed.

Lemma below_app (x1 x2 : count_data) (v : value) :
  below (x1 ++ x2) v = below x1 v + below x2 v.
Proof.
  induction x1 as [| [u c] x1 IH]; [reflexivity |].
  change (below (((u, c) :: x1) ++ x2) v)
    with ((if value_ltb u v then c else 0) + below (x1 ++ x2) v).
  change (below ((u, c) :: x1) v)
    with ((if value_ltb u v then c else 0) + below x1 v).
  lia.
Qed.

Lemma below_cons (x : count_data) (u v : value) (c : Z) :
  below ((u, c) :: x) v = (if value_ltb u v then c else 0) + below x v.
Proof. reflexivity. Qed.

Lemma below_insert_zero (x1 x2 : count_data) (k v : value) :
  below (x1 ++ (k, 0) :: x2) v = below (x1 ++ x2) v.
Proof.
  rewrite !below_app, below_cons. destruct (value_ltb k v); lia.
Qed.

Lemma dict_find_insert_other {V : Type} (x1 x2 : dict V) (k u : value) (c : V) :
  u <> k -> dict_find (x1 ++ (k, c) :: x2) u = dict_find (x1 ++ x2) u.
Proof.
  intros Hne. induction x1 as [| [a b] x1 IH]; cbn.
  - destruct (value_eqb k u) eqn:E; [| reflexivity].
    apply value_eqb_eq in E. congruence.
  - now rewrite IH.
Qed.

Lemma rank_of_insert_zero (x1 x2 : count_data) (k u : value) :
  u <> k -> rank_of (x1 ++ (k, 0) :: x2) u = rank_of (x1 ++ x2) u.
Proof.
  intros Hne. unfold rank_of, cursor_of, dict_get.
  now rewrite below_insert_zero, dict_find_insert_other.
Qed.

Lemma midrank_zero_width (r : Z) : midrank (r, r + 0 - 1) = (Z2Qc r - half)%Qc.
Proof.
  unfold midrank. cbn [fst snd].
  replace (r + (r + 0 - 1)) with (2 * r - 1) by lia.
  rewrite Z2Qc_sub, Z2Qc_mul, Z2Qc_1.
  assert (Hh : half = (1 / Z2Qc 2)%Qc) by now apply Qc_is_canon.
  rewrite Hh. field. apply Z2Qc_2_neq_0.
Qed.

(** C7, as the code has it.  A key [v] of count 0 is in the rank map; its
    span runs from the cursor to the cursor minus one, so its rank is the
    cursor at the point [v] is visited minus one half; and the ranks of
    all other keys are the ranks they have in the map without [v]. *)
Theorem rank_count_data_zero_count (x1 x2 : count_data) (v : value) :
  dict_wf (x1 ++ (v, 0) :: x2) -> orderable (x1 ++ (v, 0) :: x2) ->
  exists rank' rank,
    rank_count_data (x1 ++ (v, 0) :: x2) "average" = Ok rank' /\
    rank_count_data (x1 ++ x2) "average" = Ok rank /\
    In v (keys rank') /\
    (forall l1 l2,
        sorted (keys (x1 ++ (v, 0) :: x2)) = l1 ++ v :: l2 ->
        let cursor := 1 + counts_of (x1 ++ (v, 0) :: x2) l1 in
        dict_find (spans (x1 ++ (v, 0) :: x2) (l1 ++ v :: l2) 1) v =
          Some (cursor, cursor - 1) /\
        dict_getitem rank' v = Ok (Z2Qc cursor - half)%Qc) /\
    (forall u, In u (keys (x1 ++ x2)) ->
               dict_getitem rank' u = dict_getitem rank u).
Proof.
  intros Hwf' Hord'.
  destruct (proj1 (dict_wf_insert x1 x2 v 0) Hwf') as [Hwf Hnin].
  destruct (proj1 (orderable_insert x1 x2 v 0) Hord') as [Hord Hv].
  assert (Hget : dict_get (x1 ++ (v, 0) :: x2) v 0 = 0).
  { apply dict_get_in; [exact Hwf' | apply in_elt]. }
  exists (ranks (x1 ++ (v, 0) :: x2)), (ranks (x1 ++ x2)).
  split; [now apply rank_count_data_spans |].
  split; [now apply rank_count_data_spans |].
  split.
  { rewrite keys_ranks. apply sorted_in. rewrite keys_insert. apply in_elt. }
  split.
  - intros l1 l2 Hsplit cursor.
    assert (Hnd : NoDup (l1 ++ v :: l2)).
    { rewrite <- Hsplit. apply sorted_NoDup. now apply dict_wf_NoDup. }
    assert (Hspan : dict_find (spans (x1 ++ (v, 0) :: x2) (l1 ++ v :: l2) 1) v
                    = Some (cursor, cursor - 1)).
    { rewrite spans_find by exact Hnd. rewrite Hget. subst cursor.
      do 2 f_equal. lia. }
    split; [exact Hspan |].
    unfold dict_getitem, ranks.
    rewrite dict_find_map, Hsplit, Hspan. cbn [option_map].
    f_equal. replace (cursor - 1) with (cursor + 0 - 1) by lia.
    apply midrank_zero_width.
  - intros u Hu.
    assert (Hne : u <> v) by (intros ->; contradiction).
    rewrite !ranks_getitem; auto.
    + now rewrite rank_of_insert_zero.
    + rewrite keys_insert. rewrite keys_app, in_app_iff in Hu.
      rewrite in_app_iff. cbn. tauto.
Qed.

Lemma rank_count_data_zero_count_witness :
  dict_wf zero_then_two /\ orderable zero_then_two /\
  exists rank', rank_count_data zero_then_two "average" = Ok rank'.
Proof.
  assert (Hwf : dict_wf ([] ++ (key 0, 0) :: [(key 1, 2)])) by reflexivity.
  assert (Hord : orderable ([] ++ (key 0, 0) :: [(key 1, 2)])) by reflexivity.
  split; [exact Hwf |]. split; [exact Hord |].
  destruct (rank_count_data_zero_count [] [(key 1, 2)] (key 0) Hwf Hord)
    as [rank' [_ [H _]]].
  exists rank'. exact H.
Defined.

(** C7 as stated fails: in [{0: 0}] the key 0 is visited with the cursor
    at 1 and is given the rank 1/2. *)
Lemma zero_count_rank_is_not_the_cursor :
  sorted (keys zero_only) = [] ++ key 0 :: [] /\
  1 + counts_of zero_only [] = 1 /\
  rank_count_data zero_only "average" = Ok [(key 0, half)] /\
  dict_getitem [(key 0, half)] (key 0) <> Ok (Z2Qc 1).
Proof.
  split; [reflexivity |]. split; [reflexivity |]. split; [eval_eq |].
  intros H. apply half_neq_1. cbv [dict_getitem dict_find] in H.
  rewrite value_eqb_refl in H. now inversion H.
Qed.

(** ** Maps without occurrences *)

Lemma dict_find_some {V : Type} (d : dict V) (k : value) (v : V) :
  dict_find d k = Some v -> In (k, v) d.
Proof.
  induction d as [| [k' v'] d IH]; cbn; [discriminate |].
  destruct (value_eqb k' k) eqn:E.
  - apply value_eqb_eq in E. intros H. inversion H; subst. now left.
  - auto.
Qed.

Lemma dict_get_all_zero (x : count_data) (v : value) :
  (forall u c, In (u, c) x -> c = 0) -> dict_get x v 0 = 0.
Proof.
  intros Hzero. unfold dict_get. destruct (dict_find x v) as [c |] eqn:E.
  - apply dict_find_some in E. eauto.
  - reflexivity.
Qed.

Lemma spans_all_zero (x : count_data) (ks : list value) (r : Z) :
  (forall u c, In (u, c) x -> c = 0) ->
  spans x ks r = map (fun v => (v, (r, r + 0 - 1))) ks.
Proof.
  intros Hzero. induction ks as [| v ks IH]; cbn [spans map]; [reflexivity |].
  rewrite dict_get_all_zero by assumption. cbv zeta.
  replace (spans x ks (r + 0)) with (spans x ks r) by (f_equal; lia).
  now rewrite IH.
Qed.

(** C8, as the code has it.  The empty map gets the empty rank map.  A map
    whose counts are all 0 gets a rank map over its own keys in which
    every rank is 1/2. *)
Theorem rank_count_data_all_zero (x : count_data) :
  dict_wf x -> (forall v c, In (v, c) x -> c = 0) ->
  rank_count_data [] "average" = Ok [] /\
  exists rank,
    rank_count_data x "average" = Ok rank /\
    Permutation (keys rank) (keys x) /\
    forall v r, In (v, r) rank -> r = half.
Proof.
  intros Hwf Hzero. split; [reflexivity |].
  exists (map (fun v => (v, half)) (sorted (keys x))).
  split; [| split].
  - rewrite rank_count_data_spans by assumption. f_equal.
    unfold ranks. rewrite spans_all_zero by assumption.
    rewrite map_map. apply map_ext. intros v.
    rewrite midrank_zero_width. f_equal; now apply Qc_is_canon.
  - unfold keys. rewrite map_map. cbn [fst]. rewrite map_id.
    apply sorted_perm.
  - intros v r Hin. apply in_map_iff in Hin.
    destruct Hin as [u [Heq _]]. now inversion Heq.
Qed.

Lemma rank_count_data_all_zero_witness :
  dict_wf all_zero /\
  exists rank,
    rank_count_data all_zero "average" = Ok rank /\
    Permutation (keys rank) (keys all_zero).
Proof.
  assert (Hwf : dict_wf all_zero) by reflexivity.
  split; [exact Hwf |].
  destruct (rank_count_data_all_zero all_zero Hwf) as [_ [rank [H1 [H2 _]]]].
  - intros v c Hin. cbn in Hin.
    repeat (destruct Hin as [Hin | Hin]; [now inversion Hin |]).
    contradiction.
  - exists rank. split; assumption.
Defined.

(** C8 as stated fails: the all-zero map [{0: 0, 1: 0, 2.5: 0}] gets a
    rank map with three entries. *)
Lemma all_zero_rank_map_is_not_empty :
  rank_count_data all_zero "average" =
  Ok [(key 0, half); (key 1, half); (Num (Q2Qc (5 # 2)), half)] /\
  rank_count_data all_zero "average" <> Ok [].
Proof.
  assert (H : rank_count_data all_zero "average" =
              Ok [(key 0, half); (key 1, half); (Num (Q2Qc (5 # 2)), half)])
    by eval_eq.
  split; [exact H |]. rewrite H. discriminate.
Qed.

(** ** Weighted sums of ranks *)

Lemma mapM_ok {A B : Type} (f : A -> result B) (g : A -> B) (l : list A) :
  (forall a, In a l -> f a = Ok (g a)) -> mapM f l = Ok (map g l).
Proof.
  induction l as [| a l IH]; cbn; intros H; [reflexivity |].
  rewrite (H a) by auto. cbn. rewrite IH by auto. reflexivity.
Qed.

Lemma weighted_ranks_ok (rank : dict Qc) (g : value -> Qc) (x : count_data) :
  (forall v, In v (keys x) -> dict_getitem rank v = Ok (g v)) ->
  weighted_ranks rank x = Ok (map (fun '(v, c) => (g v * Z2Qc c)%Qc) x).
Proof.
  intros H. unfold weighted_ranks. apply mapM_ok.
  intros [v c] Hin. rewrite (H v) by (eapply in_keys; eauto). reflexivity.
Qed.

Lemma wsum_cons (g : value -> Qc) (x : count_data) (v : value) (c : Z) :
  wsum g ((v, c) :: x) = (g v * Z2Qc c + wsum g x)%Qc.
Proof. reflexivity. Qed.

Lemma wsum_ext (g h : value -> Qc) (x : count_data) :
  (forall v, In v (keys x) -> g v = h v) -> wsum g x = wsum h x.
Proof.
  induction x as [| [v c] x IH]; intros H; [reflexivity |].
  rewrite !wsum_cons, IH.
  - rewrite (H v) by now left. reflexivity.
  - intros u Hu. apply H. now right.
Qed.

Lemma above_cons (x : count_data) (u v : value) (c : Z) :
  above ((u, c) :: x) v = (if value_ltb v u then c else 0) + above x v.
Proof. reflexivity. Qed.

Lemma sample_size_cons (x : count_data) (v : value) (c : Z) :
  sample_size ((v, c) :: x) = c + sample_size x.
Proof. reflexivity. Qed.

Lemma below_above (x : count_data) (k : value) :
  ~ In k (keys x) -> isnan k = false -> orderable x ->
  below x k + above x k = sample_size x.
Proof.
  intros Hnin Hk Hord. rewrite orderable_spec in Hord.
  induction x as [| [u c] x IH]; [reflexivity |].
  rewrite below_cons, above_cons, sample_size_cons.
  assert (Hu : isnan u = false) by (apply Hord; now left).
  assert (Hne : u <> k) by (intros ->; apply Hnin; now left).
  assert (IH' : below x k + above x k = sample_size x).
  { apply IH.
    - intros Hin. apply Hnin. now right.
    - intros v Hv. apply Hord. now right. }
  destruct (value_ltb u k) eqn:E1, (value_ltb k u) eqn:E2; try lia.
  - apply value_ltb_asym in E1. congruence.
  - exfalso. apply Hne. now apply value_ltb_total.
Qed.

Lemma wsum_shift (g : value -> Qc) (x : count_data) (k : value) (c : Z) :
  wsum (fun v => (g v + Z2Qc (if value_ltb k v then c else 0))%Qc) x =
  (wsum g x + Z2Qc c * Z2Qc (above x k))%Qc.
Proof.
  induction x as [| [u e] x IH].
  - cbn. autorewrite with z2qc. ring.
  - rewrite !wsum_cons, above_cons, IH.
    destruct (value_ltb k u); autorewrite with z2qc; ring.
Qed.

Lemma midrank_shift (a b e : Z) :
  midrank (a + e, b + e) = (midrank (a, b) + Z2Qc e)%Qc.
Proof.
  unfold midrank. cbn [fst snd]. qc_field.
Qed.

Lemma dict_get_cons_other (x : count_data) (k v : value) (c : Z) :
  v <> k -> dict_get ((k, c) :: x) v 0 = dict_get x v 0.
Proof.
  intros Hne. unfold dict_get. cbn.
  destruct (value_eqb k v) eqn:E; [| reflexivity].
  apply value_eqb_eq in E. congruence.
Qed.

Lemma dict_get_cons_same (x : count_data) (k : value) (c : Z) :
  dict_get ((k, c) :: x) k 0 = c.
Proof. unfold dict_get. cbn. now rewrite value_eqb_refl. Qed.

Lemma rank_of_cons_other (x : count_data) (k v : value) (c : Z) :
  v <> k ->
  rank_of ((k, c) :: x) v =
  (rank_of x v + Z2Qc (if value_ltb k v then c else 0))%Qc.
Proof.
  intros Hne. unfold rank_of, cursor_of.
  rewrite below_cons, dict_get_cons_other by assumption.
  rewrite <- midrank_shift. f_equal. f_equal; lia.
Qed.

Lemma dict_wf_cons {V : Type} (x : dict V) (k : value) (c : V) :
  dict_wf ((k, c) :: x) <-> ~ In k (keys x) /\ dict_wf x.
Proof.
  rewrite !dict_wf_NoDup. cbn. split.
  - intros H. inversion H; subst. now split.
  - intros [H1 H2]. now constructor.
Qed.

Lemma orderable_cons {V : Type} (x : dict V) (k : value) (c : V) :
  orderable ((k, c) :: x) <-> isnan k = false /\ orderable x.
Proof.
  unfold orderable. cbn. now rewrite andb_true_iff, negb_true_iff.
Qed.

(** The ranks of a map, weighted by its counts, sum to [n (n + 1) / 2]. *)
Lemma wsum_rank_of (x : count_data) :
  dict_wf x -> orderable x ->
  wsum (rank_of x) x =
  (Z2Qc (sample_size x * (sample_size x + 1)) / Z2Qc 2)%Qc.
Proof.
  induction x as [| [k c] x IH]; intros Hwf Hord.
  - cbn. now apply Qc_is_canon.
  - apply dict_wf_cons in Hwf. destruct Hwf as [Hnin Hwf].
    apply orderable_cons in Hord. destruct Hord as [Hk Hord].
    rewrite wsum_cons, sample_size_cons.
    rewrite (wsum_ext (rank_of ((k, c) :: x))
               (fun v => (rank_of x v + Z2Qc (if value_ltb k v then c else 0))%Qc)).
    + rewrite wsum_shift, IH by assumption.
      unfold rank_of at 1, cursor_of.
      rewrite below_cons, value_ltb_irrefl, dict_get_cons_same.
      pose proof (below_above x k Hnin Hk Hord) as Hba.
      replace (above x k) with (sample_size x - below x k) by lia.
      unfold midrank. cbn [fst snd]. qc_field.
    + intros v Hv. apply rank_of_cons_other. intros ->. contradiction.
Qed.

(** ** join_count_data *)

Lemma value_eqb_sym (a b : value) : value_eqb a b = value_eqb b a.
Proof.
  destruct (value_eqb a b) eqn:E.
  - apply value_eqb_eq in E. subst. now rewrite value_eqb_refl.
  - symmetry. apply value_eqb_neq. apply value_eqb_neq in E. congruence.
Qed.

Lemma dict_find_set {V : Type} (d : dict V) (k v : value) (c : V) :
  dict_find (dict_set d k c) v =
  if value_eqb k v then Some c else dict_find d v.
Proof.
  induction d as [| [k' c'] d IH]; cbn.
  - reflexivity.
  - destruct (value_eqb k' k) eqn:E; cbn.
    + apply value_eqb_eq in E. subst k'.
      now destruct (value_eqb k v).
    + rewrite IH. destruct (value_eqb k' v) eqn:E'; [| reflexivity].
      apply value_eqb_eq in E'. subst k'. now rewrite value_eqb_sym, E.
Qed.

Lemma dict_get_set (d : count_data) (k v : value) (c : Z) :
  dict_get (dict_set d k c) v 0 = if value_eqb k v then c else dict_get d v 0.
Proof.
  unfold dict_get. rewrite dict_find_set. now destruct (value_eqb k v).
Qed.

Lemma keys_set {V : Type} (d : dict V) (k v : value) (c : V) :
  In v (keys (dict_set d k c)) <-> In v (keys d) \/ v = k.
Proof.
  induction d as [| [k' c'] d IH]; cbn.
  - intuition.
  - destruct (value_eqb k' k) eqn:E; cbn.
    + apply value_eqb_eq in E. subst. intuition.
    + rewrite IH. tauto.
Qed.

Lemma dict_wf_set {V : Type} (d : dict V) (k : value) (c : V) :
  dict_wf d -> dict_wf (dict_set d k c).
Proof.
  induction d as [| [k' c'] d IH]; intros Hwf.
  - reflexivity.
  - apply dict_wf_cons in Hwf. destruct Hwf as [Hnin Hwf]. cbn.
    destruct (value_eqb k' k) eqn:E.
    + apply dict_wf_cons. now split.
    + apply dict_wf_cons. split; [| auto].
      rewrite keys_set. apply value_eqb_neq in E. intros [H | H]; congruence.
Qed.

Lemma below_set (d : count_data) (k v : value) (c : Z) :
  below (dict_set d k (dict_get d k 0 + c)) v =
  below d v + (if value_ltb k v then c else 0).
Proof.
  induction d as [| [k' c'] d IH].
  - cbn. destruct (value_ltb k v); lia.
  - cbn [dict_set]. destruct (value_eqb k' k) eqn:E.
    + apply value_eqb_eq in E. subst k'.
      rewrite dict_get_cons_same, !below_cons.
      destruct (value_ltb k v); lia.
    + rewrite dict_get_cons_other
        by (apply value_eqb_neq in E; congruence).
      rewrite !below_cons, IH. lia.
Qed.

Lemma join_into_cons (ret x : count_data) (v : value) (c : Z) :
  join_into ret ((v, c) :: x) =
  join_into (dict_set ret v (dict_get ret v 0 + c)) x.
Proof. reflexivity. Qed.

Lemma below_join_into (x : count_data) :
  forall ret v, below (join_into ret x) v = below ret v + below x v.
Proof.
  induction x as [| [u c] x IH]; intros ret v.
  - change (join_into ret []) with ret. change (below [] v) with 0. lia.
  - rewrite join_into_cons, IH, below_set, below_cons. lia.
Qed.

Lemma count_all_cons (x : count_data) (u v : value) (c : Z) :
  count_all ((u, c) :: x) v = (if value_eqb u v then c else 0) + count_all x v.
Proof. reflexivity. Qed.

Lemma dict_get_join_into (x : count_data) :
  forall ret v,
    dict_get (join_into ret x) v 0 = dict_get ret v 0 + count_all x v.
Proof.
  induction x as [| [u c] x IH]; intros ret v.
  - change (join_into ret []) with ret. change (count_all [] v) with 0. lia.
  - rewrite join_into_cons, IH, dict_get_set, count_all_cons.
    destruct (value_eqb u v) eqn:E; [| lia].
    apply value_eqb_eq in E. subst. lia.
Qed.

Lemma count_all_not_in (x : count_data) (v : value) :
  ~ In v (keys x) -> count_all x v = 0.
Proof.
  induction x as [| [u c] x IH]; intros Hnin; [reflexivity |].
  rewrite count_all_cons, IH by (intros H; apply Hnin; now right).
  destruct (value_eqb u v) eqn:E; [| reflexivity].
  apply value_eqb_eq in E. subst. exfalso. apply Hnin. now left.
Qed.

Lemma count_all_wf (x : count_data) (v : value) :
  dict_wf x -> count_all x v = dict_get x v 0.
Proof.
  induction x as [| [u c] x IH]; intros Hwf; [reflexivity |].
  apply dict_wf_cons in Hwf. destruct Hwf as [Hnin Hwf].
  rewrite count_all_cons. destruct (value_eqb u v) eqn:E.
  - apply value_eqb_eq in E. subst.
    rewrite dict_get_cons_same, count_all_not_in by assumption. lia.
  - rewrite dict_get_cons_other, IH by
      (try assumption; apply value_eqb_neq in E; congruence).
    lia.
Qed.

Lemma keys_join_into (x : count_data) :
  forall ret v,
    In v (keys (join_into ret x)) <-> In v (keys ret) \/ In v (keys x).
Proof.
  induction x as [| [u c] x IH]; intros ret v.
  - cbn. tauto.
  - rewrite join_into_cons, IH, keys_set. cbn. intuition.
Qed.

Lemma dict_wf_join_into (x : count_data) :
  forall ret, dict_wf ret -> dict_wf (join_into ret x).
Proof.
  induction x as [| [u c] x IH]; intros ret Hwf; [exact Hwf |].
  rewrite join_into_cons. apply IH. now apply dict_wf_set.
Qed.

Lemma join_two (x y : count_data) :
  join_count_data [x; y] = join_into (join_into [] x) y.
Proof. reflexivity. Qed.

Lemma dict_wf_join (x y : count_data) : dict_wf (join_count_data [x; y]).
Proof. rewrite join_two. now repeat apply dict_wf_join_into. Qed.

Lemma keys_join (x y : count_data) (v : value) :
  In v (keys (join_count_data [x; y])) <-> In v (keys x) \/ In v (keys y).
Proof. rewrite join_two, !keys_join_into. cbn. tauto. Qed.

Lemma orderable_join (x y : count_data) :
  orderable x -> orderable y -> orderable (join_count_data [x; y]).
Proof.
  rewrite !orderable_spec. intros Hx Hy v Hv.
  apply keys_join in Hv. destruct Hv; auto.
Qed.

Lemma below_join (x y : count_data) (v : value) :
  below (join_count_data [x; y]) v = below x v + below y v.
Proof. rewrite join_two, !below_join_into. reflexivity. Qed.

Lemma dict_get_join (x y : count_data) (v : value) :
  dict_get (join_count_data [x; y]) v 0 = count_all x v + count_all y v.
Proof. rewrite join_two, !dict_get_join_into. reflexivity. Qed.

(** The closed form of a pooled rank is symmetric in the two samples. *)
Lemma rank_of_join_comm (x y : count_data) (v : value) :
  rank_of (join_count_data [y; x]) v = rank_of (join_count_data [x; y]) v.
Proof.
  unfold rank_of, cursor_of. rewrite !below_join, !dict_get_join.
  f_equal. f_equal; lia.
Qed.

Lemma count_all_app (x1 x2 : count_data) (v : value) :
  count_all (x1 ++ x2) v = count_all x1 v + count_all x2 v.
Proof.
  induction x1 as [| [u c] x1 IH]; [reflexivity |].
  cbn [app]. rewrite !count_all_cons, IH. lia.
Qed.

Lemma count_all_insert_zero (x1 x2 : count_data) (k v : value) :
  count_all (x1 ++ (k, 0) :: x2) v = count_all (x1 ++ x2) v.
Proof.
  rewrite !count_all_app, count_all_cons. destruct (value_eqb k v); lia.
Qed.

(** An entry of count 0 in either sample leaves every pooled rank as it
    is. *)
Lemma rank_of_join_insert_zero_l (x1 x2 y : count_data) (k v : value) :
  rank_of (join_count_data [x1 ++ (k, 0) :: x2; y]) v =
  rank_of (join_count_data [x1 ++ x2; y]) v.
Proof.
  unfold rank_of, cursor_of.
  now rewrite !below_join, !dict_get_join, below_insert_zero,
    count_all_insert_zero.
Qed.

Lemma rank_of_join_insert_zero_r (x y1 y2 : count_data) (k v : value) :
  rank_of (join_count_data [x; y1 ++ (k, 0) :: y2]) v =
  rank_of (join_count_data [x; y1 ++ y2]) v.
Proof.
  unfold rank_of, cursor_of.
  now rewrite !below_join, !dict_get_join, below_insert_zero,
    count_all_insert_zero.
Qed.

(** ** The moments of lines 173-194 *)

Lemma dispersion_ok (rankc rank : dict Qc) (gc g : value -> Qc)
    (mc m : Qc) (x : count_data) (n : Z) :
  (forall v, In v (keys x) -> dict_getitem rankc v = Ok (gc v)) ->
  (forall v, In v (keys x) -> dict_getitem rank v = Ok (g v)) ->
  dispersion rankc rank mc m x n =
  py_div (wsum (fun v => (gc v - g v - mc + m) ^ 2)%Qc x) (Z2Qc (n - 1)).
Proof.
  intros Hc Hg. unfold dispersion.
  rewrite (mapM_ok _ (fun '(v, c) => ((gc v - g v - mc + m) ^ 2 * Z2Qc c)%Qc)).
  - reflexivity.
  - intros [v c] Hin. apply in_keys in Hin.
    rewrite (Hc v), (Hg v) by assumption. reflexivity.
Qed.

Lemma rank_mean_ok (rank : dict Qc) (g : value -> Qc) (x : count_data) (n : Z) :
  (forall v, In v (keys x) -> dict_getitem rank v = Ok (g v)) ->
  rank_mean rank x n = py_div (wsum g x) (Z2Qc n).
Proof.
  intros H. unfold rank_mean. now rewrite (weighted_ranks_ok rank g).
Qed.

Lemma bind_ext {A B : Type} (m : result A) (k k' : A -> result B) :
  (forall a, m = Ok a -> k a = k' a) -> bind m k = bind m k'.
Proof. destruct m; cbn; auto. Qed.

Lemma bm_moments_closed (x y : count_data) (nx ny : Z) :
  dict_wf x -> dict_wf y -> orderable x -> orderable y ->
  bm_moments x y nx ny =
  moments_of (rank_of (join_count_data [x; y])) (rank_of x) (rank_of y)
             x y nx ny.
Proof.
  intros Hwx Hwy Hox Hoy.
  assert (Hcx : forall v, In v (keys x) ->
            dict_getitem (ranks (join_count_data [x; y])) v =
            Ok (rank_of (join_count_data [x; y]) v)).
  { intros v Hv. apply ranks_getitem.
    - apply dict_wf_join.
    - now apply orderable_join.
    - apply keys_join. now left. }
  assert (Hcy : forall v, In v (keys y) ->
            dict_getitem (ranks (join_count_data [x; y])) v =
            Ok (rank_of (join_count_data [x; y]) v)).
  { intros v Hv. apply ranks_getitem.
    - apply dict_wf_join.
    - now apply orderable_join.
    - apply keys_join. now right. }
  assert (Hx : forall v, In v (keys x) ->
            dict_getitem (ranks x) v = Ok (rank_of x v)).
  { intros v Hv. now apply ranks_getitem. }
  assert (Hy : forall v, In v (keys y) ->
            dict_getitem (ranks y) v = Ok (rank_of y v)).
  { intros v Hv. now apply ranks_getitem. }
  unfold bm_moments, moments_of.
  rewrite (rank_count_data_spans (join_count_data [x; y])) by apply dict_wf_join.
  cbn [bind].
  rewrite (rank_mean_ok _ _ x nx Hcx). apply bind_ext. intros mcx _.
  rewrite (rank_mean_ok _ _ y ny Hcy). apply bind_ext. intros mcy _.
  rewrite !rank_count_data_spans by assumption. cbn [bind].
  rewrite (rank_mean_ok _ _ x nx Hx). apply bind_ext. intros mx _.
  rewrite (rank_mean_ok _ _ y ny Hy). apply bind_ext. intros my _.
  rewrite (dispersion_ok _ _ _ _ mcx mx x nx Hcx Hx).
  apply bind_ext. intros sx _.
  rewrite (dispersion_ok _ _ _ _ mcy my y ny Hcy Hy).
  reflexivity.
Qed.

Lemma wsum_app (g : value -> Qc) (x1 x2 : count_data) :
  wsum g (x1 ++ x2) = (wsum g x1 + wsum g x2)%Qc.
Proof.
  induction x1 as [| [v c] x1 IH].
  - cbn [app]. change (wsum g []) with (Z2Qc 0). rewrite Z2Qc_0. ring.
  - cbn [app]. rewrite !wsum_cons, IH. ring.
Qed.

Lemma wsum_insert_zero (g' g : value -> Qc) (x1 x2 : count_data) (k : value) :
  (forall v, In v (keys (x1 ++ x2)) -> g' v = g v) ->
  wsum g' (x1 ++ (k, 0) :: x2) = wsum g (x1 ++ x2).
Proof.
  intros H. rewrite !wsum_app, wsum_cons, Z2Qc_0.
  rewrite (wsum_ext g' g x1), (wsum_ext g' g x2).
  - ring.
  - intros v Hv. apply H. rewrite keys_app, in_app_iff. now right.
  - intros v Hv. apply H. rewrite keys_app, in_app_iff. now left.
Qed.

Lemma sample_size_app (x1 x2 : count_data) :
  sample_size (x1 ++ x2) = sample_size x1 + sample_size x2.
Proof.
  induction x1 as [| [v c] x1 IH]; [reflexivity |].
  cbn [app]. rewrite !sample_size_cons, IH. lia.
Qed.

Lemma sample_size_insert_zero (x1 x2 : count_data) (k : value) :
  sample_size (x1 ++ (k, 0) :: x2) = sample_size (x1 ++ x2).
Proof. rewrite !sample_size_app, sample_size_cons. lia. Qed.

(** An entry of count 0 in the first sample leaves the moments as they
    are. *)
Lemma moments_of_insert_zero_l (gc' gc gx' gx gy : value -> Qc)
    (x1 x2 y : count_data) (k : value) (nx ny : Z) :
  (forall v, gc' v = gc v) ->
  (forall v, In v (keys (x1 ++ x2)) -> gx' v = gx v) ->
  moments_of gc' gx' gy (x1 ++ (k, 0) :: x2) y nx ny =
  moments_of gc gx gy (x1 ++ x2) y nx ny.
Proof.
  intros Hc Hx. unfold moments_of.
  rewrite (wsum_insert_zero gc' gc) by auto.
  apply bind_ext. intros mcx _.
  rewrite (wsum_ext gc' gc y) by auto.
  apply bind_ext. intros mcy _.
  rewrite (wsum_insert_zero gx' gx) by auto.
  apply bind_ext. intros mx _.
  apply bind_ext. intros my _.
  rewrite (wsum_insert_zero
             (fun v => (gc' v - gx' v - mcx + mx) ^ 2)%Qc
             (fun v => (gc v - gx v - mcx + mx) ^ 2)%Qc)
    by (intros v Hv; now rewrite Hc, Hx).
  apply bind_ext. intros sx _.
  rewrite (wsum_ext (fun v => (gc' v - gy v - mcy + my) ^ 2)%Qc
                    (fun v => (gc v - gy v - mcy + my) ^ 2)%Qc y)
    by (intros v Hv; now rewrite Hc).
  reflexivity.
Qed.

Lemma moments_of_insert_zero_r (gc' gc gx gy' gy : value -> Qc)
    (x y1 y2 : count_data) (k : value) (nx ny : Z) :
  (forall v, gc' v = gc v) ->
  (forall v, In v (keys (y1 ++ y2)) -> gy' v = gy v) ->
  moments_of gc' gx gy' x (y1 ++ (k, 0) :: y2) nx ny =
  moments_of gc gx gy x (y1 ++ y2) nx ny.
Proof.
  intros Hc Hy. unfold moments_of.
  rewrite (wsum_ext gc' gc x) by auto.
  apply bind_ext. intros mcx _.
  rewrite (wsum_insert_zero gc' gc) by auto.
  apply bind_ext. intros mcy _.
  apply bind_ext. intros mx _.
  rewrite (wsum_insert_zero gy' gy) by auto.
  apply bind_ext. intros my _.
  rewrite (wsum_ext (fun v => (gc' v - gx v - mcx + mx) ^ 2)%Qc
                    (fun v => (gc v - gx v - mcx + mx) ^ 2)%Qc x)
    by (intros v Hv; now rewrite Hc).
  apply bind_ext. intros sx _.
  rewrite (wsum_insert_zero
             (fun v => (gc' v - gy' v - mcy + my) ^ 2)%Qc
             (fun v => (gc v - gy v - mcy + my) ^ 2)%Qc)
    by (intros v Hv; now rewrite Hc, Hy).
  reflexivity.
Qed.

(** ** The NaN policy *)

Lemma omit_nan_orderable (x : count_data) : orderable (omit_nan x).
Proof.
  apply orderable_spec. intros v Hv. unfold keys in Hv.
  apply in_map_iff in Hv. destruct Hv as [[u c] [<- Hin]].
  apply filter_In in Hin. destruct Hin as [_ Hin]. cbn.
  now apply negb_true_iff.
Qed.

Lemma omit_nan_id (x : count_data) :
  existsb isnan (keys x) = false -> omit_nan x = x.
Proof.
  intros H. apply filter_all. intros [v c] Hin.
  apply negb_true_iff. apply not_true_iff_false. intros Hv.
  apply not_true_iff_false in H. apply H. apply existsb_exists.
  exists v. split; [eapply in_keys; eauto | exact Hv].
Qed.

Lemma omit_nan_app (x1 x2 : count_data) :
  omit_nan (x1 ++ x2) = omit_nan x1 ++ omit_nan x2.
Proof. apply filter_app. Qed.

Lemma omit_nan_insert (x1 x2 : count_data) (k : value) (c : Z) :
  omit_nan (x1 ++ (k, c) :: x2) =
  if isnan k then omit_nan (x1 ++ x2)
  else omit_nan x1 ++ (k, c) :: omit_nan x2.
Proof.
  rewrite !omit_nan_app. unfold omit_nan at 2. cbn [filter].
  now destruct (isnan k).
Qed.

Lemma NoDup_filter_keys {V : Type} (f : value * V -> bool) (d : dict V) :
  NoDup (keys d) -> NoDup (keys (filter f d)).
Proof.
  induction d as [| [k c] d IH]; cbn; intros Hnd; [constructor |].
  inversion Hnd as [| ? ? Hnin Hnd']; subst.
  destruct (f (k, c)); cbn; [| auto].
  constructor; [| auto].
  intros Hin. apply Hnin. unfold keys in *.
  apply in_map_iff in Hin. destruct Hin as [[u e] [Hu Hin]].
  apply filter_In in Hin. apply in_map_iff. exists (u, e). tauto.
Qed.

Lemma omit_nan_wf (x : count_data) : dict_wf x -> dict_wf (omit_nan x).
Proof. rewrite !dict_wf_NoDup. apply NoDup_filter_keys. Qed.

Lemma existsb_isnan_insert {V : Type} (x1 x2 : dict V) (k : value) (c : V) :
  existsb isnan (keys (x1 ++ (k, c) :: x2)) =
  isnan k || existsb isnan (keys (x1 ++ x2)).
Proof.
  rewrite keys_insert, keys_app, !existsb_app. cbn [existsb].
  destruct (existsb isnan (keys x1)), (isnan k); reflexivity.
Qed.

Lemma negative_counts_insert_zero (x1 x2 : count_data) (k : value) :
  negative_counts (x1 ++ (k, 0) :: x2) = negative_counts (x1 ++ x2).
Proof.
  unfold negative_counts, values. rewrite !map_app, !filter_app. reflexivity.
Qed.

Section EngineProperties.

Variable np_sqrt : Qc -> npfloat.
Variable t_cdf : npfloat -> npfloat -> npfloat.
Variable norm_cdf : npfloat -> npfloat.

#[local] Abbreviation brunnermunzel := (brunnermunzel_from_count_data np_sqrt t_cdf norm_cdf).
#[local] Abbreviation test := (bm_test np_sqrt t_cdf norm_cdf).

(** Lines 155-167 decide between four outcomes. *)
Lemma brunnermunzel_unfold (x y : count_data)
    (alternative distribution nan_policy : string) :
  brunnermunzel x y alternative distribution nan_policy =
  match negative_counts x, negative_counts y with
  | [], [] =>
      if negb (valid_policy nan_policy) then
        Err (ValueError "nan_policy must be one of {'propagate', 'raise', 'omit'}")
      else if has_nan x y && String.eqb nan_policy "raise" then
        Err (ValueError "The input contains nan values")
      else if has_nan x y && String.eqb nan_policy "propagate" then
        Ok (np_nan, np_nan)
      else test (omit_nan x) (omit_nan y) alternative distribution
  | _, _ => Err (ValueError "The input contains negative counts")
  end.
Proof.
  unfold brunnermunzel_from_count_data.
  destruct (negative_counts x); [| reflexivity].
  destruct (negative_counts y); [| reflexivity].
  unfold _contains_nan, has_nan, valid_policy. 
  pose proof (omit_nan_id x) as Hx. pose proof (omit_nan_id y) as Hy.
  destruct (existsb isnan (keys x)), (existsb isnan (keys y));
    try rewrite (Hx eq_refl); try rewrite (Hy eq_refl); clear Hx Hy;
    (destruct (String.eqb_spec nan_policy "propagate") as [-> | H1];
     [reflexivity |]);
    (destruct (String.eqb_spec nan_policy "raise") as [-> | H2];
     [reflexivity |]);
    (destruct (String.eqb_spec nan_policy "omit") as [-> | H3];
     [reflexivity |]);
    cbn [existsb negb orb andb bind];
    repeat match goal with
           | H : nan_policy <> _ |- _ =>
               apply String.eqb_neq in H; rewrite ?H
           end; reflexivity.
Qed.

Lemma negative_counts_nonempty (x : count_data) (c : Z) :
  In c (values x) -> c < 0 -> negative_counts x <> [].
Proof.
  intros Hin Hc Hnil.
  assert (H : In c (negative_counts x)).
  { apply filter_In. split; [exact Hin | now apply Z.ltb_lt]. }
  rewrite Hnil in H. exact H.
Qed.

(** C4. A negative count in [x] or in [y] makes the call fail with the
    ValueError of line 156, whatever the alternative, the distribution and
    the NaN policy are (valid or not): nothing else is looked at before.
    So does [x = {0: -1, 1: 2}], [y = {0: 1, 1: 2}]. *)
Theorem negative_counts_rejected (x y : count_data)
    (alternative distribution nan_policy : string) :
  (exists c, In c (values x) /\ c < 0) \/ (exists c, In c (values y) /\ c < 0) ->
  brunnermunzel x y alternative distribution nan_policy =
    Err (ValueError "The input contains negative counts") /\
  brunnermunzel negative_x one_two alternative distribution nan_policy =
    Err (ValueError "The input contains negative counts").
Proof.
  intros H. split; [| reflexivity].
  unfold brunnermunzel_from_count_data.
  destruct H as [[c [Hin Hc]] | [c [Hin Hc]]];
    pose proof (negative_counts_nonempty _ c Hin Hc) as Hne.
  - destruct (negative_counts x); [congruence | reflexivity].
  - destruct (negative_counts y); [congruence |].
    now destruct (negative_counts x).
Qed.

(** C5, as the code has it.  With non-negative counts and one of the
    three policies, and unless the marker is a key under the policy
    [raise] (the call fails then, line 157-158), the result is the pair
    (NaN, NaN) when the marker is a key under the policy [propagate], and
    when a sample is of size 0 once the entries of the marker are left
    out.  So it is for [x = {}], [y = {0: 1, 1: 2}]. *)
Theorem degenerate_samples_give_nan (x y : count_data)
    (alternative distribution nan_policy : string) :
  negative_counts x = [] -> negative_counts y = [] ->
  valid_policy nan_policy = true ->
  has_nan x y && String.eqb nan_policy "raise" = false ->
  (has_nan x y = true /\ nan_policy = "propagate"%string) \/
  sample_size (omit_nan x) = 0 \/ sample_size (omit_nan y) = 0 ->
  brunnermunzel x y alternative distribution nan_policy = Ok (np_nan, np_nan) /\
  brunnermunzel [] one_two alternative distribution nan_policy =
    Ok (np_nan, np_nan).
Proof.
  intros Hx Hy Hvalid Hraise Hcase.
  assert (Hex : brunnermunzel [] one_two alternative distribution nan_policy =
                Ok (np_nan, np_nan)).
  { rewrite brunnermunzel_unfold. cbn [negative_counts values map filter].
    cbn -[valid_policy]. rewrite Hvalid. reflexivity. }
  split; [| exact Hex].
  rewrite brunnermunzel_unfold, Hx, Hy, Hvalid, Hraise. cbn [negb].
  destruct Hcase as [[Hnan ->] | Hsize].
  - now rewrite Hnan.
  - destruct (has_nan x y && String.eqb nan_policy "propagate");
      [reflexivity |].
    unfold bm_test.
    destruct Hsize as [-> | ->]; [reflexivity |].
    now rewrite orb_true_r.
Qed.

(** ** Samples of size one *)

Lemma py_div_ok (a : Qc) (n : Z) :
  n <> 0 -> py_div a (Z2Qc n) = Ok (a / Z2Qc n)%Qc.
Proof.
  intros Hn. unfold py_div. rewrite Z2Qc_eqb.
  destruct (Z.eqb_spec n 0); [contradiction | reflexivity].
Qed.

Lemma py_div_zero (a : Qc) : py_div a (Z2Qc 0) = Err ZeroDivisionError.
Proof. unfold py_div. now rewrite Qc_eqb_refl. Qed.

Lemma py_div_inv (a b q : Qc) :
  py_div a b = Ok q -> b <> Z2Qc 0 /\ q = (a / b)%Qc.
Proof.
  unfold py_div. destruct (Qc_eqb b (Z2Qc 0)) eqn:E; [discriminate |].
  intros H. inversion H. split; [now apply Qc_eqb_neq | reflexivity].
Qed.

Lemma orderable_no_nan {V : Type} (d : dict V) :
  orderable d -> existsb isnan (keys d) = false.
Proof.
  intros H. rewrite orderable_spec in H.
  apply not_true_iff_false. intros Hex. apply existsb_exists in Hex.
  destruct Hex as [v [Hin Hv]]. rewrite (H v Hin) in Hv. discriminate.
Qed.

(** Without NaN keys the call is the test of lines 169-219. *)
Lemma brunnermunzel_orderable (x y : count_data)
    (alternative distribution nan_policy : string) :
  orderable x -> orderable y ->
  negative_counts x = [] -> negative_counts y = [] ->
  valid_policy nan_policy = true ->
  brunnermunzel x y alternative distribution nan_policy =
  test x y alternative distribution.
Proof.
  intros Hox Hoy Hx Hy Hvalid.
  rewrite brunnermunzel_unfold, Hx, Hy, Hvalid. unfold has_nan.
  rewrite !orderable_no_nan by assumption. cbn [negb orb andb].
  now rewrite !omit_nan_id by now apply orderable_no_nan.
Qed.

(** A sample of size 1 next to a sample that is not empty: the division
    by [n - 1] of line 187 or 194 raises. *)
Lemma size_one_raises (x y : count_data)
    (alternative distribution nan_policy : string) :
  dict_wf x -> dict_wf y -> orderable x -> orderable y ->
  negative_counts x = [] -> negative_counts y = [] ->
  valid_policy nan_policy = true ->
  (sample_size x = 1 /\ sample_size y <> 0) \/
  (sample_size y = 1 /\ sample_size x <> 0) ->
  brunnermunzel x y alternative distribution nan_policy =
  Err ZeroDivisionError.
Proof.
  intros Hwx Hwy Hox Hoy Hx Hy Hvalid Hsize.
  rewrite brunnermunzel_orderable by assumption.
  unfold bm_test.
  assert (Hnx : sample_size x <> 0) by (destruct Hsize as [[-> _] | [_ H]]; lia).
  assert (Hny : sample_size y <> 0) by (destruct Hsize as [[_ H] | [-> _]]; lia).
  destruct (Z.eqb_spec (sample_size x) 0) as [| _]; [contradiction |].
  destruct (Z.eqb_spec (sample_size y) 0) as [| _]; [contradiction |].
  cbn [orb]. rewrite bm_moments_closed by assumption.
  unfold moments_of. rewrite !py_div_ok by assumption. cbn [bind].
  destruct (Z.eq_dec (sample_size x) 1) as [E | E].
  - rewrite E. change (1 - 1) with 0. now rewrite py_div_zero.
  - assert (E' : sample_size y = 1) by (destruct Hsize as [[? _] | [? _]]; congruence).
    rewrite py_div_ok by lia. cbn [bind].
    rewrite E'. change (1 - 1) with 0. now rewrite py_div_zero.
Qed.

(** For [x = {0: 1}], [y = {0: 1, 1: 2}] the call raises
    ZeroDivisionError under each of the three policies and whatever the
    alternative and the distribution are. *)
Lemma size_one_sample_raises (alternative distribution : string) :
  brunnermunzel single one_two alternative distribution "propagate" =
    Err ZeroDivisionError /\
  brunnermunzel single one_two alternative distribution "raise" =
    Err ZeroDivisionError /\
  brunnermunzel single one_two alternative distribution "omit" =
    Err ZeroDivisionError.
Proof.
  repeat split; apply size_one_raises;
    first [reflexivity | left; split; [reflexivity | discriminate]].
Qed.

(** ** Entries of count 0 *)

Lemma bm_test_insert_zero_l (x1 x2 y : count_data) (k : value)
    (alternative distribution : string) :
  dict_wf (x1 ++ (k, 0) :: x2) -> orderable (x1 ++ (k, 0) :: x2) ->
  dict_wf y -> orderable y ->
  test (x1 ++ (k, 0) :: x2) y alternative distribution =
  test (x1 ++ x2) y alternative distribution.
Proof.
  intros Hwx' Hox' Hwy Hoy.
  destruct (proj1 (dict_wf_insert x1 x2 k 0) Hwx') as [Hwx Hnin].
  destruct (proj1 (orderable_insert x1 x2 k 0) Hox') as [Hox Hk].
  unfold bm_test. rewrite sample_size_insert_zero.
  rewrite !bm_moments_closed by assumption.
  rewrite (moments_of_insert_zero_l _
             (rank_of (join_count_data [x1 ++ x2; y])) _ (rank_of (x1 ++ x2))).
  - reflexivity.
  - intros v. apply rank_of_join_insert_zero_l.
  - intros v Hv. apply rank_of_insert_zero. intros ->. contradiction.
Qed.

Lemma bm_test_insert_zero_r (x y1 y2 : count_data) (k : value)
    (alternative distribution : string) :
  dict_wf (y1 ++ (k, 0) :: y2) -> orderable (y1 ++ (k, 0) :: y2) ->
  dict_wf x -> orderable x ->
  test x (y1 ++ (k, 0) :: y2) alternative distribution =
  test x (y1 ++ y2) alternative distribution.
Proof.
  intros Hwy' Hoy' Hwx Hox.
  destruct (proj1 (dict_wf_insert y1 y2 k 0) Hwy') as [Hwy Hnin].
  destruct (proj1 (orderable_insert y1 y2 k 0) Hoy') as [Hoy Hk].
  unfold bm_test. rewrite sample_size_insert_zero.
  rewrite !bm_moments_closed by assumption.
  rewrite (moments_of_insert_zero_r _
             (rank_of (join_count_data [x; y1 ++ y2])) _ _ (rank_of (y1 ++ y2))).
  - reflexivity.
  - intros v. apply rank_of_join_insert_zero_r.
  - intros v Hv. apply rank_of_insert_zero. intros ->. contradiction.
Qed.

Lemma has_nan_insert_l (z1 z2 o : count_data) (k : value) (c : Z) :
  has_nan (z1 ++ (k, c) :: z2) o = isnan k || has_nan (z1 ++ z2) o.
Proof.
  unfold has_nan. rewrite existsb_isnan_insert. now rewrite orb_assoc.
Qed.

Lemma has_nan_insert_r (z1 z2 o : count_data) (k : value) (c : Z) :
  has_nan o (z1 ++ (k, c) :: z2) = isnan k || has_nan o (z1 ++ z2).
Proof.
  unfold has_nan. rewrite existsb_isnan_insert.
  destruct (existsb isnan (keys o)), (isnan k); reflexivity.
Qed.

Lemma has_nan_comm (x y : count_data) : has_nan x y = has_nan y x.
Proof. apply orb_comm. Qed.

(** The test on the maps without the marker does not see an entry of
    count 0, whatever its key is. *)
Lemma test_omit_insert_zero (z1 z2 o : count_data) (k : value)
    (alternative distribution : string) :
  dict_wf (z1 ++ (k, 0) :: z2) -> dict_wf o ->
  test (omit_nan (z1 ++ (k, 0) :: z2)) (omit_nan o) alternative distribution =
    test (omit_nan (z1 ++ z2)) (omit_nan o) alternative distribution /\
  test (omit_nan o) (omit_nan (z1 ++ (k, 0) :: z2)) alternative distribution =
    test (omit_nan o) (omit_nan (z1 ++ z2)) alternative distribution.
Proof.
  intros Hwz Hwo.
  pose proof (omit_nan_wf _ Hwz) as Hw'.
  pose proof (omit_nan_orderable (z1 ++ (k, 0) :: z2)) as Ho'.
  rewrite omit_nan_insert in *. destruct (isnan k).
  - split; reflexivity.
  - rewrite omit_nan_app. split.
    + apply bm_test_insert_zero_l; auto using omit_nan_wf, omit_nan_orderable.
    + apply bm_test_insert_zero_r; auto using omit_nan_wf, omit_nan_orderable.
Qed.

(** C9, as the code has it.  An entry [k: 0] added to either map, at any
    place, for a key [k] the map does not have, leaves the outcome of the
    call as it is (the pair, or the error raised), provided that [k] is
    not the missing-value marker, or the policy is [omit], or the marker
    is a key of one of the maps already. *)
Theorem zero_count_entry_is_inert (z1 z2 o : count_data) (k : value)
    (alternative distribution nan_policy : string) :
  dict_wf (z1 ++ (k, 0) :: z2) -> dict_wf o ->
  isnan k = false \/ nan_policy = "omit"%string \/
    has_nan (z1 ++ z2) o = true ->
  brunnermunzel (z1 ++ (k, 0) :: z2) o alternative distribution nan_policy =
    brunnermunzel (z1 ++ z2) o alternative distribution nan_policy /\
  brunnermunzel o (z1 ++ (k, 0) :: z2) alternative distribution nan_policy =
    brunnermunzel o (z1 ++ z2) alternative distribution nan_policy.
Proof.
  intros Hwz Hwo Hcase.
  destruct (test_omit_insert_zero z1 z2 o k alternative distribution Hwz Hwo)
    as [Hl Hr].
  rewrite !brunnermunzel_unfold, negative_counts_insert_zero.
  rewrite has_nan_insert_l, has_nan_insert_r, Hl, Hr.
  rewrite (has_nan_comm o (z1 ++ z2)).
  destruct Hcase as [-> | [-> | ->]].
  - split; reflexivity.
  - rewrite !andb_false_r. split; reflexivity.
  - rewrite orb_true_r. split; reflexivity.
Qed.

(** ** The two samples exchanged *)

Lemma Qc_opp_eq_0 (a : Qc) : Qc_eqb (- a) (Z2Qc 0) = Qc_eqb a (Z2Qc 0).
Proof.
  rewrite Z2Qc_0. destruct (Qc_eqb a 0) eqn:E.
  - apply Qc_eqb_eq in E. subst. apply Qc_eqb_eq. ring.
  - apply Qc_eqb_neq. apply Qc_eqb_neq in E. intros H. apply E.
    replace a with (- - a)%Qc by ring. rewrite H. ring.
Qed.

Lemma Qc_opp_ltb (a : Qc) : Qc_ltb 0 (- a) = Qc_ltb a 0.
Proof.
  apply eq_true_iff_eq. rewrite !Qc_ltb_lt.
  rewrite (Qclt_minus_iff a 0).
  replace (0 + - a)%Qc with (- a)%Qc by ring. reflexivity.
Qed.

Lemma Qc_opp_pos (a : Qc) :
  Qc_eqb a (Z2Qc 0) = false ->
  Qc_ltb (Z2Qc 0) (- a) = negb (Qc_ltb (Z2Qc 0) a).
Proof.
  rewrite Z2Qc_0, Qc_opp_ltb. intros Hne. apply Qc_eqb_neq in Hne.
  destruct (Qc_ltb 0 a) eqn:E; cbn [negb].
  - now apply Qc_ltb_asym.
  - destruct (Qc_ltb a 0) eqn:E'; [reflexivity |].
    exfalso. apply Hne. now apply Qc_ltb_total.
Qed.

Lemma np_signed_inf_opp (a : Qc) :
  np_signed_inf (- a) = np_neg (np_signed_inf a).
Proof.
  unfold np_signed_inf. rewrite Qc_opp_eq_0.
  destruct (Qc_eqb a (Z2Qc 0)) eqn:E; [reflexivity |].
  rewrite Qc_opp_pos by exact E.
  now destruct (Qc_ltb (Z2Qc 0) a).
Qed.

(** Dividing the opposite number gives the opposite quotient. *)
Lemma np_div_opp (a : Qc) (b : npfloat) :
  np_div (np_fin (- a)) b = np_neg (np_div (np_fin a) b).
Proof.
  destruct b as [q | | |]; cbn [np_div np_neg].
  - destruct (Qc_eqb q (Z2Qc 0)) eqn:E.
    + apply np_signed_inf_opp.
    + cbn [np_neg]. f_equal. unfold Qcdiv. ring.
  - apply f_equal. now apply Qc_is_canon.
  - apply f_equal. now apply Qc_is_canon.
  - reflexivity.
Qed.

Ltac bind_inv H :=
  repeat match type of H with
         | bind ?m _ = Ok _ =>
             let E := fresh "E" in
             destruct m eqn:E; cbn [bind] in H; [| discriminate H]
         end.

Lemma moments_of_swap (gc' gc gx gy : value -> Qc) (x y : count_data)
    (nx ny : Z) (m : moments) :
  (forall v, gc' v = gc v) ->
  moments_of gc gx gy x y nx ny = Ok m ->
  moments_of gc' gy gx y x ny nx =
  Ok (Moments (rankcy_mean m) (rankcx_mean m) (Sy m) (Sx m)).
Proof.
  intros Hc H. unfold moments_of in *. bind_inv H.
  inversion H; subst m; clear H. cbn [rankcx_mean rankcy_mean Sx Sy].
  rewrite (wsum_ext gc' gc y) by auto. rewrite E0. cbn [bind].
  rewrite (wsum_ext gc' gc x) by auto. rewrite E. cbn [bind].
  rewrite ?E2, ?E1. cbn [bind].
  rewrite (wsum_ext (fun v => (gc' v - gy v - a0 + a2) ^ 2)%Qc
                    (fun v => (gc v - gy v - a0 + a2) ^ 2)%Qc y)
    by (intros v _; now rewrite Hc).
  rewrite E4. cbn [bind].
  rewrite (wsum_ext (fun v => (gc' v - gx v - a + a1) ^ 2)%Qc
                    (fun v => (gc v - gx v - a + a1) ^ 2)%Qc x)
    by (intros v _; now rewrite Hc).
  rewrite E3. reflexivity.
Qed.

Lemma bm_moments_swap (x y : count_data) (nx ny : Z) (m : moments) :
  dict_wf x -> dict_wf y -> orderable x -> orderable y ->
  bm_moments x y nx ny = Ok m ->
  bm_moments y x ny nx =
  Ok (Moments (rankcy_mean m) (rankcx_mean m) (Sy m) (Sx m)).
Proof.
  intros Hwx Hwy Hox Hoy H.
  rewrite bm_moments_closed in * by assumption.
  apply (moments_of_swap _ (rank_of (join_count_data [x; y]))); [| exact H].
  intros v. apply rank_of_join_comm.
Qed.

Lemma bm_wbfn_swap (nx ny : Z) (m : moments) :
  bm_wbfn np_sqrt ny nx
    (Moments (rankcy_mean m) (rankcx_mean m) (Sy m) (Sx m)) =
  np_neg (bm_wbfn np_sqrt nx ny m).
Proof.
  unfold bm_wbfn, pooled. cbn [rankcx_mean rankcy_mean Sx Sy].
  rewrite <- np_div_opp. f_equal.
  - f_equal. autorewrite with z2qc. ring.
  - do 2 f_equal.
    + f_equal. lia.
    + ring.
Qed.

Lemma bm_pvalue_ok (nx ny : Z) (m : moments) (w : npfloat) (distribution : string) :
  distribution = "t"%string \/ distribution = "normal"%string ->
  exists p, bm_pvalue t_cdf norm_cdf nx ny m w distribution = Ok p.
Proof.
  intros [-> | ->]; eexists; reflexivity.
Qed.

Lemma bm_alternative_ok (p : npfloat) (alternative : string) :
  alternative = "two-sided"%string \/ alternative = "less"%string \/
  alternative = "greater"%string ->
  exists p', bm_alternative p alternative = Ok p'.
Proof.
  intros [-> | [-> | ->]]; eexists; reflexivity.
Qed.

(** Both samples of size at least 2: lines 173-194 yield moments. *)
Lemma bm_moments_defined (x y : count_data) :
  dict_wf x -> dict_wf y -> orderable x -> orderable y ->
  2 <= sample_size x -> 2 <= sample_size y ->
  exists m, bm_moments x y (sample_size x) (sample_size y) = Ok m.
Proof.
  intros Hwx Hwy Hox Hoy Hnx Hny.
  rewrite bm_moments_closed by assumption. unfold moments_of.
  rewrite !py_div_ok by lia. cbn [bind].
  rewrite !py_div_ok by lia. cbn [bind].
  eexists. reflexivity.
Qed.

(** C10.  For maps without negative counts and without NaN keys, both of
    size at least 1, for which lines 173-194 yield the moments [m] with
    [nx * Sx + ny * Sy] not zero: the call returns a pair in both orders
    of the samples, and the statistic of [(y, x)] is the opposite of the
    statistic of [(x, y)].  (The moments exist when both sizes are at
    least 2, [bm_moments_defined]; at size 1 the call raises,
    [size_one_raises], and there is no dispersion term.) *)
Theorem statistic_antisymmetric (x y : count_data) (m : moments)
    (alternative distribution nan_policy : string) :
  dict_wf x -> dict_wf y ->
  negative_counts x = [] -> negative_counts y = [] ->
  orderable x -> orderable y ->
  1 <= sample_size x -> 1 <= sample_size y ->
  bm_moments x y (sample_size x) (sample_size y) = Ok m ->
  pooled (sample_size x) (sample_size y) m <> Z2Qc 0 ->
  alternative = "two-sided"%string \/ alternative = "less"%string \/
    alternative = "greater"%string ->
  distribution = "t"%string \/ distribution = "normal"%string ->
  valid_policy nan_policy = true ->
  exists w p w' p',
    brunnermunzel x y alternative distribution nan_policy = Ok (w, p) /\
    brunnermunzel y x alternative distribution nan_policy = Ok (w', p') /\
    w = bm_wbfn np_sqrt (sample_size x) (sample_size y) m /\
    w' = np_neg w.
Proof.
  intros Hwx Hwy Hx Hy Hox Hoy Hnx Hny Hm _ Halt Hdist Hvalid.
  rewrite !brunnermunzel_orderable by assumption.
  unfold bm_test.
  destruct (Z.eqb_spec (sample_size x) 0) as [| _]; [lia |].
  destruct (Z.eqb_spec (sample_size y) 0) as [| _]; [lia |].
  cbn [orb]. rewrite Hm, (bm_moments_swap x y _ _ m) by assumption.
  cbn [bind]. rewrite bm_wbfn_swap.
  set (w := bm_wbfn np_sqrt (sample_size x) (sample_size y) m).
  destruct (bm_pvalue_ok (sample_size x) (sample_size y) m w distribution Hdist)
    as [p0 Hp0].
  destruct (bm_pvalue_ok (sample_size y) (sample_size x)
              (Moments (rankcy_mean m) (rankcx_mean m) (Sy m) (Sx m))
              (np_neg w) distribution Hdist) as [p0' Hp0'].
  destruct (bm_alternative_ok p0 alternative Halt) as [p Hp].
  destruct (bm_alternative_ok p0' alternative Halt) as [p' Hp'].
  exists w, p, (np_neg w), p'.
  rewrite Hp0, Hp0'. cbn [bind]. rewrite Hp, Hp'. cbn [bind].
  repeat split; reflexivity.
Qed.

End EngineProperties.

(** ** The engine on concrete samples *)

Lemma negative_counts_rejected_witness :
  (exists c, In c (values negative_x) /\ c < 0) /\
  brunnermunzel_from_count_data floor_sqrt step_t_cdf step_cdf
    negative_x one_two "two-sided" "t" "propagate" =
  Err (ValueError "The input contains negative counts").
Proof.
  assert (H : exists c, In c (values negative_x) /\ c < 0).
  { exists (-1). split; [now left | reflexivity]. }
  split; [exact H |].
  exact (proj1 (negative_counts_rejected floor_sqrt step_t_cdf step_cdf
                  negative_x one_two "two-sided" "t" "propagate"
                  (or_introl H))).
Defined.

Lemma degenerate_samples_give_nan_witness :
  sample_size (omit_nan nan_thrice) = 0 /\
  brunnermunzel_from_count_data floor_sqrt step_t_cdf step_cdf
    nan_thrice one_two "two-sided" "t" "omit" = Ok (np_nan, np_nan).
Proof.
  split; [reflexivity |].
  refine (proj1 (degenerate_samples_give_nan floor_sqrt step_t_cdf step_cdf
                   nan_thrice one_two "two-sided" "t" "omit" _ _ _ _ _)).
  - reflexivity.
  - reflexivity.
  - reflexivity.
  - reflexivity.
  - right. left. reflexivity.
Defined.

(** C5 as stated fails: [x = {}] is of size 0, and with [y = {nan: 1}]
    under the policy [raise] the call fails instead of returning
    (NaN, NaN). *)
Lemma empty_sample_with_nan_under_raise :
  sample_size [] = 0 /\
  negative_counts [] = [] /\ negative_counts nan_once = [] /\
  brunnermunzel_from_count_data floor_sqrt step_t_cdf step_cdf
    [] nan_once "two-sided" "t" "raise" =
  Err (ValueError "The input contains nan values").
Proof. repeat split. Qed.

Lemma zero_count_entry_is_inert_witness :
  dict_wf ([] ++ (key 0, 0) :: [(key 1, 2); (Num (Q2Qc (5 # 2)), 3)]) /\
  dict_wf one_two_three /\
  brunnermunzel_from_count_data floor_sqrt step_t_cdf step_cdf
    ([] ++ (key 0, 0) :: [(key 1, 2); (Num (Q2Qc (5 # 2)), 3)]) one_two_three
    "two-sided" "t" "propagate" =
  brunnermunzel_from_count_data floor_sqrt step_t_cdf step_cdf
    ([] ++ [(key 1, 2); (Num (Q2Qc (5 # 2)), 3)]) one_two_three
    "two-sided" "t" "propagate".
Proof.
  assert (Hz : dict_wf ([] ++ (key 0, 0) ::
                          [(key 1, 2); (Num (Q2Qc (5 # 2)), 3)]))
    by reflexivity.
  assert (Ho : dict_wf one_two_three) by reflexivity.
  split; [exact Hz |]. split; [exact Ho |].
  exact (proj1 (zero_count_entry_is_inert floor_sqrt step_t_cdf step_cdf
                  [] [(key 1, 2); (Num (Q2Qc (5 # 2)), 3)] one_two_three
                  (key 0) "two-sided" "t" "propagate" Hz Ho
                  (or_introl eq_refl))).
Defined.

(** C9 as stated fails for the key NaN.  Under [raise], [x = {}] gives
    (NaN, NaN) and [x = {nan: 0}] makes the call fail; under
    [propagate], the samples of the docstring give a number as the
    statistic, and (NaN, NaN) once [nan: 0] is added to the first. *)
Lemma nan_key_of_count_zero_is_not_inert :
  (brunnermunzel_from_count_data floor_sqrt step_t_cdf step_cdf
     ([] ++ []) one_two "two-sided" "t" "raise" = Ok (np_nan, np_nan) /\
   brunnermunzel_from_count_data floor_sqrt step_t_cdf step_cdf
     ([] ++ (NaN, 0) :: []) one_two "two-sided" "t" "raise" =
   Err (ValueError "The input contains nan values")) /\
  ((exists w p,
       brunnermunzel_from_count_data floor_sqrt step_t_cdf step_cdf
         (doc_x1 ++ []) doc_x2 "two-sided" "t" "propagate" =
       Ok (np_fin w, p)) /\
   brunnermunzel_from_count_data floor_sqrt step_t_cdf step_cdf
     (doc_x1 ++ (NaN, 0) :: []) doc_x2 "two-sided" "t" "propagate" =
   Ok (np_nan, np_nan)).
Proof.
  split; [split; reflexivity |]. split; [| reflexivity].
  eexists. eexists. vm_compute. reflexivity.
Qed.

Lemma doc_moments_eq :
  bm_moments doc_x1 doc_x2 (sample_size doc_x1) (sample_size doc_x2) =
  Ok doc_moments.
Proof. eval_eq. Qed.

Lemma statistic_antisymmetric_witness :
  pooled (sample_size doc_x1) (sample_size doc_x2) doc_moments <> Z2Qc 0 /\
  exists w p w' p',
    brunnermunzel_from_count_data floor_sqrt step_t_cdf step_cdf
      doc_x1 doc_x2 "two-sided" "t" "propagate" = Ok (w, p) /\
    brunnermunzel_from_count_data floor_sqrt step_t_cdf step_cdf
      doc_x2 doc_x1 "two-sided" "t" "propagate" = Ok (w', p') /\
    w' = np_neg w.
Proof.
  assert (Hp : pooled (sample_size doc_x1) (sample_size doc_x2) doc_moments
               <> Z2Qc 0).
  { intros H. apply (f_equal this) in H. vm_compute in H. discriminate H. }
  split; [exact Hp |].
  destruct (statistic_antisymmetric floor_sqrt step_t_cdf step_cdf
              doc_x1 doc_x2 doc_moments "two-sided" "t" "propagate")
    as [w [p [w' [p' [H1 [H2 [_ H3]]]]]]].
  - reflexivity.
  - reflexivity.
  - reflexivity.
  - reflexivity.
  - reflexivity.
  - reflexivity.
  - vm_compute. discriminate.
  - vm_compute. discriminate.
  - exact doc_moments_eq.
  - exact Hp.
  - left. reflexivity.
  - left. reflexivity.
  - reflexivity.
  - exists w, p, w', p'. repeat split; assumption.
Defined.

(** ** Average ranks of a sequence *)

Lemma count_if_cons (f : value -> bool) (u : value) (a : list value) :
  count_if f (u :: a) = (if f u then 1 else 0) + count_if f a.
Proof. reflexivity. Qed.

Lemma count_if_app (f : value -> bool) (a b : list value) :
  count_if f (a ++ b) = count_if f a + count_if f b.
Proof.
  induction a as [| u a IH]; [reflexivity |].
  cbn [app]. rewrite !count_if_cons, IH. lia.
Qed.

Lemma count_if_perm (f : value -> bool) (a b : list value) :
  Permutation a b -> count_if f a = count_if f b.
Proof.
  induction 1; rewrite ?count_if_cons in *; lia.
Qed.

Lemma count_if_none (f : value -> bool) (a : list value) :
  (forall u, In u a -> f u = false) -> count_if f a = 0.
Proof.
  induction a as [| u a IH]; intros H; [reflexivity |].
  rewrite count_if_cons, (H u) by now left.
  rewrite IH; [reflexivity |]. intros w Hw. apply H. now right.
Qed.

Lemma count_if_nonneg (f : value -> bool) (a : list value) :
  0 <= count_if f a.
Proof.
  induction a as [| u a IH]; [reflexivity |].
  rewrite count_if_cons. destruct (f u); lia.
Qed.

Lemma count_if_in (a : list value) (e : value) :
  In e a -> 1 <= count_if (fun u => value_eqb u e) a.
Proof.
  induction a as [| u a IH]; intros Hin; [contradiction |].
  rewrite count_if_cons.
  pose proof (count_if_nonneg (fun u => value_eqb u e) a) as Hpos.
  destruct Hin as [-> | Hin].
  - rewrite value_eqb_refl. lia.
  - specialize (IH Hin). destruct (value_eqb u e); lia.
Qed.

Lemma tied_ranks_length (s : list value) (e : value) :
  forall i,
    Z.of_nat (List.length (tied_ranks s e i)) =
    count_if (fun u => value_eqb u e) s.
Proof.
  induction s as [| u s IH]; intros i; [reflexivity |].
  rewrite count_if_cons. cbn [tied_ranks].
  destruct (value_eqb u e); cbn [List.length]; rewrite <- (IH (i + 1)); lia.
Qed.

(** In a sorted sequence the occurrences of [e] stand in a row, after
    the observations below [e]. *)
Lemma tied_ranks_sum (s : list value) (e : value) :
  StronglySorted value_le s ->
  (forall u, In u s -> isnan u = false) -> isnan e = false ->
  forall i,
    2 * fold_right Z.add 0 (tied_ranks s e i) =
    count_if (fun u => value_eqb u e) s *
    (2 * (i + count_if (fun u => value_ltb u e) s) +
     count_if (fun u => value_eqb u e) s - 1).
Proof.
  intros Hs Hnan He. induction s as [| u s IH]; intros i; [reflexivity |].
  inversion Hs as [| ? ? Hs' Hall]; subst.
  rewrite Forall_forall in Hall.
  assert (Hnan' : forall w, In w s -> isnan w = false)
    by (intros w Hw; apply Hnan; now right).
  specialize (IH Hs' Hnan' (i + 1)).
  rewrite !count_if_cons. cbn [tied_ranks].
  destruct (value_eqb u e) eqn:Eeq.
  - apply value_eqb_eq in Eeq. subst u. rewrite value_ltb_irrefl.
    assert (HL : count_if (fun w => value_ltb w e) s = 0).
    { apply count_if_none. intros w Hw. exact (Hall w Hw). }
    rewrite HL in *. cbn [fold_right]. nia.
  - destruct (value_ltb u e) eqn:Elt.
    + rewrite IH. ring.
    + assert (Hlt : value_ltb e u = true).
      { destruct (value_ltb e u) eqn:E'; [reflexivity |].
        apply value_eqb_neq in Eeq. exfalso. apply Eeq.
        apply value_ltb_total; auto. apply Hnan. now left. }
      assert (HE : count_if (fun w => value_eqb w e) s = 0).
      { apply count_if_none. intros w Hw. apply value_eqb_neq. intros ->.
        specialize (Hall e Hw). unfold value_le in Hall. congruence. }
      rewrite HE in *. lia.
Qed.

Lemma Qc_div_eq (a b c d : Qc) :
  b <> 0%Qc -> d <> 0%Qc -> (a * d = c * b)%Qc -> (a / b = c / d)%Qc.
Proof.
  intros Hb Hd H.
  replace a with (a * d / d)%Qc by (field; exact Hd).
  rewrite H. field. split; assumption.
Qed.

Lemma Z2Qc_neq_0 (n : Z) : n <> 0 -> Z2Qc n <> 0%Qc.
Proof. rewrite <- Z2Qc_0. intros Hn H. now apply Z2Qc_inj in H. Qed.

(** The average rank of an observation of a sequence of comparable
    values: the midpoint of the span its ties occupy. *)
Lemma average_rank_midrank (a : list value) (e : value) :
  (forall u, In u a -> isnan u = false) -> In e a ->
  average_rank a e =
  midrank (1 + count_if (fun u => value_ltb u e) a,
           1 + count_if (fun u => value_ltb u e) a +
           count_if (fun u => value_eqb u e) a - 1).
Proof.
  intros Hnan Hin. unfold average_rank, midrank. cbn [fst snd].
  assert (Hs : StronglySorted value_le (sorted a)) by now apply sorted_sorted.
  assert (Hnan' : forall u, In u (sorted a) -> isnan u = false)
    by (intros u Hu; apply Hnan; now apply sorted_in).
  pose proof (tied_ranks_sum (sorted a) e Hs Hnan' (Hnan e Hin) 1) as Hsum.
  rewrite tied_ranks_length.
  rewrite (count_if_perm _ _ _ (sorted_perm a)) in *.
  rewrite (count_if_perm (fun u => value_ltb u e) _ _ (sorted_perm a)) in Hsum.
  pose proof (count_if_in a e Hin) as HE.
  set (E := count_if (fun u => value_eqb u e) a) in *.
  set (L := count_if (fun u => value_ltb u e) a) in *.
  set (S := fold_right Z.add 0 (tied_ranks (sorted a) e 1)) in *.
  apply Qc_div_eq.
  - apply Z2Qc_neq_0. lia.
  - apply Z2Qc_2_neq_0.
  - rewrite <- !Z2Qc_mul. f_equal. lia.
Qed.

(** ** Maps expanded into sequences *)

Lemma negative_counts_cons (x : count_data) (v : value) (c : Z) :
  negative_counts ((v, c) :: x) = [] <-> 0 <= c /\ negative_counts x = [].
Proof.
  unfold negative_counts. cbn [values map snd filter].
  destruct (Z.ltb_spec c 0); split.
  - discriminate.
  - intros [H' _]. lia.
  - auto.
  - tauto.
Qed.

Lemma expand_cons (x : count_data) (v : value) (c : Z) :
  count_data_to_array ((v, c) :: x) =
  repeat v (Z.to_nat c) ++ count_data_to_array x.
Proof. reflexivity. Qed.

Lemma count_if_repeat (f : value -> bool) (v : value) (n : nat) :
  count_if f (repeat v n) = if f v then Z.of_nat n else 0.
Proof.
  induction n as [| n IH].
  - now destruct (f v).
  - cbn [repeat]. rewrite count_if_cons, IH. destruct (f v); lia.
Qed.

Lemma count_lt_expand (x : count_data) (e : value) :
  negative_counts x = [] ->
  count_if (fun u => value_ltb u e) (count_data_to_array x) = below x e.
Proof.
  induction x as [| [v c] x IH]; intros Hneg; [reflexivity |].
  apply negative_counts_cons in Hneg. destruct Hneg as [Hc Hneg].
  rewrite expand_cons, count_if_app, count_if_repeat, below_cons, IH
    by assumption.
  destruct (value_ltb v e); lia.
Qed.

Lemma count_eq_expand (x : count_data) (e : value) :
  negative_counts x = [] ->
  count_if (fun u => value_eqb u e) (count_data_to_array x) = count_all x e.
Proof.
  induction x as [| [v c] x IH]; intros Hneg; [reflexivity |].
  apply negative_counts_cons in Hneg. destruct Hneg as [Hc Hneg].
  rewrite expand_cons, count_if_app, count_if_repeat, count_all_cons, IH
    by assumption.
  destruct (value_eqb v e); lia.
Qed.

Lemma sum_app (l1 l2 : list Qc) : sum (l1 ++ l2) = (sum l1 + sum l2)%Qc.
Proof.
  induction l1 as [| q l1 IH]; cbn [app].
  - change (sum []) with (Z2Qc 0). rewrite Z2Qc_0. ring.
  - change (sum (q :: l1 ++ l2)) with (q + sum (l1 ++ l2))%Qc.
    change (sum (q :: l1)) with (q + sum l1)%Qc. rewrite IH. ring.
Qed.

Lemma sum_map_repeat (g : value -> Qc) (v : value) (n : nat) :
  sum (map g (repeat v n)) = (g v * Z2Qc (Z.of_nat n))%Qc.
Proof.
  induction n as [| n IH].
  - cbn [repeat map]. change (sum []) with (Z2Qc 0).
    change (Z.of_nat 0) with 0. rewrite Z2Qc_0. ring.
  - cbn [repeat map].
    change (sum (g v :: map g (repeat v n)))
      with (g v + sum (map g (repeat v n)))%Qc.
    rewrite IH, Nat2Z.inj_succ. unfold Z.succ. rewrite Z2Qc_add, Z2Qc_1. ring.
Qed.

Lemma sum_map_expand (g : value -> Qc) (x : count_data) :
  negative_counts x = [] ->
  sum (map g (count_data_to_array x)) = wsum g x.
Proof.
  induction x as [| [v c] x IH]; intros Hneg; [reflexivity |].
  apply negative_counts_cons in Hneg. destruct Hneg as [Hc Hneg].
  rewrite expand_cons, map_app, sum_app, sum_map_repeat, wsum_cons, IH
    by assumption.
  now rewrite Z2Nat.id by assumption.
Qed.

Lemma length_expand (x : count_data) :
  negative_counts x = [] ->
  Z.of_nat (List.length (count_data_to_array x)) = sample_size x.
Proof.
  induction x as [| [v c] x IH]; intros Hneg; [reflexivity |].
  apply negative_counts_cons in Hneg. destruct Hneg as [Hc Hneg].
  rewrite expand_cons, length_app, repeat_length, sample_size_cons,
    Nat2Z.inj_add, IH by assumption.
  now rewrite Z2Nat.id by assumption.
Qed.

Lemma in_expand (x : count_data) (e : value) :
  In e (count_data_to_array x) -> In e (keys x).
Proof.
  induction x as [| [v c] x IH]; [contradiction |].
  rewrite expand_cons, in_app_iff. intros [H | H].
  - apply repeat_spec in H. subst. now left.
  - right. auto.
Qed.

Lemma expand_orderable (x : count_data) (e : value) :
  orderable x -> In e (count_data_to_array x) -> isnan e = false.
Proof.
  intros Hord Hin. apply (proj1 (orderable_spec x) Hord).
  now apply in_expand.
Qed.

Lemma filter_repeat (f : value -> bool) (v : value) (n : nat) :
  filter f (repeat v n) = if f v then repeat v n else [].
Proof.
  induction n as [| n IH]; cbn [repeat filter].
  - now destruct (f v).
  - rewrite IH. now destruct (f v).
Qed.

Lemma filter_expand (x : count_data) :
  filter (fun v => negb (isnan v)) (count_data_to_array x) =
  count_data_to_array (omit_nan x).
Proof.
  induction x as [| [v c] x IH]; [reflexivity |].
  rewrite expand_cons, filter_app, filter_repeat, IH.
  unfold omit_nan at 2. cbn [filter].
  destruct (isnan v); cbn [negb]; [reflexivity |].
  now rewrite expand_cons.
Qed.

Lemma negative_counts_omit_nan (x : count_data) :
  negative_counts x = [] -> negative_counts (omit_nan x) = [].
Proof.
  induction x as [| [v c] x IH]; intros Hneg; [reflexivity |].
  apply negative_counts_cons in Hneg. destruct Hneg as [Hc Hneg].
  unfold omit_nan. cbn [filter]. destruct (negb (isnan v)).
  - apply negative_counts_cons. split; [exact Hc | now apply IH].
  - now apply IH.
Qed.

(** The average rank of an observation is the rank its value has in the
    rank map of the count data. *)
Lemma average_rank_expand (x : count_data) (e : value) :
  dict_wf x -> orderable x -> negative_counts x = [] ->
  In e (count_data_to_array x) ->
  average_rank (count_data_to_array x) e = rank_of x e.
Proof.
  intros Hwf Hord Hneg Hin.
  rewrite average_rank_midrank.
  - rewrite count_lt_expand, count_eq_expand, count_all_wf by assumption.
    reflexivity.
  - intros u Hu. now apply (expand_orderable x).
  - exact Hin.
Qed.

Lemma average_rank_expand_pooled (x y : count_data) (e : value) :
  orderable x -> orderable y ->
  negative_counts x = [] -> negative_counts y = [] ->
  In e (count_data_to_array x ++ count_data_to_array y) ->
  average_rank (count_data_to_array x ++ count_data_to_array y) e =
  rank_of (join_count_data [x; y]) e.
Proof.
  intros Hox Hoy Hnx Hny Hin.
  rewrite average_rank_midrank.
  - rewrite !count_if_app, !count_lt_expand, !count_eq_expand by assumption.
    unfold rank_of, cursor_of. rewrite below_join, dict_get_join.
    apply f_equal. f_equal; lia.
  - intros u Hu. apply in_app_iff in Hu.
    destruct Hu; [now apply (expand_orderable x) | now apply (expand_orderable y)].
  - exact Hin.
Qed.

(** ** The engine against the array-based procedure *)

Lemma np_div_fin (a : Qc) (n : Z) :
  n <> 0 -> np_div (np_fin a) (np_fin (Z2Qc n)) = np_fin (a / Z2Qc n)%Qc.
Proof.
  intros Hn. cbn [np_div]. rewrite Z2Qc_eqb.
  destruct (Z.eqb_spec n 0); [contradiction | reflexivity].
Qed.

Lemma np_sum_fin (h : value -> Qc) (l : list value) :
  np_sum (map (fun e => np_fin (h e)) l) = np_fin (sum (map h l)).
Proof.
  induction l as [| e l IH]; [reflexivity |].
  cbn [map]. change (np_sum (np_fin (h e) :: map (fun e => np_fin (h e)) l))
    with (np_add (np_fin (h e)) (np_sum (map (fun e => np_fin (h e)) l))).
  rewrite IH. reflexivity.
Qed.

Lemma combine_map {A B C : Type} (f : A -> B) (g : A -> C) (l : list A) :
  combine (map f l) (map g l) = map (fun e => (f e, g e)) l.
Proof.
  induction l as [| e l IH]; [reflexivity |]. cbn. now rewrite IH.
Qed.

Lemma firstn_map_app {A B : Type} (f : A -> B) (a b : list A) :
  firstn (List.length a) (map f (a ++ b)) = map f a.
Proof.
  rewrite map_app. rewrite <- (length_map f a).
  rewrite firstn_app, firstn_all, Nat.sub_diag. cbn [firstn].
  now rewrite app_nil_r.
Qed.

Lemma skipn_map_app {A B : Type} (f : A -> B) (a b : list A) :
  skipn (List.length a) (map f (a ++ b)) = map f b.
Proof.
  rewrite map_app. rewrite <- (length_map f a).
  rewrite skipn_app, skipn_all, Nat.sub_diag. reflexivity.
Qed.

Lemma np_mean_expand (g : value -> Qc) (x : count_data) :
  negative_counts x = [] -> sample_size x <> 0 ->
  np_mean (map g (count_data_to_array x)) =
  np_fin (wsum g x / Z2Qc (sample_size x))%Qc.
Proof.
  intros Hneg Hn. unfold np_mean.
  rewrite length_map, length_expand, sum_map_expand by assumption.
  now apply np_div_fin.
Qed.

Lemma array_dispersion_expand (gc g : value -> Qc) (mc m : Qc)
    (x : count_data) (n : Z) :
  negative_counts x = [] ->
  array_dispersion (map gc (count_data_to_array x))
                   (map g (count_data_to_array x)) (np_fin mc) (np_fin m) n =
  np_div (np_fin (wsum (fun v => (gc v - g v - mc + m) ^ 2)%Qc x))
         (np_fin (Z2Qc (n - 1))).
Proof.
  intros Hneg. unfold array_dispersion.
  rewrite combine_map, map_map.
  rewrite <- (sum_map_expand (fun v => (gc v - g v - mc + m) ^ 2)%Qc x)
    by assumption.
  rewrite <- np_sum_fin. reflexivity.
Qed.

Section Equivalence.

Variable np_sqrt : Qc -> npfloat.
Variable t_cdf : npfloat -> npfloat -> npfloat.
Variable norm_cdf : npfloat -> npfloat.

(** On maps without NaN keys and without negative counts, away from a
    sample of size 1 next to a sample that is not empty, lines 169-219
    compute what the array-based procedure computes on the expansions. *)
Lemma bm_test_array_test (x y : count_data)
    (alternative distribution : string) :
  dict_wf x -> dict_wf y -> orderable x -> orderable y ->
  negative_counts x = [] -> negative_counts y = [] ->
  sample_size x <> 1 \/ sample_size y = 0 ->
  sample_size y <> 1 \/ sample_size x = 0 ->
  bm_test np_sqrt t_cdf norm_cdf x y alternative distribution =
  array_test np_sqrt t_cdf norm_cdf
    (count_data_to_array x) (count_data_to_array y)
    alternative distribution.
Proof.
  intros Hwx Hwy Hox Hoy Hnx Hny Hsx Hsy.
  unfold bm_test, array_test. cbv zeta.
  rewrite !length_expand by assumption.
  destruct (Z.eqb_spec (sample_size x) 0) as [| Hx0]; [reflexivity |].
  destruct (Z.eqb_spec (sample_size y) 0) as [| Hy0]; [reflexivity |].
  cbn [orb].
  assert (Hx1 : sample_size x - 1 <> 0) by lia.
  assert (Hy1 : sample_size y - 1 <> 0) by lia.
  rewrite bm_moments_closed by assumption.
  unfold moments_of. rewrite !py_div_ok by assumption. cbn [bind].
  rewrite !py_div_ok by assumption. cbn [bind].
  unfold rankdata. rewrite firstn_map_app, skipn_map_app.
  set (ax := count_data_to_array x). set (ay := count_data_to_array y).
  rewrite (map_ext_in (average_rank (ax ++ ay))
             (rank_of (join_count_data [x; y])) ax)
    by (intros e He; apply average_rank_expand_pooled; auto;
        apply in_app_iff; now left).
  rewrite (map_ext_in (average_rank (ax ++ ay))
             (rank_of (join_count_data [x; y])) ay)
    by (intros e He; apply average_rank_expand_pooled; auto;
        apply in_app_iff; now right).
  rewrite (map_ext_in (average_rank ax) (rank_of x) ax)
    by (intros e He; now apply average_rank_expand).
  rewrite (map_ext_in (average_rank ay) (rank_of y) ay)
    by (intros e He; now apply average_rank_expand).
  subst ax ay.
  rewrite !np_mean_expand by assumption.
  rewrite !array_dispersion_expand by assumption.
  rewrite !np_div_fin by assumption.
  reflexivity.
Qed.

Lemma filter_notnan_id (a : list value) :
  existsb isnan a = false -> filter (fun v => negb (isnan v)) a = a.
Proof.
  intros H. apply filter_all. intros v Hin.
  apply negb_true_iff. apply not_true_iff_false. intros Hv.
  apply not_true_iff_false in H. apply H. apply existsb_exists.
  exists v. now split.
Qed.

(** Step 2 on the sequences decides between four outcomes. *)
Lemma array_brunnermunzel_unfold (ax ay : list value)
    (alternative distribution nan_policy : string) :
  array_brunnermunzel np_sqrt t_cdf norm_cdf ax ay
    alternative distribution nan_policy =
  if negb (valid_policy nan_policy) then
    Err (ValueError "nan_policy must be one of {'propagate', 'raise', 'omit'}")
  else if array_has_nan ax ay && String.eqb nan_policy "raise" then
    Err (ValueError "The input contains nan values")
  else if array_has_nan ax ay && String.eqb nan_policy "propagate" then
    Ok (np_nan, np_nan)
  else array_test np_sqrt t_cdf norm_cdf
         (filter (fun v => negb (isnan v)) ax)
         (filter (fun v => negb (isnan v)) ay) alternative distribution.
Proof.
  unfold array_brunnermunzel, _contains_nan, array_has_nan, valid_policy.
  pose proof (filter_notnan_id ax) as Hx. pose proof (filter_notnan_id ay) as Hy.
  destruct (existsb isnan ax), (existsb isnan ay);
    try rewrite (Hx eq_refl); try rewrite (Hy eq_refl); clear Hx Hy;
    (destruct (String.eqb_spec nan_policy "propagate") as [-> | H1];
     [reflexivity |]);
    (destruct (String.eqb_spec nan_policy "raise") as [-> | H2];
     [reflexivity |]);
    (destruct (String.eqb_spec nan_policy "omit") as [-> | H3];
     [reflexivity |]);
    cbn [existsb negb orb andb bind];
    repeat match goal with
           | H : nan_policy <> _ |- _ =>
               apply String.eqb_neq in H; rewrite ?H
           end; reflexivity.
Qed.

(** C1, as the code has it.  For maps with non-negative counts the call
    returns what the array-based procedure returns on the expanded
    sequences (the same pair, or the same error), with every alternative,
    distribution and policy, provided that
    - the policy is [omit], or the marker is a key of a map exactly when
      it is an observation of a sequence (no NaN key of count 0 alone),
    - no sample has size 1 next to a sample that is not empty (sizes
      taken once the entries of the marker are left out).
    Floats being exact here, the two pairs are equal. *)
Theorem brunnermunzel_matches_arrays (x y : count_data)
    (alternative distribution nan_policy : string) :
  dict_wf x -> dict_wf y ->
  negative_counts x = [] -> negative_counts y = [] ->
  nan_policy = "omit"%string \/
    has_nan x y =
    array_has_nan (count_data_to_array x) (count_data_to_array y) ->
  sample_size (omit_nan x) <> 1 \/ sample_size (omit_nan y) = 0 ->
  sample_size (omit_nan y) <> 1 \/ sample_size (omit_nan x) = 0 ->
  brunnermunzel_from_count_data np_sqrt t_cdf norm_cdf x y
    alternative distribution nan_policy =
  array_brunnermunzel np_sqrt t_cdf norm_cdf
    (count_data_to_array x) (count_data_to_array y)
    alternative distribution nan_policy.
Proof.
  intros Hwx Hwy Hnx Hny Hnan Hsx Hsy.
  rewrite brunnermunzel_unfold, array_brunnermunzel_unfold, Hnx, Hny.
  rewrite !filter_expand.
  rewrite (bm_test_array_test (omit_nan x) (omit_nan y))
    by auto using omit_nan_wf, omit_nan_orderable, negative_counts_omit_nan.
  destruct Hnan as [-> | ->].
  - rewrite !andb_false_r. reflexivity.
  - reflexivity.
Qed.

End Equivalence.

Lemma brunnermunzel_matches_arrays_witness :
  has_nan doc_x1 doc_x2 =
    array_has_nan (count_data_to_array doc_x1) (count_data_to_array doc_x2) /\
  sample_size (omit_nan doc_x1) = 14 /\ sample_size (omit_nan doc_x2) = 11 /\
  brunnermunzel_from_count_data floor_sqrt step_t_cdf step_cdf
    doc_x1 doc_x2 "two-sided" "t" "propagate" =
  array_brunnermunzel floor_sqrt step_t_cdf step_cdf
    (count_data_to_array doc_x1) (count_data_to_array doc_x2)
    "two-sided" "t" "propagate".
Proof.
  split; [reflexivity |]. split; [reflexivity |]. split; [reflexivity |].
  apply (brunnermunzel_matches_arrays floor_sqrt step_t_cdf step_cdf
           doc_x1 doc_x2 "two-sided" "t" "propagate").
  - reflexivity.
  - reflexivity.
  - reflexivity.
  - reflexivity.
  - right. reflexivity.
  - left. vm_compute. discriminate.
  - left. vm_compute. discriminate.
Defined.

(** C1 as stated fails.  With [x = {nan: 0, 0: 1, 1: 1}] and
    [y = {0: 1, 1: 2}] under [propagate] the call returns (NaN, NaN)
    while the expanded sequences hold no NaN and give a number; with
    [x = {0: 1}] the call raises ZeroDivisionError while the arrays give
    (NaN, NaN). *)
Lemma count_data_result_differs_from_arrays :
  (brunnermunzel_from_count_data floor_sqrt step_t_cdf step_cdf
     nan_zero one_two "two-sided" "normal" "propagate" = Ok (np_nan, np_nan) /\
   exists w p,
     array_brunnermunzel floor_sqrt step_t_cdf step_cdf
       (count_data_to_array nan_zero) (count_data_to_array one_two)
       "two-sided" "normal" "propagate" = Ok (np_fin w, p)) /\
  (brunnermunzel_from_count_data floor_sqrt step_t_cdf step_cdf
     single one_two "two-sided" "t" "propagate" = Err ZeroDivisionError /\
   array_brunnermunzel floor_sqrt step_t_cdf step_cdf
     (count_data_to_array single) (count_data_to_array one_two)
     "two-sided" "t" "propagate" = Ok (np_nan, np_nan)).
Proof.
  split; split.
  - reflexivity.
  - eexists. eexists. vm_compute. reflexivity.
  - reflexivity.
  - reflexivity.
Qed.

(** * Further properties *)

(** ** join_count_data as a map *)

Lemma dict_find_get (d : count_data) (v : value) :
  dict_find d v =
  if existsb (value_eqb v) (keys d) then Some (dict_get d v 0) else None.
Proof.
  destruct (existsb (value_eqb v) (keys d)) eqn:E.
  - apply existsb_value_eqb in E.
    destruct (dict_find_in_keys d v E) as [c [Hf _]].
    unfold dict_get. now rewrite Hf.
  - apply dict_find_not_in. intros Hin.
    apply existsb_value_eqb in Hin. congruence.
Qed.

Lemma same_map_intro (d d' : count_data) :
  (forall v, In v (keys d) <-> In v (keys d')) ->
  (forall v, dict_get d v 0 = dict_get d' v 0) ->
  same_map d d'.
Proof.
  intros Hk Hg v. rewrite !dict_find_get, Hg.
  destruct (existsb (value_eqb v) (keys d)) eqn:E,
           (existsb (value_eqb v) (keys d')) eqn:E'; try reflexivity.
  - apply existsb_value_eqb in E. apply Hk in E.
    apply existsb_value_eqb in E. congruence.
  - apply existsb_value_eqb in E'. apply Hk in E'.
    apply existsb_value_eqb in E'. congruence.
Qed.

Lemma fold_join_get (args : list count_data) :
  forall ret v,
    Forall dict_wf args ->
    dict_get (fold_left join_into args ret) v 0 =
    dict_get ret v 0 + total_get args v.
Proof.
  induction args as [| x args IH]; intros ret v Hwf; cbn [fold_left].
  - change (total_get [] v) with 0. lia.
  - inversion Hwf as [| ? ? Hx Hargs]; subst.
    rewrite IH, dict_get_join_into, count_all_wf by assumption.
    change (total_get (x :: args) v)
      with (dict_get x v 0 + total_get args v). lia.
Qed.

Lemma fold_join_keys (args : list count_data) :
  forall ret v,
    In v (keys (fold_left join_into args ret)) <->
    In v (keys ret) \/ exists x, In x args /\ In v (keys x).
Proof.
  induction args as [| x args IH]; intros ret v; cbn [fold_left].
  - split; [tauto |]. intros [H | [x [[] _]]]. exact H.
  - rewrite IH, keys_join_into. split.
    + intros [[H | H] | [x' [Hx' Hv]]].
      * now left.
      * right. exists x. split; [now left | exact H].
      * right. exists x'. split; [now right | exact Hv].
    + intros [H | [x' [[<- | Hx'] Hv]]].
      * left. now left.
      * left. now right.
      * right. exists x'. now split.
Qed.

Lemma fold_join_wf (args : list count_data) :
  forall ret, dict_wf ret -> dict_wf (fold_left join_into args ret).
Proof.
  induction args as [| x args IH]; intros ret Hwf; cbn [fold_left].
  - exact Hwf.
  - apply IH. now apply dict_wf_join_into.
Qed.

(** X1.  In the join of any number of maps the count of a value is the
    sum of its counts in the maps (0 where it is missing), a value is a
    key exactly when it is a key of one of the maps, and no key occurs
    twice. *)
Theorem join_count_data_sums_counts (args : list count_data) (v : value) :
  Forall dict_wf args ->
  dict_get (join_count_data args) v 0 = total_get args v /\
  (In v (keys (join_count_data args)) <->
   exists x, In x args /\ In v (keys x)) /\
  dict_wf (join_count_data args).
Proof.
  intros Hwf. unfold join_count_data. split; [| split].
  - now rewrite fold_join_get.
  - rewrite fold_join_keys. cbn. tauto.
  - now apply fold_join_wf.
Qed.

Lemma join_count_data_sums_counts_witness :
  Forall dict_wf [doc_x1; doc_x2] /\
  dict_get (join_count_data [doc_x1; doc_x2]) (key 4) 0 = 3.
Proof.
  assert (H : Forall dict_wf [doc_x1; doc_x2]).
  { repeat constructor. }
  split; [exact H |].
  rewrite (proj1 (join_count_data_sums_counts [doc_x1; doc_x2] (key 4) H)).
  reflexivity.
Defined.

Lemma total_get_perm (args args' : list count_data) (v : value) :
  Permutation args args' -> total_get args v = total_get args' v.
Proof.
  induction 1; cbn [total_get fold_right] in *; unfold total_get in *; lia.
Qed.

Lemma join_keys (args : list count_data) (v : value) :
  In v (keys (join_count_data args)) <-> exists x, In x args /\ In v (keys x).
Proof.
  unfold join_count_data. rewrite fold_join_keys. cbn. tauto.
Qed.

Lemma join_get (args : list count_data) (v : value) :
  Forall dict_wf args -> dict_get (join_count_data args) v 0 = total_get args v.
Proof.
  intros Hwf. unfold join_count_data. now rewrite fold_join_get.
Qed.

Lemma join_wf (args : list count_data) : dict_wf (join_count_data args).
Proof. unfold join_count_data. now apply fold_join_wf. Qed.

(** X2.  The order in which the maps are passed does not change the
    joined map: the joins of two arrangements of the same maps are equal
    as dicts; in particular [join(A, B) == join(B, A)]. *)
Theorem join_count_data_order_irrelevant (args args' : list count_data) :
  Forall dict_wf args -> Permutation args args' ->
  same_map (join_count_data args) (join_count_data args') /\
  forall A B, dict_wf A -> dict_wf B ->
              same_map (join_count_data [A; B]) (join_count_data [B; A]).
Proof.
  assert (H : forall l l' : list count_data,
            Forall dict_wf l -> Permutation l l' ->
            same_map (join_count_data l) (join_count_data l')).
  { intros l l' Hwf Hperm.
    assert (Hwf' : Forall dict_wf l').
    { rewrite Forall_forall in *. intros x Hx. apply Hwf.
      now apply (Permutation_in _ (Permutation_sym Hperm)). }
    apply same_map_intro; intros v.
    - rewrite !join_keys. split; intros [x [Hx Hv]]; exists x; split; auto.
      + now apply (Permutation_in _ Hperm).
      + now apply (Permutation_in _ (Permutation_sym Hperm)).
    - rewrite !join_get by assumption. now apply total_get_perm. }
  intros Hwf Hperm. split; [now apply H |].
  intros A B HA HB. apply H; [now repeat constructor | apply perm_swap].
Qed.

Lemma join_count_data_order_irrelevant_witness :
  Forall dict_wf [doc_x1; doc_x2] /\
  same_map (join_count_data [doc_x1; doc_x2]) (join_count_data [doc_x2; doc_x1]).
Proof.
  assert (H : Forall dict_wf [doc_x1; doc_x2]) by (repeat constructor).
  split; [exact H |].
  exact (proj1 (join_count_data_order_irrelevant
                  [doc_x1; doc_x2] [doc_x2; doc_x1] H (perm_swap _ _ _))).
Defined.

(** X3.  Joining is associative on dicts: joining [A] and [B] first, or
    [B] and [C] first, or the three at once, gives equal maps. *)
Theorem join_count_data_associative (A B C : count_data) :
  dict_wf A -> dict_wf B -> dict_wf C ->
  same_map (join_count_data [join_count_data [A; B]; C])
           (join_count_data [A; join_count_data [B; C]]) /\
  same_map (join_count_data [join_count_data [A; B]; C])
           (join_count_data [A; B; C]).
Proof.
  intros HA HB HC.
  pose proof (join_wf [A; B]) as HAB. pose proof (join_wf [B; C]) as HBC.
  assert (H3 : forall v, In v (keys (join_count_data [A; B; C])) <->
                         In v (keys A) \/ In v (keys B) \/ In v (keys C)).
  { intros v. rewrite join_keys. split.
    - intros [x [[<- | [<- | [<- | []]]] Hv]]; tauto.
    - intros [H | [H | H]]; eexists; (split; [| exact H]); cbn; tauto. }
  split; apply same_map_intro; intros v.
  - rewrite !keys_join. tauto.
  - rewrite !join_get by (repeat constructor; assumption).
    cbn [total_get fold_right].
    rewrite !join_get by (repeat constructor; assumption).
    cbn [total_get fold_right]. lia.
  - rewrite H3, !keys_join. tauto.
  - rewrite !join_get by (repeat constructor; assumption).
    cbn [total_get fold_right].
    rewrite !join_get by (repeat constructor; assumption).
    cbn [total_get fold_right]. lia.
Qed.

Lemma join_count_data_associative_witness :
  dict_wf doc_x1 /\ dict_wf doc_x2 /\ dict_wf one_two /\
  same_map (join_count_data [join_count_data [doc_x1; doc_x2]; one_two])
           (join_count_data [doc_x1; join_count_data [doc_x2; one_two]]).
Proof.
  assert (H1 : dict_wf doc_x1) by reflexivity.
  assert (H2 : dict_wf doc_x2) by reflexivity.
  assert (H3 : dict_wf one_two) by reflexivity.
  split; [exact H1 |]. split; [exact H2 |]. split; [exact H3 |].
  exact (proj1 (join_count_data_associative doc_x1 doc_x2 one_two H1 H2 H3)).
Defined.

(** ** join_count_data as an ordered dict *)

Lemma keys_set_fresh {V : Type} (d : dict V) (k : value) (c : V) :
  keys (dict_set d k c) =
  if existsb (value_eqb k) (keys d) then keys d else keys d ++ [k].
Proof.
  induction d as [| [k' c'] d IH]; [reflexivity |].
  change (keys ((k', c') :: d)) with (k' :: keys d).
  cbn [dict_set existsb]. rewrite (value_eqb_sym k k').
  destruct (value_eqb k' k) eqn:E; cbn [orb].
  - reflexivity.
  - change (keys ((k', c') :: dict_set d k c))
      with (k' :: keys (dict_set d k c)).
    rewrite IH. now destruct (existsb (value_eqb k) (keys d)).
Qed.

Lemma existsb_app_single (v k : value) (l : list value) :
  v <> k ->
  existsb (value_eqb v) (l ++ [k]) = existsb (value_eqb v) l.
Proof.
  intros Hne. rewrite existsb_app. cbn.
  replace (value_eqb v k) with false
    by (symmetry; now apply value_eqb_neq).
  now rewrite !orb_false_r.
Qed.

Lemma keys_join_into_order (x : count_data) :
  forall ret,
    dict_wf x ->
    keys (join_into ret x) =
    keys ret ++ filter (not_in_keys ret) (keys x).
Proof.
  induction x as [| [v c] x IH]; intros ret Hwf.
  - cbn. now rewrite app_nil_r.
  - apply dict_wf_cons in Hwf. destruct Hwf as [Hnin Hwf].
    rewrite join_into_cons, IH by assumption.
    rewrite keys_set_fresh.
    change (keys ((v, c) :: x)) with (v :: keys x). cbn [filter].
    unfold not_in_keys at 2.
    destruct (existsb (value_eqb v) (keys ret)) eqn:E; cbn [negb].
    + f_equal. apply filter_ext_in. intros u Hu. unfold not_in_keys.
      now rewrite keys_set_fresh, E.
    + rewrite <- app_assoc. cbn [app]. do 2 f_equal.
      apply filter_ext_in. intros u Hu. unfold not_in_keys.
      rewrite keys_set_fresh, E, existsb_app_single; [reflexivity |].
      intros ->. contradiction.
Qed.

Lemma join_into_nil (x : count_data) :
  forall ret,
    NoDup (keys ret ++ keys x) -> join_into ret x = ret ++ x.
Proof.
  induction x as [| [v c] x IH]; intros ret Hnd.
  - cbn. now rewrite app_nil_r.
  - change (keys ((v, c) :: x)) with (v :: keys x) in Hnd.
    pose proof (NoDup_remove_2 _ _ _ Hnd) as Hnin.
    assert (Hret : ~ In v (keys ret))
      by (intros H; apply Hnin; apply in_app_iff; now left).
    rewrite join_into_cons. unfold dict_get at 1.
    rewrite dict_find_not_in by exact Hret.
    rewrite dict_set_fresh by exact Hret.
    rewrite IH.
    + now rewrite <- app_assoc.
    + rewrite keys_app, <- app_assoc. exact Hnd.
Qed.

(** X4.  The empty map is neutral, and nothing is changed by joining a
    single map: [join(A, {})], [join({}, A)] and [join(A)] are [A] itself,
    entry for entry and in the same order. *)
Theorem join_count_data_identity (A : count_data) :
  dict_wf A ->
  join_count_data [A; []] = A /\
  join_count_data [[]; A] = A /\
  join_count_data [A] = A.
Proof.
  intros Hwf.
  assert (H : join_into [] A = A).
  { apply (join_into_nil A []). cbn. now apply dict_wf_NoDup. }
  unfold join_count_data. cbn [fold_left].
  change (join_into [] []) with ([] : count_data).
  rewrite H. repeat split; reflexivity.
Qed.

Lemma join_count_data_identity_witness :
  dict_wf doc_x1 /\ join_count_data [doc_x1; []] = doc_x1.
Proof.
  assert (H : dict_wf doc_x1) by reflexivity.
  split; [exact H |].
  exact (proj1 (join_count_data_identity doc_x1 H)).
Defined.

(** X5.  The joined map keeps insertion order: the keys of the first map
    in their order, then the keys of the second map that the first does
    not have, in their order.  For the maps of the docstring this is
    [{1: 14, 2: 3, 4: 3, 3: 4, 5: 1}]. *)
Theorem join_count_data_key_order (A B : count_data) :
  dict_wf A -> dict_wf B ->
  keys (join_count_data [A; B]) = keys A ++ filter (not_in_keys A) (keys B) /\
  join_count_data [doc_x1; doc_x2] = doc_join.
Proof.
  intros HA HB. split; [| reflexivity].
  rewrite join_two.
  rewrite (join_into_nil A []) by (cbn; now apply dict_wf_NoDup).
  cbn [app]. now apply keys_join_into_order.
Qed.

Lemma join_count_data_key_order_witness :
  dict_wf doc_x1 /\ dict_wf doc_x2 /\
  keys (join_count_data [doc_x1; doc_x2]) =
  keys doc_x1 ++ filter (not_in_keys doc_x1) (keys doc_x2).
Proof.
  assert (H1 : dict_wf doc_x1) by reflexivity.
  assert (H2 : dict_wf doc_x2) by reflexivity.
  split; [exact H1 |]. split; [exact H2 |].
  exact (proj1 (join_count_data_key_order doc_x1 doc_x2 H1 H2)).
Defined.

Lemma sample_size_set (d : count_data) (k : value) (c : Z) :
  sample_size (dict_set d k (dict_get d k 0 + c)) = sample_size d + c.
Proof.
  induction d as [| [k' c'] d IH].
  - cbn. lia.
  - cbn [dict_set]. destruct (value_eqb k' k) eqn:E.
    + apply value_eqb_eq in E. subst k'.
      rewrite dict_get_cons_same, !sample_size_cons. lia.
    + rewrite dict_get_cons_other by (apply value_eqb_neq in E; congruence).
      rewrite !sample_size_cons, IH. lia.
Qed.

Lemma sample_size_join_into (x : count_data) :
  forall ret,
    sample_size (join_into ret x) = sample_size ret + sample_size x.
Proof.
  induction x as [| [v c] x IH]; intros ret.
  - change (join_into ret []) with ret. change (sample_size []) with 0. lia.
  - rewrite join_into_cons, IH, sample_size_set, sample_size_cons. lia.
Qed.

(** X6.  Joining adds the sample sizes: the counts of the joined map sum
    to the sum of the sample sizes of the maps, whatever the counts are
    (negative counts pass through unchecked). *)
Theorem join_count_data_sample_size (args : list count_data) :
  sample_size (join_count_data args) = total_size args.
Proof.
  unfold join_count_data.
  assert (H : forall ret,
            sample_size (fold_left join_into args ret) =
            sample_size ret + total_size args).
  { induction args as [| x args IH]; intros ret; cbn [fold_left].
    - change (total_size []) with 0. lia.
    - rewrite IH, sample_size_join_into.
      change (total_size (x :: args)) with (sample_size x + total_size args).
      lia. }
  rewrite H. reflexivity.
Qed.

(** ** join_count_data and the pooled sample *)

Lemma expand_set (d : count_data) (k : value) (c : Z) :
  negative_counts d = [] -> 0 <= c ->
  Permutation
    (count_data_to_array (dict_set d k (dict_get d k 0 + c)))
    (count_data_to_array d ++ repeat k (Z.to_nat c)) /\
  negative_counts (dict_set d k (dict_get d k 0 + c)) = [].
Proof.
  intros Hneg Hc. induction d as [| [k' c'] d IH].
  - split; [| apply negative_counts_cons; now split].
    cbn. now rewrite app_nil_r.
  - apply negative_counts_cons in Hneg. destruct Hneg as [Hc' Hneg].
    cbn [dict_set]. destruct (value_eqb k' k) eqn:E.
    + apply value_eqb_eq in E. subst k'. rewrite dict_get_cons_same.
      split; [| apply negative_counts_cons; split; [lia | exact Hneg]].
      rewrite !expand_cons, Z2Nat.inj_add, repeat_app by assumption.
      rewrite <- !app_assoc. apply Permutation_app_head.
      apply Permutation_app_comm.
    + rewrite dict_get_cons_other by (apply value_eqb_neq in E; congruence).
      destruct (IH Hneg) as [IHp IHn].
      split; [| apply negative_counts_cons; now split].
      rewrite !expand_cons, <- app_assoc. now apply Permutation_app_head.
Qed.

Lemma expand_join_into (x : count_data) :
  forall ret,
    negative_counts ret = [] -> negative_counts x = [] ->
    Permutation (count_data_to_array (join_into ret x))
                (count_data_to_array ret ++ count_data_to_array x) /\
    negative_counts (join_into ret x) = [].
Proof.
  induction x as [| [v c] x IH]; intros ret Hret Hx.
  - split; [| exact Hret]. cbn. now rewrite app_nil_r.
  - apply negative_counts_cons in Hx. destruct Hx as [Hc Hx].
    destruct (expand_set ret v c Hret Hc) as [Hp Hn].
    rewrite join_into_cons.
    destruct (IH _ Hn Hx) as [IHp IHn]. split; [| exact IHn].
    rewrite IHp, Hp, expand_cons, <- app_assoc. reflexivity.
Qed.

(** X7.  With non-negative counts the joined map stands for the pooled
    sample: expanded into observations, it is the two expanded samples
    put together, up to the order of the observations. *)
Theorem join_count_data_pools_samples (x y : count_data) :
  negative_counts x = [] -> negative_counts y = [] ->
  Permutation (count_data_to_array (join_count_data [x; y]))
              (count_data_to_array x ++ count_data_to_array y) /\
  negative_counts (join_count_data [x; y]) = [].
Proof.
  intros Hx Hy. rewrite join_two.
  destruct (expand_join_into x [] eq_refl Hx) as [Hp Hn].
  destruct (expand_join_into y _ Hn Hy) as [Hp' Hn'].
  split; [| exact Hn'].
  rewrite Hp'. apply Permutation_app_tail. exact Hp.
Qed.

Lemma join_count_data_pools_samples_witness :
  negative_counts doc_x1 = [] /\ negative_counts doc_x2 = [] /\
  Permutation (count_data_to_array (join_count_data [doc_x1; doc_x2]))
              (count_data_to_array doc_x1 ++ count_data_to_array doc_x2).
Proof.
  split; [reflexivity |]. split; [reflexivity |].
  exact (proj1 (join_count_data_pools_samples doc_x1 doc_x2 eq_refl eq_refl)).
Defined.

(** ** The order and the range of the ranks *)

Lemma Z2Qc_le (a b : Z) : a <= b -> (Z2Qc a <= Z2Qc b)%Qc.
Proof.
  intros H. unfold Qcle, Z2Qc. cbn [this Q2Qc].
  apply Qred_le. now rewrite <- Zle_Qle.
Qed.

Lemma Z2Qc_lt (a b : Z) : a < b -> (Z2Qc a < Z2Qc b)%Qc.
Proof.
  intros H. apply Qcnot_le_lt. intros Hle.
  assert (Hba : b <= a).
  { rewrite Zle_Qle. apply Qred_le. exact Hle. }
  lia.
Qed.

Lemma Qc_half_pos : (0 < / Z2Qc 2)%Qc.
Proof. reflexivity. Qed.

Lemma midrank_le (a b a' b' : Z) :
  a + b <= a' + b' -> (midrank (a, b) <= midrank (a', b'))%Qc.
Proof.
  intros H. unfold midrank, Qcdiv. cbn [fst snd].
  apply Qcmult_le_compat_r.
  - now apply Z2Qc_le.
  - apply Qclt_le_weak. exact Qc_half_pos.
Qed.

Lemma midrank_lt (a b a' b' : Z) :
  a + b < a' + b' -> (midrank (a, b) < midrank (a', b'))%Qc.
Proof.
  intros H. unfold midrank, Qcdiv. cbn [fst snd].
  apply Qcmult_lt_compat_r.
  - exact Qc_half_pos.
  - now apply Z2Qc_lt.
Qed.

Lemma midrank_same (n : Z) : midrank (n, n) = Z2Qc n.
Proof. unfold midrank. cbn [fst snd]. qc_field. Qed.

Lemma count_all_nonneg (x : count_data) (v : value) :
  negative_counts x = [] -> 0 <= count_all x v.
Proof.
  induction x as [| [k c] x IH]; intros Hneg; [reflexivity |].
  apply negative_counts_cons in Hneg. destruct Hneg as [Hc Hneg].
  rewrite count_all_cons. specialize (IH Hneg).
  destruct (value_eqb k v); lia.
Qed.

Lemma below_nonneg (x : count_data) (v : value) :
  negative_counts x = [] -> 0 <= below x v.
Proof.
  induction x as [| [k c] x IH]; intros Hneg; [reflexivity |].
  apply negative_counts_cons in Hneg. destruct Hneg as [Hc Hneg].
  rewrite below_cons. specialize (IH Hneg).
  destruct (value_ltb k v); lia.
Qed.

Lemma below_count_le (x : count_data) (u v : value) :
  negative_counts x = [] -> value_ltb u v = true ->
  below x u + count_all x u <= below x v.
Proof.
  intros Hneg Huv. induction x as [| [k c] x IH]; [reflexivity |].
  apply negative_counts_cons in Hneg. destruct Hneg as [Hc Hneg].
  rewrite !below_cons, count_all_cons. specialize (IH Hneg).
  destruct (value_eqb k u) eqn:Eeq.
  - apply value_eqb_eq in Eeq. subst k.
    rewrite value_ltb_irrefl, Huv. lia.
  - destruct (value_ltb k u) eqn:Elt.
    + rewrite (value_ltb_trans k u v Elt Huv). lia.
    + destruct (value_ltb k v); lia.
Qed.

Lemma below_count_size (x : count_data) (v : value) :
  negative_counts x = [] -> below x v + count_all x v <= sample_size x.
Proof.
  induction x as [| [k c] x IH]; intros Hneg; [reflexivity |].
  apply negative_counts_cons in Hneg. destruct Hneg as [Hc Hneg].
  rewrite below_cons, count_all_cons, sample_size_cons. specialize (IH Hneg).
  destruct (value_eqb k v) eqn:Eeq.
  - apply value_eqb_eq in Eeq. subst k. rewrite value_ltb_irrefl. lia.
  - destruct (value_ltb k v); lia.
Qed.

(** X8.  Ranks follow the order of the values: with non-negative counts,
    a smaller key never has a larger rank, and its rank is strictly
    smaller as soon as one of the two keys has occurrences. *)
Theorem rank_count_data_monotone (x : count_data) (u v : value) :
  dict_wf x -> orderable x -> negative_counts x = [] ->
  In u (keys x) -> In v (keys x) -> value_ltb u v = true ->
  exists rank ru rv,
    rank_count_data x "average" = Ok rank /\
    dict_getitem rank u = Ok ru /\ dict_getitem rank v = Ok rv /\
    (ru <= rv)%Qc /\
    (0 < dict_get x u 0 + dict_get x v 0 -> (ru < rv)%Qc).
Proof.
  intros Hwf Hord Hneg Hu Hv Huv.
  exists (ranks x), (rank_of x u), (rank_of x v).
  split; [now apply rank_count_data_spans |].
  split; [now apply ranks_getitem |].
  split; [now apply ranks_getitem |].
  pose proof (below_count_le x u v Hneg Huv) as Hb.
  pose proof (count_all_nonneg x u Hneg) as Hcu.
  pose proof (count_all_nonneg x v Hneg) as Hcv.
  rewrite !count_all_wf in * by assumption.
  unfold rank_of, cursor_of. split.
  - apply midrank_le. lia.
  - intros Hpos. apply midrank_lt. lia.
Qed.

Lemma rank_count_data_monotone_witness :
  value_ltb (key 0) (key 2) = true /\
  exists rank ru rv,
    rank_count_data rank_example "average" = Ok rank /\
    dict_getitem rank (key 0) = Ok ru /\ dict_getitem rank (key 2) = Ok rv /\
    (ru < rv)%Qc.
Proof.
  split; [reflexivity |].
  destruct (rank_count_data_monotone rank_example (key 0) (key 2))
    as [rank [ru [rv [H1 [H2 [H3 [_ H4]]]]]]].
  - reflexivity.
  - reflexivity.
  - reflexivity.
  - now left.
  - right. now left.
  - reflexivity.
  - exists rank, ru, rv. repeat split; try assumption.
    apply H4. reflexivity.
Defined.

(** X9.  With non-negative counts, the rank of a key that has at least
    one occurrence lies between 1 and the sample size. *)
Theorem rank_count_data_range (x : count_data) (v : value) :
  dict_wf x -> orderable x -> negative_counts x = [] ->
  In v (keys x) -> 1 <= dict_get x v 0 ->
  exists rank r,
    rank_count_data x "average" = Ok rank /\
    dict_getitem rank v = Ok r /\
    (Z2Qc 1 <= r)%Qc /\ (r <= Z2Qc (sample_size x))%Qc.
Proof.
  intros Hwf Hord Hneg Hv Hc.
  exists (ranks x), (rank_of x v).
  split; [now apply rank_count_data_spans |].
  split; [now apply ranks_getitem |].
  pose proof (below_nonneg x v Hneg) as Hb.
  pose proof (below_count_size x v Hneg) as Hs.
  rewrite count_all_wf in Hs by assumption.
  unfold rank_of, cursor_of. split.
  - rewrite <- (midrank_same 1). apply midrank_le. lia.
  - rewrite <- (midrank_same (sample_size x)). apply midrank_le. lia.
Qed.

Lemma rank_count_data_range_witness :
  1 <= dict_get rank_example (key 2) 0 /\
  exists rank r,
    rank_count_data rank_example "average" = Ok rank /\
    dict_getitem rank (key 2) = Ok r /\
    (Z2Qc 1 <= r)%Qc /\ (r <= Z2Qc 4)%Qc.
Proof.
  assert (Hc : 1 <= dict_get rank_example (key 2) 0) by (vm_compute; discriminate).
  split; [exact Hc |].
  apply (rank_count_data_range rank_example (key 2)).
  - reflexivity.
  - reflexivity.
  - reflexivity.
  - right. now left.
  - exact Hc.
Defined.

(** ** The rank map and the ranks of the expanded sample *)

(** X10.  The rank map holds scipy's average ranks of the expanded sample:
    with non-negative counts, looking up every observation of the
    expanded sequence in the rank map gives [rankdata] of the sequence. *)
Theorem rank_count_data_is_rankdata (x : count_data) :
  dict_wf x -> orderable x -> negative_counts x = [] ->
  exists rank,
    rank_count_data x "average" = Ok rank /\
    mapM (dict_getitem rank) (count_data_to_array x) =
    Ok (rankdata (count_data_to_array x)).
Proof.
  intros Hwf Hord Hneg. exists (ranks x).
  split; [now apply rank_count_data_spans |].
  unfold rankdata. apply mapM_ok. intros e He.
  rewrite average_rank_expand by assumption.
  apply ranks_getitem; try assumption. now apply in_expand.
Qed.

Lemma rank_count_data_is_rankdata_witness :
  negative_counts rank_example = [] /\
  exists rank,
    rank_count_data rank_example "average" = Ok rank /\
    mapM (dict_getitem rank) (count_data_to_array rank_example) =
    Ok (rankdata (count_data_to_array rank_example)).
Proof.
  split; [reflexivity |].
  apply (rank_count_data_is_rankdata rank_example); reflexivity.
Defined.

Lemma sorted_unique (l : list value) :
  forall l',
    StronglySorted value_le l -> StronglySorted value_le l' ->
    (forall u, In u l -> isnan u = false) ->
    Permutation l l' -> l = l'.
Proof.
  induction l as [| a l IH]; intros l' Hs Hs' Hnan Hperm.
  - apply Permutation_nil in Hperm. now subst.
  - destruct l' as [| a' l'].
    + symmetry in Hperm. apply Permutation_nil in Hperm. discriminate.
    + inversion Hs as [| ? ? Hsl Hall]; subst.
      inversion Hs' as [| ? ? Hsl' Hall']; subst.
      rewrite Forall_forall in Hall, Hall'.
      assert (Ha' : In a' (a :: l))
        by (apply (Permutation_in _ (Permutation_sym Hperm)); now left).
      assert (Ha : In a (a' :: l'))
        by (apply (Permutation_in _ Hperm); now left).
      assert (Heq : a = a').
      { destruct Ha' as [Heq | Ha']; [exact Heq |].
        destruct Ha as [Heq | Ha]; [now symmetry |].
        apply value_ltb_total.
        - apply Hnan. now left.
        - apply Hnan. now right.
        - exact (Hall' a Ha).
        - exact (Hall a' Ha'). }
      subst a'. f_equal. apply IH; try assumption.
      * intros u Hu. apply Hnan. now right.
      * now apply Permutation_cons_inv in Hperm.
Qed.

Lemma count_all_perm (x x' : count_data) (v : value) :
  Permutation x x' -> count_all x v = count_all x' v.
Proof.
  induction 1 as [| [k c] | [k c] [k' c'] |]; rewrite ?count_all_cons in *; lia.
Qed.

Lemma below_perm (x x' : count_data) (v : value) :
  Permutation x x' -> below x v = below x' v.
Proof.
  induction 1 as [| [k c] | [k c] [k' c'] |]; rewrite ?below_cons in *; lia.
Qed.

Lemma dict_wf_perm {V : Type} (x x' : dict V) :
  Permutation x x' -> dict_wf x -> dict_wf x'.
Proof.
  intros Hperm. rewrite !dict_wf_NoDup.
  apply Permutation_NoDup. now apply Permutation_map.
Qed.

Lemma orderable_perm {V : Type} (x x' : dict V) :
  Permutation x x' -> orderable x -> orderable x'.
Proof.
  intros Hperm. rewrite !orderable_spec. intros H v Hv. apply H.
  apply (Permutation_in _ (Permutation_sym (Permutation_map fst Hperm))).
  exact Hv.
Qed.

Lemma dict_get_perm (x x' : count_data) (v : value) :
  Permutation x x' -> dict_wf x -> dict_get x v 0 = dict_get x' v 0.
Proof.
  intros Hperm Hwf.
  rewrite <- !count_all_wf by (try assumption; now apply (dict_wf_perm x)).
  now apply count_all_perm.
Qed.

Lemma spans_ext (x x' : count_data) (ks : list value) :
  (forall v, dict_get x v 0 = dict_get x' v 0) ->
  forall r, spans x ks r = spans x' ks r.
Proof.
  intros H. induction ks as [| v ks IH]; intros r; [reflexivity |].
  cbn [spans]. now rewrite H, IH.
Qed.

Lemma sorted_keys_perm (x x' : count_data) :
  Permutation x x' -> dict_wf x -> orderable x ->
  sorted (keys x') = sorted (keys x).
Proof.
  intros Hperm Hwf Hord.
  pose proof (orderable_perm x x' Hperm Hord) as Hord'.
  apply sorted_unique.
  - apply sorted_sorted. now apply orderable_spec.
  - apply sorted_sorted. now apply orderable_spec.
  - intros u Hu. apply -> sorted_in in Hu.
    now apply (proj1 (orderable_spec x') Hord').
  - rewrite !sorted_perm. symmetry. now apply Permutation_map.
Qed.

(** X11.  The rank map does not depend on the order in which the entries
    were inserted into the Count Map: two maps with the same entries get
    the same rank map, entry for entry and in the same order. *)
Theorem rank_count_data_insertion_order (x x' : count_data) :
  Permutation x x' -> dict_wf x -> orderable x ->
  rank_count_data x' "average" = rank_count_data x "average".
Proof.
  intros Hperm Hwf Hord.
  rewrite !rank_count_data_spans
    by (try assumption; now apply (dict_wf_perm x)).
  unfold ranks. rewrite (sorted_keys_perm x x') by assumption.
  rewrite (spans_ext x' x); [reflexivity |].
  intros v. symmetry. now apply dict_get_perm.
Qed.

Lemma rank_count_data_insertion_order_witness :
  Permutation rank_example [(key 2, 2); (key 0, 1); (key 3, 1)] /\
  rank_count_data [(key 2, 2); (key 0, 1); (key 3, 1)] "average" =
  rank_count_data rank_example "average".
Proof.
  assert (Hp : Permutation rank_example [(key 2, 2); (key 0, 1); (key 3, 1)])
    by apply perm_swap.
  split; [exact Hp |].
  apply (rank_count_data_insertion_order rank_example _ Hp); reflexivity.
Defined.

(** ** The options of the engine *)

Lemma has_nan_omit_nan (x y : count_data) :
  has_nan (omit_nan x) (omit_nan y) = false.
Proof.
  unfold has_nan.
  now rewrite !orderable_no_nan by apply omit_nan_orderable.
Qed.

Lemma omit_nan_idempotent (x : count_data) :
  omit_nan (omit_nan x) = omit_nan x.
Proof.
  apply omit_nan_id. apply orderable_no_nan. apply omit_nan_orderable.
Qed.

Section EngineFurther.

Variable np_sqrt : Qc -> npfloat.
Variable t_cdf : npfloat -> npfloat -> npfloat.
Variable norm_cdf : npfloat -> npfloat.

#[local] Abbreviation bm := (brunnermunzel_from_count_data np_sqrt t_cdf norm_cdf).

(** X12.  The policy [omit] is the same as leaving the entries of the
    missing-value marker out of both maps beforehand: on maps with
    non-negative counts, the call under [omit] returns what the call on
    the filtered maps returns under any of the three policies. *)
Theorem nan_policy_omit_filters (x y : count_data)
    (alternative distribution nan_policy : string) :
  negative_counts x = [] -> negative_counts y = [] ->
  valid_policy nan_policy = true ->
  bm x y alternative distribution "omit" =
  bm (omit_nan x) (omit_nan y) alternative distribution nan_policy.
Proof.
  intros Hx Hy Hvalid.
  rewrite !brunnermunzel_unfold, Hx, Hy, Hvalid.
  rewrite !negative_counts_omit_nan by assumption.
  rewrite has_nan_omit_nan, !omit_nan_idempotent.
  cbn [negb andb]. now rewrite !andb_false_r.
Qed.

(** X13.  A NaN key under the policy [raise] makes the call fail with
    its own ValueError, once the counts have passed the sign check,
    whatever the alternative and the distribution are. *)
Theorem nan_policy_raise_rejects (x y : count_data)
    (alternative distribution : string) :
  negative_counts x = [] -> negative_counts y = [] ->
  has_nan x y = true ->
  bm x y alternative distribution "raise" =
  Err (ValueError "The input contains nan values").
Proof.
  intros Hx Hy Hnan. now rewrite brunnermunzel_unfold, Hx, Hy, Hnan.
Qed.

(** X14.  The alternative only changes the p-value.  When the call
    with [greater] returns [(w, p)], the call with [less] returns
    [(w, 1 - p)] and the call with [two-sided] returns
    [(w, 2 * min(p, 1 - p))]. *)
Theorem alternatives_share_statistic (x y : count_data)
    (distribution nan_policy : string) (w p : npfloat) :
  bm x y "greater" distribution nan_policy = Ok (w, p) ->
  bm x y "less" distribution nan_policy =
    Ok (w, np_sub (np_fin (Z2Qc 1)) p) /\
  bm x y "two-sided" distribution nan_policy =
    Ok (w, np_mul (np_fin (Z2Qc 2)) (np_min p (np_sub (np_fin (Z2Qc 1)) p))).
Proof.
  rewrite !brunnermunzel_unfold.
  destruct (negative_counts x); [| discriminate].
  destruct (negative_counts y); [| discriminate].
  destruct (negb (valid_policy nan_policy)); [discriminate |].
  destruct (has_nan x y && String.eqb nan_policy "raise"); [discriminate |].
  destruct (has_nan x y && String.eqb nan_policy "propagate").
  - intros H. inversion H; subst. split; reflexivity.
  - unfold bm_test.
    destruct ((sample_size (omit_nan x) =? 0) || (sample_size (omit_nan y) =? 0)).
    + intros H. inversion H; subst. split; reflexivity.
    + destruct (bm_moments _ _ _ _) as [m |]; cbn [bind]; [| discriminate].
      destruct (bm_pvalue _ _ _ _ _ _ _) as [p0 |]; cbn [bind]; [| discriminate].
      intros H. inversion H; subst. split; reflexivity.
Qed.

End EngineFurther.

Lemma nan_policy_omit_filters_witness :
  negative_counts nan_zero = [] /\ negative_counts nan_once = [] /\
  brunnermunzel_from_count_data floor_sqrt step_t_cdf step_cdf
    nan_zero nan_once "less" "normal" "omit" =
  brunnermunzel_from_count_data floor_sqrt step_t_cdf step_cdf
    (omit_nan nan_zero) (omit_nan nan_once) "less" "normal" "propagate".
Proof.
  split; [reflexivity |]. split; [reflexivity |].
  apply (nan_policy_omit_filters floor_sqrt step_t_cdf step_cdf
           nan_zero nan_once "less" "normal" "propagate"); reflexivity.
Defined.

Lemma nan_policy_raise_rejects_witness :
  has_nan one_two nan_once = true /\
  brunnermunzel_from_count_data floor_sqrt step_t_cdf step_cdf
    one_two nan_once "less" "normal" "raise" =
  Err (ValueError "The input contains nan values").
Proof.
  split; [reflexivity |].
  apply (nan_policy_raise_rejects floor_sqrt step_t_cdf step_cdf
           one_two nan_once "less" "normal"); reflexivity.
Defined.

Lemma doc_greater :
  exists w p,
    brunnermunzel_from_count_data floor_sqrt step_t_cdf step_cdf
      doc_x1 doc_x2 "greater" "normal" "propagate" = Ok (w, p).
Proof. eexists. eexists. vm_compute. reflexivity. Defined.

Lemma alternatives_share_statistic_witness :
  exists w p,
    brunnermunzel_from_count_data floor_sqrt step_t_cdf step_cdf
      doc_x1 doc_x2 "greater" "normal" "propagate" = Ok (w, p) /\
    brunnermunzel_from_count_data floor_sqrt step_t_cdf step_cdf
      doc_x1 doc_x2 "less" "normal" "propagate" =
    Ok (w, np_sub (np_fin (Z2Qc 1)) p).
Proof.
  destruct doc_greater as [w [p H]]. exists w, p.
  split; [exact H |].
  exact (proj1 (alternatives_share_statistic floor_sqrt step_t_cdf step_cdf
                  doc_x1 doc_x2 "normal" "propagate" w p H)).
Defined.

(** ** When the engine returns *)

Lemma sample_size_nonneg (x : count_data) :
  negative_counts x = [] -> 0 <= sample_size x.
Proof.
  induction x as [| [k c] x IH]; intros Hneg; [reflexivity |].
  apply negative_counts_cons in Hneg. destruct Hneg as [Hc Hneg].
  rewrite sample_size_cons. specialize (IH Hneg). lia.
Qed.

Section EngineReturns.

Variable np_sqrt : Qc -> npfloat.
Variable t_cdf : npfloat -> npfloat -> npfloat.
Variable norm_cdf : npfloat -> npfloat.

#[local] Abbreviation bm := (brunnermunzel_from_count_data np_sqrt t_cdf norm_cdf).

(** The call on maps that reach lines 169-219 with both samples of size
    at least 2. *)
Lemma bm_computed (x y : count_data)
    (alternative distribution nan_policy : string) :
  dict_wf x -> dict_wf y -> orderable x -> orderable y ->
  negative_counts x = [] -> negative_counts y = [] ->
  valid_policy nan_policy = true ->
  2 <= sample_size x -> 2 <= sample_size y ->
  exists m,
    bm_moments x y (sample_size x) (sample_size y) = Ok m /\
    bm x y alternative distribution nan_policy =
    (p <- bm_pvalue t_cdf norm_cdf (sample_size x) (sample_size y) m
            (bm_wbfn np_sqrt (sample_size x) (sample_size y) m) distribution;;
     p <- bm_alternative p alternative;;
     Ok (bm_wbfn np_sqrt (sample_size x) (sample_size y) m, p)).
Proof.
  intros Hwx Hwy Hox Hoy Hx Hy Hvalid Hnx Hny.
  destruct (bm_moments_defined x y Hwx Hwy Hox Hoy Hnx Hny) as [m Hm].
  exists m. split; [exact Hm |].
  rewrite brunnermunzel_orderable by assumption. unfold bm_test.
  destruct (Z.eqb_spec (sample_size x) 0) as [| _]; [lia |].
  destruct (Z.eqb_spec (sample_size y) 0) as [| _]; [lia |].
  cbn [orb]. now rewrite Hm.
Qed.

(** X15.  An unrecognised distribution or alternative is reported only
    when the statistic has been computed (no NaN key, both samples of
    size at least 2): the distribution is looked at first and gives the
    ValueError of line 208; with a recognised distribution an
    unrecognised alternative gives the ValueError of line 217. *)
Theorem unknown_options_rejected (x y : count_data)
    (alternative distribution nan_policy : string) :
  dict_wf x -> dict_wf y -> orderable x -> orderable y ->
  negative_counts x = [] -> negative_counts y = [] ->
  valid_policy nan_policy = true ->
  2 <= sample_size x -> 2 <= sample_size y ->
  (distribution <> "t"%string -> distribution <> "normal"%string ->
   bm x y alternative distribution nan_policy =
   Err (ValueError "distribution should be 't' or 'normal'")) /\
  (distribution = "t"%string \/ distribution = "normal"%string ->
   alternative <> "greater"%string -> alternative <> "less"%string ->
   alternative <> "two-sided"%string ->
   bm x y alternative distribution nan_policy =
   Err (ValueError "alternative should be 'less', 'greater' or 'two-sided'")).
Proof.
  intros Hwx Hwy Hox Hoy Hx Hy Hvalid Hnx Hny.
  destruct (bm_computed x y alternative distribution nan_policy)
    as [m [_ ->]]; try assumption.
  split.
  - intros Ht Hn. unfold bm_pvalue.
    apply String.eqb_neq in Ht, Hn. now rewrite Ht, Hn.
  - intros Hd Hg Hl Hts.
    destruct (bm_pvalue_ok t_cdf norm_cdf (sample_size x) (sample_size y) m
                (bm_wbfn np_sqrt (sample_size x) (sample_size y) m)
                distribution Hd) as [p ->].
    cbn [bind]. unfold bm_alternative.
    apply String.eqb_neq in Hg, Hl, Hts. now rewrite Hg, Hl, Hts.
Qed.

(** X16.  With well-formed maps, non-negative counts and recognised
    options, and no NaN key unless the policy is [omit], the call raises
    ZeroDivisionError when one sample has size 1 and the other is not
    empty, and returns a pair in every other case (sizes taken without
    the NaN entries): it never fails with a missing key. *)
Theorem returns_unless_size_one (x y : count_data)
    (alternative distribution nan_policy : string) :
  dict_wf x -> dict_wf y ->
  negative_counts x = [] -> negative_counts y = [] ->
  valid_policy nan_policy = true ->
  (has_nan x y = true -> nan_policy = "omit"%string) ->
  alternative = "two-sided"%string \/ alternative = "less"%string \/
    alternative = "greater"%string ->
  distribution = "t"%string \/ distribution = "normal"%string ->
  let nx := sample_size (omit_nan x) in
  let ny := sample_size (omit_nan y) in
  ((nx = 1 /\ ny <> 0) \/ (ny = 1 /\ nx <> 0) ->
   bm x y alternative distribution nan_policy = Err ZeroDivisionError) /\
  (~ ((nx = 1 /\ ny <> 0) \/ (ny = 1 /\ nx <> 0)) ->
   exists w p, bm x y alternative distribution nan_policy = Ok (w, p)).
Proof.
  intros Hwx Hwy Hx Hy Hvalid Hnan Halt Hdist nx ny.
  assert (Hreduce :
            bm x y alternative distribution nan_policy =
            bm (omit_nan x) (omit_nan y) alternative distribution nan_policy).
  { rewrite !brunnermunzel_unfold, Hx, Hy, Hvalid.
    rewrite !negative_counts_omit_nan by assumption.
    rewrite has_nan_omit_nan, !omit_nan_idempotent. cbn [negb andb].
    destruct (has_nan x y) eqn:E; [| reflexivity].
    rewrite (Hnan eq_refl). reflexivity. }
  rewrite Hreduce.
  pose proof (omit_nan_wf x Hwx) as Hwx'.
  pose proof (omit_nan_wf y Hwy) as Hwy'.
  pose proof (omit_nan_orderable x) as Hox'.
  pose proof (omit_nan_orderable y) as Hoy'.
  pose proof (negative_counts_omit_nan x Hx) as Hx'.
  pose proof (negative_counts_omit_nan y Hy) as Hy'.
  pose proof (sample_size_nonneg _ Hx') as Hpx.
  pose proof (sample_size_nonneg _ Hy') as Hpy.
  fold nx in Hpx. fold ny in Hpy.
  split.
  - intros Hsize. now apply size_one_raises.
  - intros Hsize.
    destruct (Z.eq_dec nx 0) as [E0 | E0];
      [| destruct (Z.eq_dec ny 0) as [E0' | E0']].
    + exists np_nan, np_nan.
      rewrite brunnermunzel_orderable by assumption. unfold bm_test.
      fold nx. rewrite E0. reflexivity.
    + exists np_nan, np_nan.
      rewrite brunnermunzel_orderable by assumption. unfold bm_test.
      fold ny. rewrite E0'. now rewrite orb_true_r.
    + destruct (bm_computed (omit_nan x) (omit_nan y)
                  alternative distribution nan_policy)
        as [m [_ ->]]; try assumption.
      * fold nx. lia.
      * fold ny. lia.
      * destruct (bm_pvalue_ok t_cdf norm_cdf (sample_size (omit_nan x))
                    (sample_size (omit_nan y)) m
                    (bm_wbfn np_sqrt (sample_size (omit_nan x))
                       (sample_size (omit_nan y)) m) distribution Hdist)
          as [p0 ->].
        cbn [bind].
        destruct (bm_alternative_ok p0 alternative Halt) as [p ->].
        cbn [bind]. eexists. eexists. reflexivity.
Qed.

End EngineReturns.

Lemma unknown_options_rejected_witness :
  2 <= sample_size doc_x1 /\ 2 <= sample_size doc_x2 /\
  brunnermunzel_from_count_data floor_sqrt step_t_cdf step_cdf
    doc_x1 doc_x2 "two-sided" "cauchy" "propagate" =
  Err (ValueError "distribution should be 't' or 'normal'").
Proof.
  assert (H1 : 2 <= sample_size doc_x1) by (vm_compute; discriminate).
  assert (H2 : 2 <= sample_size doc_x2) by (vm_compute; discriminate).
  split; [exact H1 |]. split; [exact H2 |].
  apply (proj1 (unknown_options_rejected floor_sqrt step_t_cdf step_cdf
                  doc_x1 doc_x2 "two-sided" "cauchy" "propagate"
                  eq_refl eq_refl eq_refl eq_refl eq_refl eq_refl eq_refl
                  H1 H2)); discriminate.
Defined.

Lemma returns_unless_size_one_witness :
  sample_size (omit_nan doc_x1) = 14 /\ sample_size (omit_nan doc_x2) = 11 /\
  exists w p,
    brunnermunzel_from_count_data floor_sqrt step_t_cdf step_cdf
      doc_x1 doc_x2 "two-sided" "t" "propagate" = Ok (w, p).
Proof.
  split; [reflexivity |]. split; [reflexivity |].
  refine (proj2 (returns_unless_size_one floor_sqrt step_t_cdf step_cdf
                   doc_x1 doc_x2 "two-sided" "t" "propagate"
                   eq_refl eq_refl eq_refl eq_refl eq_refl _
                   (or_introl eq_refl) (or_introl eq_refl)) _).
  - intros H. discriminate H.
  - intros [[H _] | [H _]]; discriminate H.
Defined.

(** ** The order of the entries *)

Lemma wsum_perm (g : value -> Qc) (x x' : count_data) :
  Permutation x x' -> wsum g x = wsum g x'.
Proof.
  induction 1 as [| [k c] | [k c] [k' c'] |].
  - reflexivity.
  - rewrite !wsum_cons. now f_equal.
  - rewrite !wsum_cons. ring.
  - congruence.
Qed.

Lemma sample_size_perm (x x' : count_data) :
  Permutation x x' -> sample_size x = sample_size x'.
Proof.
  induction 1 as [| [k c] | [k c] [k' c'] |];
    rewrite ?sample_size_cons in *; lia.
Qed.

Lemma negative_counts_perm (x x' : count_data) :
  Permutation x x' -> negative_counts x = [] -> negative_counts x' = [].
Proof.
  intros Hperm Hneg. unfold negative_counts in *.
  apply Permutation_nil. rewrite <- Hneg.
  apply filter_perm. apply Permutation_map. now symmetry.
Qed.

Lemma existsb_perm {A : Type} (f : A -> bool) (l l' : list A) :
  Permutation l l' -> existsb f l = existsb f l'.
Proof.
  induction 1; cbn.
  - reflexivity.
  - now f_equal.
  - destruct (f x), (f y); reflexivity.
  - congruence.
Qed.

Lemma has_nan_perm (x x' y y' : count_data) :
  Permutation x x' -> Permutation y y' -> has_nan x' y' = has_nan x y.
Proof.
  intros Hx Hy. unfold has_nan, keys.
  rewrite (existsb_perm isnan _ _ (Permutation_map fst Hx)).
  now rewrite (existsb_perm isnan _ _ (Permutation_map fst Hy)).
Qed.

Lemma rank_of_perm (x x' : count_data) (v : value) :
  Permutation x x' -> dict_wf x -> rank_of x' v = rank_of x v.
Proof.
  intros Hperm Hwf. unfold rank_of, cursor_of.
  now rewrite (below_perm x x'), (dict_get_perm x x').
Qed.

Lemma rank_of_join_perm (x x' y y' : count_data) (v : value) :
  Permutation x x' -> Permutation y y' ->
  rank_of (join_count_data [x'; y']) v = rank_of (join_count_data [x; y]) v.
Proof.
  intros Hx Hy. unfold rank_of, cursor_of.
  rewrite !below_join, !dict_get_join.
  now rewrite (below_perm x x'), (below_perm y y'),
    (count_all_perm x x'), (count_all_perm y y').
Qed.

Lemma moments_of_perm (gc' gc gx' gx gy' gy : value -> Qc)
    (x x' y y' : count_data) (nx ny : Z) :
  Permutation x x' -> Permutation y y' ->
  (forall v, gc' v = gc v) -> (forall v, gx' v = gx v) ->
  (forall v, gy' v = gy v) ->
  moments_of gc' gx' gy' x' y' nx ny = moments_of gc gx gy x y nx ny.
Proof.
  intros Hx Hy Hc Hgx Hgy. unfold moments_of.
  rewrite <- (wsum_perm gc' x x' Hx), (wsum_ext gc' gc x) by auto.
  apply bind_ext. intros mcx _.
  rewrite <- (wsum_perm gc' y y' Hy), (wsum_ext gc' gc y) by auto.
  apply bind_ext. intros mcy _.
  rewrite <- (wsum_perm gx' x x' Hx), (wsum_ext gx' gx x) by auto.
  apply bind_ext. intros mx _.
  rewrite <- (wsum_perm gy' y y' Hy), (wsum_ext gy' gy y) by auto.
  apply bind_ext. intros my _.
  rewrite <- (wsum_perm _ x x' Hx).
  rewrite (wsum_ext (fun v => (gc' v - gx' v - mcx + mx) ^ 2)%Qc
                    (fun v => (gc v - gx v - mcx + mx) ^ 2)%Qc x)
    by (intros v _; now rewrite Hc, Hgx).
  apply bind_ext. intros sx _.
  rewrite <- (wsum_perm _ y y' Hy).
  rewrite (wsum_ext (fun v => (gc' v - gy' v - mcy + my) ^ 2)%Qc
                    (fun v => (gc v - gy v - mcy + my) ^ 2)%Qc y)
    by (intros v _; now rewrite Hc, Hgy).
  reflexivity.
Qed.

Section EntryOrder.

Variable np_sqrt : Qc -> npfloat.
Variable t_cdf : npfloat -> npfloat -> npfloat.
Variable norm_cdf : npfloat -> npfloat.

Lemma bm_test_perm (x x' y y' : count_data)
    (alternative distribution : string) :
  Permutation x x' -> Permutation y y' ->
  dict_wf x -> dict_wf y -> orderable x -> orderable y ->
  bm_test np_sqrt t_cdf norm_cdf x' y' alternative distribution =
  bm_test np_sqrt t_cdf norm_cdf x y alternative distribution.
Proof.
  intros Hx Hy Hwx Hwy Hox Hoy. unfold bm_test.
  rewrite <- (sample_size_perm x x' Hx), <- (sample_size_perm y y' Hy).
  rewrite !bm_moments_closed
    by eauto using dict_wf_perm, orderable_perm.
  rewrite (moments_of_perm _ (rank_of (join_count_data [x; y]))
             _ (rank_of x) _ (rank_of y) x x' y y');
    auto using rank_of_perm, rank_of_join_perm.
Qed.

(** X17.  The order of the entries in the two Count Maps does not matter:
    maps with the same entries, inserted in another order, give the same
    outcome (the same pair, or the same error), sums being exact. *)
Theorem entry_order_irrelevant (x x' y y' : count_data)
    (alternative distribution nan_policy : string) :
  Permutation x x' -> Permutation y y' -> dict_wf x -> dict_wf y ->
  brunnermunzel_from_count_data np_sqrt t_cdf norm_cdf
    x' y' alternative distribution nan_policy =
  brunnermunzel_from_count_data np_sqrt t_cdf norm_cdf
    x y alternative distribution nan_policy.
Proof.
  intros Hx Hy Hwx Hwy. rewrite !brunnermunzel_unfold.
  rewrite (has_nan_perm x x' y y') by assumption.
  assert (Hox : Permutation (omit_nan x) (omit_nan x'))
    by now apply filter_perm.
  assert (Hoy : Permutation (omit_nan y) (omit_nan y'))
    by now apply filter_perm.
  rewrite (bm_test_perm (omit_nan x) (omit_nan x') (omit_nan y) (omit_nan y'))
    by auto using omit_nan_wf, omit_nan_orderable.
  destruct (negative_counts x) eqn:Ex.
  - rewrite (negative_counts_perm x x' Hx Ex).
    destruct (negative_counts y) eqn:Ey.
    + now rewrite (negative_counts_perm y y' Hy Ey).
    + destruct (negative_counts y') eqn:Ey'; [| reflexivity].
      apply (negative_counts_perm y' y (Permutation_sym Hy)) in Ey'.
      congruence.
  - destruct (negative_counts x') eqn:Ex'.
    + apply (negative_counts_perm x' x (Permutation_sym Hx)) in Ex'.
      congruence.
    + reflexivity.
Qed.

End EntryOrder.

Lemma entry_order_irrelevant_witness :
  Permutation doc_x1 [(key 2, 2); (key 1, 11); (key 4, 1)] /\
  brunnermunzel_from_count_data floor_sqrt step_t_cdf step_cdf
    [(key 2, 2); (key 1, 11); (key 4, 1)] doc_x2 "two-sided" "t" "propagate" =
  brunnermunzel_from_count_data floor_sqrt step_t_cdf step_cdf
    doc_x1 doc_x2 "two-sided" "t" "propagate".
Proof.
  assert (Hp : Permutation doc_x1 [(key 2, 2); (key 1, 11); (key 4, 1)])
    by apply perm_swap.
  split; [exact Hp |].
  apply (entry_order_irrelevant floor_sqrt step_t_cdf step_cdf
           doc_x1 _ doc_x2 doc_x2 "two-sided" "t" "propagate" Hp
           (Permutation_refl _)); reflexivity.
Defined.

(** ** The moments of the ranks *)

Ltac bind_ok H :=
  repeat match type of H with
         | bind ?m _ = Ok _ =>
             let E := fresh "E" in
             destruct m eqn:E; cbn [bind] in H; [| discriminate H]
         end.

Lemma wsum_set (g : value -> Qc) (d : count_data) (k : value) (c : Z) :
  wsum g (dict_set d k (dict_get d k 0 + c)) = (wsum g d + g k * Z2Qc c)%Qc.
Proof.
  induction d as [| [k' c'] d IH].
  - cbn [dict_set]. rewrite wsum_cons. change (wsum g []) with (Z2Qc 0).
    change (dict_get [] k 0 + c) with c. ring.
  - cbn [dict_set]. destruct (value_eqb k' k) eqn:E.
    + apply value_eqb_eq in E. subst k'.
      rewrite dict_get_cons_same, !wsum_cons, Z2Qc_add. ring.
    + rewrite dict_get_cons_other by (apply value_eqb_neq in E; congruence).
      rewrite !wsum_cons, IH. ring.
Qed.

Lemma wsum_join_into (g : value -> Qc) (x : count_data) :
  forall ret, wsum g (join_into ret x) = (wsum g ret + wsum g x)%Qc.
Proof.
  induction x as [| [v c] x IH]; intros ret.
  - change (join_into ret []) with ret. change (wsum g []) with (Z2Qc 0).
    rewrite Z2Qc_0. ring.
  - rewrite join_into_cons, IH, wsum_set, wsum_cons. ring.
Qed.

Lemma wsum_join (g : value -> Qc) (x y : count_data) :
  wsum g (join_count_data [x; y]) = (wsum g x + wsum g y)%Qc.
Proof.
  rewrite join_two, !wsum_join_into. change (wsum g []) with (Z2Qc 0).
  rewrite Z2Qc_0. ring.
Qed.

Lemma sample_size_join (x y : count_data) :
  sample_size (join_count_data [x; y]) = sample_size x + sample_size y.
Proof. rewrite join_two, !sample_size_join_into. reflexivity. Qed.

Lemma Qc_square_nonneg (q : Qc) : (0 <= q ^ 2)%Qc.
Proof.
  replace (q ^ 2)%Qc with (q * q)%Qc by (cbn [Qcpower]; ring).
  destruct (Qclt_le_dec q 0) as [Hneg | Hpos].
  - replace (q * q)%Qc with ((- q) * (- q))%Qc by ring.
    assert (H : (0 <= - q)%Qc).
    { apply Qclt_le_weak. apply Qclt_minus_iff in Hneg.
      now rewrite Qcplus_0_l in Hneg. }
    replace 0%Qc with (0 * - q)%Qc by ring.
    now apply Qcmult_le_compat_r.
  - replace 0%Qc with (0 * q)%Qc by ring.
    now apply Qcmult_le_compat_r.
Qed.

Lemma Qc_mult_nonneg (a b : Qc) : (0 <= a -> 0 <= b -> 0 <= a * b)%Qc.
Proof.
  intros Ha Hb. replace 0%Qc with (0 * b)%Qc by ring.
  now apply Qcmult_le_compat_r.
Qed.

Lemma Qc_plus_nonneg (a b : Qc) : (0 <= a -> 0 <= b -> 0 <= a + b)%Qc.
Proof.
  intros Ha Hb. replace 0%Qc with (0 + 0)%Qc by ring.
  now apply Qcplus_le_compat.
Qed.

Lemma Qc_div_nonneg (a b : Qc) : (0 <= a -> 0 < b -> 0 <= a / b)%Qc.
Proof.
  intros Ha Hb. apply Qcmult_lt_0_le_reg_r with b; [exact Hb |].
  assert (Hb' : b <> 0%Qc).
  { intros ->. now apply (Qclt_not_eq 0 0). }
  replace (0 * b)%Qc with 0%Qc by ring.
  replace (a / b * b)%Qc with a by (field; exact Hb').
  exact Ha.
Qed.

Lemma wsum_nonneg (g : value -> Qc) (x : count_data) :
  (forall v, (0 <= g v)%Qc) -> negative_counts x = [] -> (0 <= wsum g x)%Qc.
Proof.
  intros Hg. induction x as [| [v c] x IH]; intros Hneg.
  - change (wsum g []) with (Z2Qc 0). rewrite Z2Qc_0. apply Qcle_refl.
  - apply negative_counts_cons in Hneg. destruct Hneg as [Hc Hneg].
    rewrite wsum_cons. apply Qc_plus_nonneg; [| now apply IH].
    apply Qc_mult_nonneg; [apply Hg |].
    rewrite <- Z2Qc_0. now apply Z2Qc_le.
Qed.

Lemma Z2Qc_nonneg (n : Z) : 0 <= n -> (0 <= Z2Qc n)%Qc.
Proof. intros H. rewrite <- Z2Qc_0. now apply Z2Qc_le. Qed.

Lemma py_div_nonneg (a q : Qc) (n : Z) :
  (0 <= a)%Qc -> 0 <= n -> py_div a (Z2Qc n) = Ok q -> (0 <= q)%Qc.
Proof.
  intros Ha Hn H. apply py_div_inv in H. destruct H as [Hne ->].
  apply Qc_div_nonneg; [exact Ha |].
  rewrite <- Z2Qc_0. apply Z2Qc_lt.
  assert (n <> 0) by (intros ->; now apply Hne). lia.
Qed.

(** X20.  For counts that are not negative the two dispersion estimates
    (lines 181-194) and the pooled term under the square root of line 197
    are never negative. *)
Theorem dispersion_nonnegative (x y : count_data) (m : moments) :
  dict_wf x -> dict_wf y -> orderable x -> orderable y ->
  negative_counts x = [] -> negative_counts y = [] ->
  bm_moments x y (sample_size x) (sample_size y) = Ok m ->
  (0 <= Sx m)%Qc /\ (0 <= Sy m)%Qc /\
  (0 <= pooled (sample_size x) (sample_size y) m)%Qc.
Proof.
  intros Hwx Hwy Hox Hoy Hnx Hny H.
  rewrite bm_moments_closed in H by assumption.
  unfold moments_of in H. bind_ok H.
  inversion H; subst m; clear H. unfold pooled. cbn [Sx Sy].
  pose proof (sample_size_nonneg x Hnx) as Hx0.
  pose proof (sample_size_nonneg y Hny) as Hy0.
  apply py_div_inv in E as Ex. destruct Ex as [Ex _].
  apply py_div_inv in E0 as Ey. destruct Ey as [Ey _].
  assert (Hx1 : 0 <= sample_size x - 1).
  { assert (sample_size x <> 0) by (intros Hz; apply Ex; now rewrite Hz). lia. }
  assert (Hy1 : 0 <= sample_size y - 1).
  { assert (sample_size y <> 0) by (intros Hz; apply Ey; now rewrite Hz). lia. }
  match goal with
  | Ex' : py_div (wsum _ x) (Z2Qc (sample_size x - 1)) = Ok ?s |- _ =>
      assert (Hsx : (0 <= s)%Qc);
      [ eapply py_div_nonneg; [| exact Hx1 | exact Ex'];
        apply wsum_nonneg; [| exact Hnx]; intros v; apply Qc_square_nonneg |]
  end.
  match goal with
  | Ey' : py_div (wsum _ y) (Z2Qc (sample_size y - 1)) = Ok ?s |- _ =>
      assert (Hsy : (0 <= s)%Qc);
      [ eapply py_div_nonneg; [| exact Hy1 | exact Ey'];
        apply wsum_nonneg; [| exact Hny]; intros v; apply Qc_square_nonneg |]
  end.
  repeat split; try assumption.
  apply Qc_plus_nonneg; apply Qc_mult_nonneg;
    auto using Z2Qc_nonneg.
Qed.

Lemma dispersion_nonnegative_witness :
  (0 <= Sx doc_moments)%Qc /\ (0 <= Sy doc_moments)%Qc /\
  (0 <= pooled (sample_size doc_x1) (sample_size doc_x2) doc_moments)%Qc.
Proof.
  apply (dispersion_nonnegative doc_x1 doc_x2 doc_moments); reflexivity.
Defined.

(** ** The scale of the keys *)

Lemma increasing_ltb (f : Qc -> Qc) (a b : Qc) :
  increasing f -> Qc_ltb (f a) (f b) = Qc_ltb a b.
Proof.
  intros Hf. destruct (Qc_ltb a b) eqn:E.
  - apply Qc_ltb_lt. apply Hf. now apply Qc_ltb_lt.
  - apply not_true_iff_false. intros H. apply Qc_ltb_lt in H.
    destruct (Qc_dec a b) as [[Hlt | Hgt] | Heq].
    + apply Qc_ltb_lt in Hlt. congruence.
    + apply Hf in Hgt. apply Qclt_le_weak in Hgt.
      now apply (Qcle_not_lt _ _ Hgt).
    + subst b. now apply (Qcle_not_lt (f a) (f a)); [apply Qcle_refl |].
Qed.

Lemma increasing_eqb (f : Qc -> Qc) (a b : Qc) :
  increasing f -> Qc_eqb (f a) (f b) = Qc_eqb a b.
Proof.
  intros Hf. destruct (Qc_eqb a b) eqn:E.
  - apply Qc_eqb_eq in E. subst. apply Qc_eqb_refl.
  - apply Qc_eqb_neq. intros H. apply Qc_eqb_neq in E.
    destruct (Qc_dec a b) as [[Hlt | Hgt] | Heq]; [| | contradiction].
    + apply Hf in Hlt. rewrite H in Hlt.
      now apply (Qcle_not_lt (f b) (f b)); [apply Qcle_refl |].
    + apply Hf in Hgt. rewrite H in Hgt.
      now apply (Qcle_not_lt (f b) (f b)); [apply Qcle_refl |].
Qed.

Lemma value_ltb_relabel (f : Qc -> Qc) (u v : value) :
  increasing f ->
  value_ltb (relabel_key f u) (relabel_key f v) = value_ltb u v.
Proof. intros Hf. destruct u, v; cbn; auto using increasing_ltb. Qed.

Lemma value_eqb_relabel (f : Qc -> Qc) (u v : value) :
  increasing f ->
  value_eqb (relabel_key f u) (relabel_key f v) = value_eqb u v.
Proof. intros Hf. destruct u, v; cbn; auto using increasing_eqb. Qed.

Lemma isnan_relabel (f : Qc -> Qc) (v : value) :
  isnan (relabel_key f v) = isnan v.
Proof. now destruct v. Qed.

Lemma relabel_cons (f : Qc -> Qc) (x : count_data) (v : value) (c : Z) :
  relabel f ((v, c) :: x) = (relabel_key f v, c) :: relabel f x.
Proof. reflexivity. Qed.

Lemma keys_relabel (f : Qc -> Qc) (x : count_data) :
  keys (relabel f x) = map (relabel_key f) (keys x).
Proof.
  unfold keys, relabel. rewrite !map_map. apply map_ext. now intros [v c].
Qed.

Lemma values_relabel (f : Qc -> Qc) (x : count_data) :
  values (relabel f x) = values x.
Proof.
  unfold values, relabel. rewrite map_map. apply map_ext. now intros [v c].
Qed.

Lemma below_relabel (f : Qc -> Qc) (x : count_data) (v : value) :
  increasing f -> below (relabel f x) (relabel_key f v) = below x v.
Proof.
  intros Hf. induction x as [| [u c] x IH]; [reflexivity |].
  now rewrite relabel_cons, !below_cons, IH, value_ltb_relabel.
Qed.

Lemma count_all_relabel (f : Qc -> Qc) (x : count_data) (v : value) :
  increasing f -> count_all (relabel f x) (relabel_key f v) = count_all x v.
Proof.
  intros Hf. induction x as [| [u c] x IH]; [reflexivity |].
  now rewrite relabel_cons, !count_all_cons, IH, value_eqb_relabel.
Qed.

Lemma dict_find_relabel (f : Qc -> Qc) (x : count_data) (v : value) :
  increasing f -> dict_find (relabel f x) (relabel_key f v) = dict_find x v.
Proof.
  intros Hf. induction x as [| [u c] x IH]; [reflexivity |].
  rewrite relabel_cons. cbn [dict_find].
  now rewrite IH, value_eqb_relabel.
Qed.

Lemma rank_of_relabel (f : Qc -> Qc) (x : count_data) (v : value) :
  increasing f -> rank_of (relabel f x) (relabel_key f v) = rank_of x v.
Proof.
  intros Hf. unfold rank_of, cursor_of, dict_get.
  now rewrite below_relabel, dict_find_relabel.
Qed.

Lemma rank_of_join_relabel (f : Qc -> Qc) (x y : count_data) (v : value) :
  increasing f ->
  rank_of (join_count_data [relabel f x; relabel f y]) (relabel_key f v) =
  rank_of (join_count_data [x; y]) v.
Proof.
  intros Hf. unfold rank_of, cursor_of.
  rewrite !below_join, !dict_get_join.
  now rewrite !below_relabel, !count_all_relabel.
Qed.

Lemma relabel_key_inj (f : Qc -> Qc) (u v : value) :
  increasing f -> relabel_key f u = relabel_key f v -> u = v.
Proof.
  intros Hf H. apply value_eqb_eq. rewrite <- (value_eqb_relabel f) by exact Hf.
  now apply value_eqb_eq.
Qed.

Lemma dict_wf_relabel (f : Qc -> Qc) (x : count_data) :
  increasing f -> dict_wf x -> dict_wf (relabel f x).
Proof.
  intros Hf. induction x as [| [u c] x IH]; intros Hwf; [reflexivity |].
  apply dict_wf_cons in Hwf. destruct Hwf as [Hnin Hwf].
  rewrite relabel_cons. apply dict_wf_cons. split; [| now apply IH].
  rewrite keys_relabel. intros Hin. apply in_map_iff in Hin.
  destruct Hin as [u' [Heq Hin]].
  apply relabel_key_inj in Heq; [| exact Hf]. subst u'. contradiction.
Qed.

Lemma orderable_relabel (f : Qc -> Qc) (x : count_data) :
  orderable x -> orderable (relabel f x).
Proof.
  rewrite !orderable_spec. intros H v Hv. rewrite keys_relabel in Hv.
  apply in_map_iff in Hv. destruct Hv as [u [<- Hu]].
  rewrite isnan_relabel. now apply H.
Qed.

Lemma omit_nan_relabel (f : Qc -> Qc) (x : count_data) :
  omit_nan (relabel f x) = relabel f (omit_nan x).
Proof.
  induction x as [| [u c] x IH]; [reflexivity |].
  rewrite relabel_cons. unfold omit_nan in *. cbn [filter].
  rewrite isnan_relabel. destruct (negb (isnan u)).
  - now rewrite relabel_cons, IH.
  - exact IH.
Qed.

Lemma has_nan_relabel (f : Qc -> Qc) (x y : count_data) :
  has_nan (relabel f x) (relabel f y) = has_nan x y.
Proof.
  assert (H : forall l, existsb isnan (map (relabel_key f) l) = existsb isnan l).
  { induction l as [| v l IH]; [reflexivity |].
    cbn [map existsb]. now rewrite isnan_relabel, IH. }
  unfold has_nan. now rewrite !keys_relabel, !H.
Qed.

Lemma sample_size_relabel (f : Qc -> Qc) (x : count_data) :
  sample_size (relabel f x) = sample_size x.
Proof. unfold sample_size. now rewrite values_relabel. Qed.

Lemma negative_counts_relabel (f : Qc -> Qc) (x : count_data) :
  negative_counts (relabel f x) = negative_counts x.
Proof. unfold negative_counts. now rewrite values_relabel. Qed.

Lemma wsum_relabel (f : Qc -> Qc) (g : value -> Qc) (x : count_data) :
  wsum g (relabel f x) = wsum (fun v => g (relabel_key f v)) x.
Proof.
  induction x as [| [u c] x IH]; [reflexivity |].
  now rewrite relabel_cons, !wsum_cons, IH.
Qed.

Lemma moments_of_relabel (f : Qc -> Qc) (gc' gc gx' gx gy' gy : value -> Qc)
    (x y : count_data) (nx ny : Z) :
  (forall v, gc' (relabel_key f v) = gc v) ->
  (forall v, gx' (relabel_key f v) = gx v) ->
  (forall v, gy' (relabel_key f v) = gy v) ->
  moments_of gc' gx' gy' (relabel f x) (relabel f y) nx ny =
  moments_of gc gx gy x y nx ny.
Proof.
  intros Hc Hgx Hgy. unfold moments_of. rewrite !wsum_relabel.
  rewrite (wsum_ext _ gc x) by auto.
  apply bind_ext. intros mcx _.
  rewrite (wsum_ext _ gc y) by auto.
  apply bind_ext. intros mcy _.
  rewrite (wsum_ext _ gx x) by auto.
  apply bind_ext. intros mx _.
  rewrite (wsum_ext _ gy y) by auto.
  apply bind_ext. intros my _.
  rewrite !wsum_relabel.
  rewrite (wsum_ext _ (fun v => (gc v - gx v - mcx + mx) ^ 2)%Qc x)
    by (intros v _; now rewrite Hc, Hgx).
  apply bind_ext. intros sx _.
  rewrite (wsum_ext _ (fun v => (gc v - gy v - mcy + my) ^ 2)%Qc y)
    by (intros v _; now rewrite Hc, Hgy).
  reflexivity.
Qed.

Lemma triple_increasing : increasing triple.
Proof.
  intros a b H. unfold triple. apply Qcmult_lt_compat_r; [| exact H].
  rewrite <- Z2Qc_0. now apply Z2Qc_lt.
Qed.

Section KeyScale.

Variable np_sqrt : Qc -> npfloat.
Variable t_cdf : npfloat -> npfloat -> npfloat.
Variable norm_cdf : npfloat -> npfloat.

Lemma bm_test_relabel (f : Qc -> Qc) (x y : count_data)
    (alternative distribution : string) :
  increasing f ->
  dict_wf x -> dict_wf y -> orderable x -> orderable y ->
  bm_test np_sqrt t_cdf norm_cdf (relabel f x) (relabel f y)
    alternative distribution =
  bm_test np_sqrt t_cdf norm_cdf x y alternative distribution.
Proof.
  intros Hf Hwx Hwy Hox Hoy. unfold bm_test.
  rewrite !sample_size_relabel.
  rewrite !bm_moments_closed
    by auto using dict_wf_relabel, orderable_relabel.
  rewrite (moments_of_relabel f _ (rank_of (join_count_data [x; y]))
             _ (rank_of x) _ (rank_of y));
    auto using rank_of_relabel, rank_of_join_relabel.
Qed.

(** X21.  Only the order of the keys matters, not their values: carrying
    the keys of both Count Maps to another scale by a strictly increasing
    function gives the same outcome (the same pair, or the same error). *)
Theorem key_scale_irrelevant (f : Qc -> Qc) (x y : count_data)
    (alternative distribution nan_policy : string) :
  increasing f -> dict_wf x -> dict_wf y ->
  brunnermunzel_from_count_data np_sqrt t_cdf norm_cdf
    (relabel f x) (relabel f y) alternative distribution nan_policy =
  brunnermunzel_from_count_data np_sqrt t_cdf norm_cdf
    x y alternative distribution nan_policy.
Proof.
  intros Hf Hwx Hwy. rewrite !brunnermunzel_unfold.
  rewrite !negative_counts_relabel, has_nan_relabel, !omit_nan_relabel.
  rewrite (bm_test_relabel f (omit_nan x) (omit_nan y))
    by auto using omit_nan_wf, omit_nan_orderable.
  reflexivity.
Qed.

End KeyScale.

Lemma key_scale_irrelevant_witness :
  increasing triple /\
  brunnermunzel_from_count_data floor_sqrt step_t_cdf step_cdf
    (relabel triple doc_x1) (relabel triple doc_x2)
    "two-sided" "t" "propagate" =
  brunnermunzel_from_count_data floor_sqrt step_t_cdf step_cdf
    doc_x1 doc_x2 "two-sided" "t" "propagate".
Proof.
  split; [exact triple_increasing |].
  apply (key_scale_irrelevant floor_sqrt step_t_cdf step_cdf triple
           doc_x1 doc_x2 "two-sided" "t" "propagate" triple_increasing);
    reflexivity.
Defined.

(** * The ranks and their sums in binary64 *)

(** ** Numbers that are not rounded *)

Lemma Qc_le_num (q : Qc) (b : Z) :
  (q <= Z2Qc b)%Qc <-> Qnum q <= b * Z.pos (Qden q).
Proof.
  unfold Qcle, Z2Qc. cbn [this Q2Qc]. rewrite Qred_correct.
  unfold Qle. cbn [Qnum Qden inject_Z]. rewrite Z.mul_1_r. reflexivity.
Qed.

Lemma Qc_ge_num (q : Qc) (b : Z) :
  (Z2Qc b <= q)%Qc <-> b * Z.pos (Qden q) <= Qnum q.
Proof.
  unfold Qcle, Z2Qc. cbn [this Q2Qc]. rewrite Qred_correct.
  unfold Qle. cbn [Qnum Qden inject_Z]. rewrite Z.mul_1_r. reflexivity.
Qed.

Lemma Qc_floor_Z2Qc (z : Z) : Qc_floor (Z2Qc z) = z.
Proof.
  unfold Qc_floor.
  assert (H1 : (Z2Qc z <= Z2Qc z)%Qc) by apply Qcle_refl.
  pose proof (proj1 (Qc_le_num _ _) H1) as Hle.
  pose proof (proj1 (Qc_ge_num _ _) H1) as Hge.
  set (n := Qnum (Z2Qc z)) in *. set (d := Z.pos (Qden (Z2Qc z))) in *.
  assert (Hd : 0 < d) by (subst d; lia).
  assert (n = z * d) by lia. subst n. rewrite H. now apply Z.div_mul, Z.neq_sym, Z.lt_neq.
Qed.

Lemma round_half_even_Z2Qc (z : Z) : round_half_even (Z2Qc z) = z.
Proof.
  unfold round_half_even. rewrite Qc_floor_Z2Qc.
  replace (Z2Qc z - Z2Qc z)%Qc with (Z2Qc 0) by (rewrite Z2Qc_0; ring).
  reflexivity.
Qed.

Lemma Z2Qc_pos (n : Z) : 0 < n -> (0 < Z2Qc n)%Qc.
Proof. intros H. rewrite <- Z2Qc_0. now apply Z2Qc_lt. Qed.

Lemma pow2_neq_0 (e : Z) : pow2 e <> 0%Qc.
Proof.
  unfold pow2. destruct (0 <=? e) eqn:E.
  - apply Z2Qc_neq_0. apply Z.pow_nonzero; lia.
  - intros H.
    assert (Ha : Z2Qc (2 ^ (- e)) <> 0%Qc)
      by (apply Z2Qc_neq_0, Z.pow_nonzero; lia).
    pose proof (Qcmult_inv_r _ Ha) as Hi. rewrite H, Qcmult_0_r in Hi.
    apply (f_equal this) in Hi. discriminate Hi.
Qed.

(** A half-integer divided by a power of two below 1 is an integer. *)
Lemma half_of_scaled (k e : Z) :
  e <= -1 -> (half_of k / pow2 e)%Qc = Z2Qc (k * 2 ^ (- e - 1)).
Proof.
  intros He. unfold half_of, pow2.
  destruct (Z.leb_spec 0 e) as [H | _]; [lia |].
  replace (2 ^ (- e)) with (2 * 2 ^ (- e - 1))
    by (rewrite <- Z.pow_succ_r by lia; f_equal; lia).
  assert (Hp : Z2Qc (2 ^ (- e - 1)) <> 0%Qc)
    by (apply Z2Qc_neq_0, Z.pow_nonzero; lia).
  rewrite !Z2Qc_mul, Z2Qc_2. field.
  repeat split; try exact Hp; intros H; apply (f_equal this) in H; discriminate H.
Qed.

Lemma floor_log2_le (q : Qc) :
  (q <= Z2Qc (2 ^ 52))%Qc -> floor_log2 q <= 52.
Proof.
  intros H. apply Qc_le_num in H. unfold floor_log2.
  set (n := Qnum q) in *. set (d := Z.pos (Qden q)) in *.
  assert (Hd : 0 < d) by (subst d; lia).
  destruct (Z.leb_spec d n) as [Hdn | Hdn].
  - assert (Hq : n / d <= 2 ^ 52) by (apply Z.div_le_upper_bound; lia).
    apply Z.log2_le_mono in Hq. rewrite Z.log2_pow2 in Hq; lia.
  - pose proof (Z.log2_up_nonneg ((d + n - 1) / n)). lia.
Qed.

Lemma floor_log2_ge (q : Qc) :
  52 <= floor_log2 q -> (Z2Qc (2 ^ 52) <= q)%Qc.
Proof.
  intros H. apply Qc_ge_num. unfold floor_log2 in H.
  set (n := Qnum q) in *. set (d := Z.pos (Qden q)) in *.
  assert (Hd : 0 < d) by (subst d; lia).
  destruct (Z.leb_spec d n) as [Hdn | Hdn].
  - assert (Hpos : 0 < n / d) by (apply Z.div_str_pos; lia).
    pose proof (Z.log2_spec (n / d) Hpos) as [Hlo _].
    assert (Hp : 2 ^ 52 <= 2 ^ Z.log2 (n / d)) by (apply Z.pow_le_mono_r; lia).
    assert (Hq : 2 ^ 52 <= n / d) by lia.
    pose proof (Z.mul_div_le n d Hd). nia.
  - pose proof (Z.log2_up_nonneg ((d + n - 1) / n)). lia.
Qed.

Lemma round64_scaled (q : Qc) (m : Z) :
  q <> 0%Qc -> (q / pow2 (ulp_exp q))%Qc = Z2Qc m -> round64 q = q.
Proof.
  intros Hq Hm. unfold round64.
  destruct (Qc_eqb q (Z2Qc 0)) eqn:E.
  - apply Qc_eqb_eq in E. rewrite Z2Qc_0 in E. contradiction.
  - cbv zeta. rewrite Hm, round_half_even_Z2Qc, <- Hm.
    field. apply pow2_neq_0.
Qed.


Lemma Qc_inv_two_nonneg : (0 <= / Z2Qc 2)%Qc.
Proof. unfold Qcle. vm_compute. discriminate. Qed.

Lemma half_of_le (k b : Z) : k <= 2 * b -> (half_of k <= Z2Qc b)%Qc.
Proof.
  intros H. replace (Z2Qc b) with (half_of (2 * b)).
  - unfold half_of, Qcdiv. apply Qcmult_le_compat_r.
    + now apply Z2Qc_le.
    + apply Qc_inv_two_nonneg.
  - unfold half_of. rewrite Z2Qc_mul. field. apply Z2Qc_2_neq_0.
Qed.

Lemma half_of_pos (k : Z) : 0 < k -> (0 < half_of k)%Qc.
Proof.
  intros H. unfold half_of, Qcdiv.
  replace 0%Qc with (0 * / Z2Qc 2)%Qc by ring.
  apply Qcmult_lt_compat_r.
  - unfold Qclt. vm_compute. reflexivity.
  - now apply Z2Qc_pos.
Qed.

Lemma Qc_abs_pos (q : Qc) : (0 < q)%Qc -> Qc_abs q = q.
Proof.
  intros H. unfold Qc_abs. destruct (Qc_ltb q (Z2Qc 0)) eqn:E; [| reflexivity].
  apply Qc_ltb_lt in E. rewrite Z2Qc_0 in E.
  exfalso. apply (Qclt_not_le _ _ H). now apply Qclt_le_weak.
Qed.

(** A half-integer up to 2^52 is a binary64 number. *)
Lemma round64_half_of (k : Z) :
  0 <= k <= 2 ^ 53 -> round64 (half_of k) = half_of k.
Proof.
  intros [Hlo Hhi].
  destruct (Z.eq_dec k 0) as [-> | Hk].
  - assert (H0 : half_of 0 = Z2Qc 0) by now apply Qc_is_canon.
    rewrite H0. unfold round64. now rewrite Qc_eqb_refl.
  - assert (Hpos : (0 < half_of k)%Qc) by (apply half_of_pos; lia).
    assert (Hne : half_of k <> 0%Qc).
    { intros H. rewrite H in Hpos. now apply (Qclt_not_eq 0 0) in Hpos. }
    assert (Hle : (half_of k <= Z2Qc (2 ^ 52))%Qc)
      by (apply half_of_le; change (2 ^ 53) with (2 * 2 ^ 52) in Hhi; lia).
    pose proof (floor_log2_le _ Hle) as Hfl.
    assert (He : ulp_exp (half_of k) = Z.max (floor_log2 (half_of k) - 52) (-1074)).
    { unfold ulp_exp. now rewrite Qc_abs_pos. }
    destruct (Z_le_gt_dec (ulp_exp (half_of k)) (-1)) as [Hneg | Hzero].
    + apply (round64_scaled _ (k * 2 ^ (- ulp_exp (half_of k) - 1)) Hne).
      now apply half_of_scaled.
    + assert (Hu : ulp_exp (half_of k) = 0) by lia.
      assert (Hge : (Z2Qc (2 ^ 52) <= half_of k)%Qc)
        by (apply floor_log2_ge; lia).
      assert (Heq : half_of k = Z2Qc (2 ^ 52)) by now apply Qcle_antisym.
      apply (round64_scaled _ (2 ^ 52) Hne).
      rewrite Hu, Heq. now apply Qc_is_canon.
Qed.

Lemma Z2Qc_half_of (c : Z) : Z2Qc c = half_of (2 * c).
Proof. unfold half_of. rewrite Z2Qc_mul. field. apply Z2Qc_2_neq_0. Qed.

Lemma fl_of_int_exact (c : Z) : 0 <= c <= 2 ^ 52 -> fl_of_int c = Z2Qc c.
Proof.
  intros H. unfold fl_of_int. rewrite Z2Qc_half_of.
  apply round64_half_of. change (2 ^ 53) with (2 * 2 ^ 52). lia.
Qed.

Lemma half_of_add (a b : Z) : (half_of a + half_of b)%Qc = half_of (a + b).
Proof. unfold half_of. rewrite Z2Qc_add. field. apply Z2Qc_2_neq_0. Qed.

Lemma half_of_mul (a c : Z) : (half_of a * Z2Qc c)%Qc = half_of (a * c).
Proof. unfold half_of. rewrite Z2Qc_mul. field. apply Z2Qc_2_neq_0. Qed.

Lemma half_of_inj (a b : Z) : half_of a = half_of b -> a = b.
Proof.
  intros H. apply Z2Qc_inj. unfold half_of in H.
  replace (Z2Qc a) with (Z2Qc a / Z2Qc 2 * Z2Qc 2)%Qc
    by (field; apply Z2Qc_2_neq_0).
  rewrite H. field. apply Z2Qc_2_neq_0.
Qed.

(** ** Sums that are not rounded *)

Lemma zsum_nonneg (l : list Z) : Forall (Z.le 0) l -> 0 <= zsum l.
Proof.
  induction 1 as [| a l Ha Hl IH]; [cbn; lia |].
  change (zsum (a :: l)) with (a + zsum l). lia.
Qed.

Lemma zsum_in_le (l : list Z) (k : Z) :
  Forall (Z.le 0) l -> In k l -> k <= zsum l.
Proof.
  induction 1 as [| a l Ha Hl IH]; intros Hin; [destruct Hin |].
  pose proof (zsum_nonneg l Hl).
  change (zsum (a :: l)) with (a + zsum l). destruct Hin as [-> | Hin].
  - lia.
  - specialize (IH Hin). lia.
Qed.

Lemma fold_fl_add_exact (ks : list Z) :
  forall acc, 0 <= acc -> Forall (Z.le 0) ks -> acc + zsum ks <= 2 ^ 53 ->
    fold_left fl_add (map half_of ks) (half_of acc) = half_of (acc + zsum ks).
Proof.
  induction ks as [| k ks IH]; intros acc Hacc Hks Hb.
  - cbn. now rewrite Z.add_0_r.
  - inversion Hks as [| ? ? Hk Hks']; subst.
    pose proof (zsum_nonneg ks Hks') as Hs.
    change (zsum (k :: ks)) with (k + zsum ks) in *.
    cbn [map fold_left]. unfold fl_add at 2. rewrite half_of_add, round64_half_of by lia.
    rewrite IH by (try assumption; lia). f_equal. lia.
Qed.

Lemma fl_sum_exact (ks : list Z) :
  Forall (Z.le 0) ks -> zsum ks <= 2 ^ 53 ->
  fl_sum (map half_of ks) = half_of (zsum ks).
Proof.
  intros Hks Hb. unfold fl_sum.
  replace (Z2Qc 0) with (half_of 0) by now apply Qc_is_canon.
  now rewrite fold_fl_add_exact.
Qed.

Lemma fl_weighted_ranks_exact (rank : dict Qc) (g : value -> Z) (x : count_data) :
  (forall v, In v (keys x) -> dict_getitem rank v = Ok (half_of (g v))) ->
  (forall v c, In (v, c) x ->
     0 <= c <= 2 ^ 52 /\ 0 <= g v * c <= 2 ^ 53) ->
  fl_weighted_ranks rank x = Ok (map half_of (zterms g x)).
Proof.
  intros Hrank Hb. unfold fl_weighted_ranks, zterms. rewrite map_map.
  apply mapM_ok. intros [v c] Hin.
  rewrite (Hrank v) by (eapply in_keys; eauto). cbn [bind].
  destruct (Hb v c Hin) as [Hc Hg].
  unfold fl_mul. rewrite fl_of_int_exact, half_of_mul, round64_half_of by assumption.
  reflexivity.
Qed.

Lemma wsum_half_of (g : value -> Z) (x : count_data) :
  wsum (fun v => half_of (g v)) x = half_of (zsum (zterms g x)).
Proof.
  induction x as [| [v c] x IH].
  - now apply Qc_is_canon.
  - rewrite wsum_cons, IH, half_of_mul, half_of_add. reflexivity.
Qed.

Lemma rank_of_twice (x : count_data) (v : value) :
  rank_of x v = half_of (twice_rank x v).
Proof. reflexivity. Qed.

Lemma counts_of_nonneg (x : count_data) (ks : list value) :
  (forall v, 0 <= dict_get x v 0) -> 0 <= counts_of x ks.
Proof.
  intros H. induction ks as [| v ks IH]; [reflexivity |].
  unfold counts_of in *. cbn [fold_right]. specialize (H v). lia.
Qed.

Lemma spans_bound (x : count_data) (ks : list value) :
  (forall v, 0 <= dict_get x v 0) ->
  forall r v s, In (v, s) (spans x ks r) ->
    r <= fst s /\ fst s - 1 <= snd s /\ snd s <= r + counts_of x ks - 1.
Proof.
  intros Hx. induction ks as [| u ks IH]; intros r v s Hin; [destruct Hin |].
  pose proof (counts_of_nonneg x ks Hx) as Hks. pose proof (Hx u) as Hu.
  change (counts_of x (u :: ks)) with (dict_get x u 0 + counts_of x ks).
  cbn [spans] in Hin. destruct Hin as [Heq | Hin].
  - inversion Heq; subst. cbn [fst snd]. lia.
  - apply IH in Hin. lia.
Qed.

Lemma counts_of_keys (x : count_data) :
  dict_wf x -> counts_of x (keys x) = sample_size x.
Proof.
  induction x as [| [v c] x IH]; intros Hwf; [reflexivity |].
  apply dict_wf_cons in Hwf. destruct Hwf as [Hnin Hwf].
  change (keys ((v, c) :: x)) with (v :: keys x).
  change (counts_of ((v, c) :: x) (v :: keys x))
    with (dict_get ((v, c) :: x) v 0 + counts_of ((v, c) :: x) (keys x)).
  rewrite dict_get_cons_same, sample_size_cons, <- IH by assumption.
  f_equal. unfold counts_of. clear IH.
  assert (H : forall ks, ~ In v ks ->
            fold_right (fun u acc => dict_get ((v, c) :: x) u 0 + acc) 0 ks =
            fold_right (fun u acc => dict_get x u 0 + acc) 0 ks).
  { induction ks as [| u ks IHk]; intros Hn; [reflexivity |].
    cbn [fold_right]. rewrite IHk by (intros H; apply Hn; now right).
    rewrite dict_get_cons_other by (intros ->; apply Hn; now left).
    reflexivity. }
  now apply H.
Qed.

Lemma dict_get_nonneg (x : count_data) (v : value) :
  dict_wf x -> negative_counts x = [] -> 0 <= dict_get x v 0.
Proof.
  intros Hwf Hneg. rewrite <- count_all_wf by assumption.
  now apply count_all_nonneg.
Qed.

(** As long as twice the sample size stays below 2^53, no rank is
    rounded. *)
Lemma fl_rank_count_data_exact (x : count_data) :
  dict_wf x -> (forall v, 0 <= dict_get x v 0) ->
  2 * sample_size x + 1 <= 2 ^ 53 ->
  fl_rank_count_data x "average" = Ok (ranks x).
Proof.
  intros Hwf Hx Hb. unfold fl_rank_count_data.
  replace (str_in "average" "average") with true by reflexivity. cbn [negb].
  rewrite rank_loop_spans.
  - cbn [bind app]. unfold ranks. apply f_equal. apply map_ext_in.
    intros [v s] Hin. apply f_equal. apply spans_bound in Hin; [| exact Hx].
    rewrite (counts_of_perm x _ _ (sorted_perm (keys x))) in Hin.
    rewrite counts_of_keys in Hin by exact Hwf.
    unfold fl_midrank, midrank. apply (round64_half_of (fst s + snd s)). lia.
  - intros v Hv. now apply sorted_in.
  - apply sorted_NoDup. now apply dict_wf_NoDup.
  - intros v _ [].
Qed.

Lemma size_bound (n : Z) :
  0 <= n -> n * (n + 1) <= 2 ^ 53 -> 2 * n + 1 <= 2 ^ 53 /\ n <= 2 ^ 52.
Proof.
  intros Hn Hb.
  assert (Hp : 2 ^ 53 = 2 * 2 ^ 52) by reflexivity.
  assert (Hq : 3 <= 2 ^ 52) by (apply Z.leb_le; reflexivity).
  rewrite Hp in *. nia.
Qed.

Lemma twice_rank_pos (x : count_data) (v : value) :
  0 <= below x v -> 0 <= dict_get x v 0 -> 1 <= twice_rank x v.
Proof. unfold twice_rank, cursor_of. lia. Qed.

Lemma in_count_le_size (x : count_data) (v : value) (c : Z) :
  negative_counts x = [] -> In (v, c) x -> 0 <= c <= sample_size x.
Proof.
  induction x as [| [u d] x IH]; intros Hneg Hin; [destruct Hin |].
  apply negative_counts_cons in Hneg. destruct Hneg as [Hd Hneg].
  pose proof (sample_size_nonneg x Hneg) as Hs.
  rewrite sample_size_cons. destruct Hin as [Heq | Hin].
  - inversion Heq; subst. lia.
  - specialize (IH Hneg Hin). lia.
Qed.

Lemma zterms_nonneg (g : value -> Z) (x : count_data) :
  (forall v, 0 <= g v) -> negative_counts x = [] ->
  Forall (Z.le 0) (zterms g x).
Proof.
  intros Hg. induction x as [| [v c] x IH]; intros Hneg; [constructor |].
  apply negative_counts_cons in Hneg. destruct Hneg as [Hc Hneg].
  constructor; [| now apply IH]. specialize (Hg v). nia.
Qed.

(** The weighted sum of line 174 or 178 when nothing is rounded: the
    rank map holds the half-integers [g v / 2], and the terms of [x] sum
    to at most 2^52. *)
Lemma fl_weighted_sum_exact (rank : dict Qc) (g : value -> Z) (x : count_data) :
  (forall v, In v (keys x) -> dict_getitem rank v = Ok (half_of (g v))) ->
  (forall v, 0 <= g v) -> negative_counts x = [] ->
  sample_size x <= 2 ^ 52 -> zsum (zterms g x) <= 2 ^ 53 ->
  exists terms,
    fl_weighted_ranks rank x = Ok terms /\
    fl_sum terms = half_of (zsum (zterms g x)).
Proof.
  intros Hrank Hg Hneg Hn Hb.
  pose proof (zterms_nonneg g x Hg Hneg) as Hnn.
  exists (map half_of (zterms g x)). split.
  - apply fl_weighted_ranks_exact; [exact Hrank |].
    intros v c Hin. pose proof (in_count_le_size x v c Hneg Hin) as Hc.
    split; [lia |]. split; [specialize (Hg v); nia |].
    transitivity (zsum (zterms g x)); [| exact Hb].
    apply zsum_in_le; [exact Hnn |].
    unfold zterms. apply in_map_iff. now exists (v, c).
  - now apply fl_sum_exact.
Qed.

Lemma twice_rank_sum (x : count_data) :
  dict_wf x -> orderable x ->
  zsum (zterms (twice_rank x) x) = sample_size x * (sample_size x + 1).
Proof.
  intros Hwf Hord. apply half_of_inj.
  rewrite <- wsum_half_of. now apply wsum_rank_of.
Qed.

Lemma twice_rank_nonneg (x : count_data) (v : value) :
  dict_wf x -> negative_counts x = [] -> 0 <= twice_rank x v.
Proof.
  intros Hwf Hneg.
  pose proof (twice_rank_pos x v (below_nonneg x v Hneg)
                (dict_get_nonneg x v Hwf Hneg)). lia.
Qed.

(** C3. The ranks of a map with non-negative counts, each weighted by
    the count of its key and summed as lines 174 and 178 sum them
    (binary64 products, added one by one), give [n (n + 1) / 2] exactly
    for the total count [n], as long as [n (n + 1) <= 2^53]: below that
    bound no rank, no product and no partial sum is rounded. *)
Theorem rank_count_data_weighted_sum_binary64 (x : count_data) :
  dict_wf x -> orderable x -> negative_counts x = [] ->
  sample_size x * (sample_size x + 1) <= 2 ^ 53 ->
  exists rank terms,
    fl_rank_count_data x "average" = Ok rank /\
    fl_weighted_ranks rank x = Ok terms /\
    fl_sum terms = (Z2Qc (sample_size x * (sample_size x + 1)) / Z2Qc 2)%Qc.
Proof.
  intros Hwf Hord Hneg Hb.
  pose proof (sample_size_nonneg x Hneg) as Hn.
  destruct (size_bound _ Hn Hb) as [Hb1 Hb2].
  pose proof (twice_rank_sum x Hwf Hord) as Hsum.
  destruct (fl_weighted_sum_exact (ranks x) (twice_rank x) x)
    as [terms [Hterms Hs]]; try assumption.
  - intros v Hv. now apply ranks_getitem.
  - intros v. now apply twice_rank_nonneg.
  - now rewrite Hsum.
  - exists (ranks x), terms. split; [| split; [exact Hterms |]].
    + apply fl_rank_count_data_exact; try assumption.
      intros v. now apply dict_get_nonneg.
    + now rewrite Hs, Hsum.
Qed.

Lemma rank_count_data_weighted_sum_binary64_witness :
  exists rank terms,
    fl_rank_count_data doc_x1 "average" = Ok rank /\
    fl_weighted_ranks rank doc_x1 = Ok terms /\
    fl_sum terms = Z2Qc 105.
Proof.
  destruct (rank_count_data_weighted_sum_binary64 doc_x1)
    as [rank [terms [H1 [H2 H3]]]];
    try reflexivity; [vm_compute; discriminate |].
  exists rank, terms. split; [exact H1 |]. split; [exact H2 |].
  rewrite H3. now apply Qc_is_canon.
Defined.

(** C3 as stated fails in the arithmetic of the code: for
    [{0: 94906267, 1: 94906267}] the ranks are 47453134.0 and
    142359401.0, the second product 13510799321266067 is rounded to
    13510799321266068.0, and the sum comes out as 18014399126656848.0,
    while [n (n + 1) / 2] is 18014399126656845. *)
Lemma weighted_rank_sum_is_rounded :
  dict_wf big_pair /\ orderable big_pair /\ negative_counts big_pair = [] /\
  sample_size big_pair = 189812534 /\
  fl_rank_count_data big_pair "average" =
    Ok [(key 0, Z2Qc 47453134); (key 1, Z2Qc 142359401)] /\
  fl_weighted_ranks [(key 0, Z2Qc 47453134); (key 1, Z2Qc 142359401)] big_pair =
    Ok [Z2Qc 4503599805390778; Z2Qc 13510799321266068] /\
  fl_sum [Z2Qc 4503599805390778; Z2Qc 13510799321266068] =
    Z2Qc 18014399126656848 /\
  Z2Qc 18014399126656848 <> (Z2Qc (189812534 * (189812534 + 1)) / Z2Qc 2)%Qc.
Proof.
  repeat (split; [first [reflexivity | eval_eq] |]).
  intros H. apply (f_equal this) in H. vm_compute in H. discriminate H.
Qed.

(** X18.  The mean of the within-group ranks (lines 178-179), computed
    in binary64, does not depend on the data: for a sample of size [n]
    with [1 <= n] and [n (n + 1) <= 2^53] it is [(n + 1) / 2] exactly. *)
Theorem within_group_mean_rank_binary64 (x : count_data) :
  dict_wf x -> orderable x -> negative_counts x = [] ->
  1 <= sample_size x ->
  sample_size x * (sample_size x + 1) <= 2 ^ 53 ->
  exists rank,
    fl_rank_count_data x "average" = Ok rank /\
    fl_rank_mean rank x (sample_size x) =
    Ok (Qcdiv (Z2Qc (sample_size x + 1)) (Z2Qc 2)).
Proof.
  intros Hwf Hord Hneg Hn Hb.
  assert (Hn0 : 0 <= sample_size x) by lia.
  destruct (size_bound _ Hn0 Hb) as [Hb1 Hb2].
  pose proof (twice_rank_sum x Hwf Hord) as Hsum.
  destruct (fl_weighted_sum_exact (ranks x) (twice_rank x) x)
    as [terms [Hterms Hs]]; try assumption.
  - intros v Hv. now apply ranks_getitem.
  - intros v. now apply twice_rank_nonneg.
  - now rewrite Hsum.
  - exists (ranks x). split.
    + apply fl_rank_count_data_exact; try assumption.
      intros v. now apply dict_get_nonneg.
    + unfold fl_rank_mean. rewrite Hterms. cbn [bind].
      rewrite Hs, Hsum, fl_of_int_exact by lia.
      unfold fl_div. rewrite Z2Qc_eqb.
      destruct (Z.eqb_spec (sample_size x) 0) as [H0 | _]; [lia |].
      apply f_equal.
      replace (half_of (sample_size x * (sample_size x + 1)) /
               Z2Qc (sample_size x))%Qc
        with (half_of (sample_size x + 1)).
      * apply round64_half_of. lia.
      * unfold half_of. rewrite Z2Qc_mul. field.
        repeat split; first [apply Z2Qc_2_neq_0 | apply Z2Qc_neq_0; lia].
Qed.

Lemma within_group_mean_rank_binary64_witness :
  exists rank,
    fl_rank_count_data doc_x1 "average" = Ok rank /\
    fl_rank_mean rank doc_x1 14 = Ok (Qcdiv (Z2Qc 15) (Z2Qc 2)).
Proof.
  apply (within_group_mean_rank_binary64 doc_x1);
    try reflexivity; vm_compute; discriminate.
Defined.

(** X19.  The two sums of the pooled ranks (the numerators of lines
    174-175), computed in binary64, are tied: for non-negative counts
    and a pooled size [N = nx + ny] with [N (N + 1) <= 2^53] neither sum
    is rounded, and together they make [N (N + 1) / 2]. *)
Theorem pooled_rank_sums_binary64 (x y : count_data) :
  dict_wf x -> dict_wf y -> orderable x -> orderable y ->
  negative_counts x = [] -> negative_counts y = [] ->
  (sample_size x + sample_size y) * (sample_size x + sample_size y + 1)
    <= 2 ^ 53 ->
  exists rankc tx ty,
    fl_rank_count_data (join_count_data [x; y]) "average" = Ok rankc /\
    fl_weighted_ranks rankc x = Ok tx /\
    fl_weighted_ranks rankc y = Ok ty /\
    (fl_sum tx + fl_sum ty)%Qc =
    Qcdiv (Z2Qc ((sample_size x + sample_size y) *
                 (sample_size x + sample_size y + 1))) (Z2Qc 2).
Proof.
  intros Hwx Hwy Hox Hoy Hnx Hny Hb.
  set (J := join_count_data [x; y]).
  pose proof (sample_size_nonneg x Hnx) as Hsx.
  pose proof (sample_size_nonneg y Hny) as Hsy.
  assert (HwJ : dict_wf J) by apply dict_wf_join.
  assert (HoJ : orderable J) by now apply orderable_join.
  assert (HnJ : sample_size J = sample_size x + sample_size y)
    by apply sample_size_join.
  assert (HgetJ : forall v, 0 <= dict_get J v 0).
  { intros v. unfold J. rewrite dict_get_join.
    pose proof (count_all_nonneg x v Hnx). pose proof (count_all_nonneg y v Hny).
    lia. }
  assert (Hg : forall v, 0 <= twice_rank J v).
  { intros v. assert (H : 0 <= below J v).
    { unfold J. rewrite below_join.
      pose proof (below_nonneg x v Hnx). pose proof (below_nonneg y v Hny). lia. }
    pose proof (twice_rank_pos J v H (HgetJ v)). lia. }
  destruct (size_bound (sample_size x + sample_size y)) as [Hb1 Hb2];
    [lia | exact Hb |].
  assert (Hsum : zsum (zterms (twice_rank J) x) + zsum (zterms (twice_rank J) y) =
                 (sample_size x + sample_size y) *
                 (sample_size x + sample_size y + 1)).
  { apply half_of_inj. rewrite <- half_of_add, <- !wsum_half_of.
    rewrite <- HnJ. unfold J at 1 2. rewrite <- wsum_join.
    now apply wsum_rank_of. }
  pose proof (zsum_nonneg _ (zterms_nonneg (twice_rank J) x Hg Hnx)) as Hzx.
  pose proof (zsum_nonneg _ (zterms_nonneg (twice_rank J) y Hg Hny)) as Hzy.
  destruct (fl_weighted_sum_exact (ranks J) (twice_rank J) x)
    as [tx [Htx Hfx]]; try assumption; try lia.
  { intros v Hv. apply ranks_getitem; try assumption.
    apply keys_join. now left. }
  destruct (fl_weighted_sum_exact (ranks J) (twice_rank J) y)
    as [ty [Hty Hfy]]; try assumption; try lia.
  { intros v Hv. apply ranks_getitem; try assumption.
    apply keys_join. now right. }
  exists (ranks J), tx, ty.
  split; [apply fl_rank_count_data_exact; try assumption; lia |].
  split; [exact Htx |]. split; [exact Hty |].
  now rewrite Hfx, Hfy, half_of_add, Hsum.
Qed.

Lemma pooled_rank_sums_binary64_witness :
  exists rankc tx ty,
    fl_rank_count_data (join_count_data [doc_x1; doc_x2]) "average" = Ok rankc /\
    fl_weighted_ranks rankc doc_x1 = Ok tx /\
    fl_weighted_ranks rankc doc_x2 = Ok ty /\
    (fl_sum tx + fl_sum ty)%Qc = Z2Qc 325.
Proof.
  destruct (pooled_rank_sums_binary64 doc_x1 doc_x2)
    as [rankc [tx [ty [H1 [H2 [H3 H4]]]]]];
    try reflexivity; [vm_compute; discriminate |].
  exists rankc, tx, ty. repeat (split; [assumption |]).
  rewrite H4. now apply Qc_is_canon.
Defined.
